(** * ISpectrumSender: short-time spectrum analysis for the GUI

    A shallow embedding of [ISpectrumSender] (window generation, overlapped
    frame accumulation, forward transform and output formatting) together
    with the properties of its specification.

    Conventions of the embedding.
    - [int] values are integers in [Z]; where the source does arithmetic on
      them the 32-bit wrap-around is written out with [wrap32];
    - [float]/[double] values are elements of a type [F] that carries the
      arithmetic the source uses (class [Scalar]).  The state machine is
      generic in [F].  The properties that depend on the values are proved
      at one of two instances, neither of which rounds: the real numbers
      ([R_Scalar]), under hypotheses that keep every division and logarithm
      away from its singular points, and the real numbers with the
      infinities and NaN of IEEE 754 ([X_Scalar]), where a division by zero
      gives what the source computes;
    - a call that can fail returns a [result]: a failed [assert] (asserts are
      taken as compiled in) or the exception of [std::vector::resize];
    - [std::array] and [std::vector] are lists, read with [l !! i] and
      written with [<[i:=x]> l] or [alter]; an access outside the array is
      undefined behaviour in the source and is a read of a default value,
      respectively a write without effect, here;
    - the template parameters [MAXNC] and [MAX_FFT_SIZE] are section
      variables. *)

From Stdlib Require Import ZArith QArith Reals Lra Lia.
From stdpp Require Import base list.

Local Open Scope Z_scope.

(** ** Machine integers *)

(** A result of [int] arithmetic, reduced to the 32-bit two's complement
    range. *)
Definition wrap32 (z : Z) : Z := (z + 2 ^ 31) mod 2 ^ 32 - 2 ^ 31.

Definition INT_MIN : Z := - 2 ^ 31.
Definition INT_MAX : Z := 2 ^ 31 - 1.

(** [constexpr bool is_powerof2(int v) { return v && ((v & (v - 1)) == 0); }] *)
Definition is_powerof2 (v : Z) : bool :=
  negb (v =? 0) && (Z.land v (wrap32 (v - 1)) =? 0).

(** ** Scalars *)

(** The floating-point arithmetic used by the sender. *)
Class Scalar (F : Type) : Type := {
  lit : Q -> F;                 (* a floating literal such as [0.5f] *)
  of_int : Z -> F;              (* conversion of an [int] *)
  PI : F;
  fadd : F -> F -> F;
  fsub : F -> F -> F;
  fmul : F -> F -> F;
  fdiv : F -> F -> F;
  fcos : F -> F;                (* [std::cos] *)
  fsqrt : F -> F                (* [std::sqrt] *)
}.

Declare Scope F_scope.
Delimit Scope F_scope with flt.
Infix "⊕" := fadd (at level 50, left associativity) : F_scope.
Infix "⊖" := fsub (at level 50, left associativity) : F_scope.
Infix "⊗" := fmul (at level 40, left associativity) : F_scope.
Infix "⊘" := fdiv (at level 40, left associativity) : F_scope.

(** [WDL_FFT_COMPLEX] *)
Record WDL_FFT_COMPLEX (F : Type) : Type := mkComplex { re : F; im : F }.
Arguments mkComplex {F} _ _.
Arguments re {F} _.
Arguments im {F} _.

(** Modelled from the spec: the forward transform and its output
    permutation ([WDL_fft], [WDL_fft_permute] of fft.h, which is not among
    the sources).  [WDL_fft buf len isInverse] transforms the [len] bins of
    [buf] in place; [WDL_fft_permute fftsize idx] is the position, in the
    transformed buffer, of the bin of frequency index [idx]. *)
Class Transform (F : Type) : Type := {
  WDL_fft : list (WDL_FFT_COMPLEX F) -> Z -> bool -> list (WDL_FFT_COMPLEX F);
  WDL_fft_permute : Z -> Z -> Z
}.

(** ** Arrays and loops *)

(** [a[i]] as a value. *)
Definition rd {A} (d : A) (a : list A) (i : Z) : A := default d (a !! Z.to_nat i).

(** [a[i] = x] *)
Definition wr {A} (a : list A) (i : Z) (x : A) : list A := <[Z.to_nat i := x]> a.

(** [std::fill(a.begin(), a.end(), x)] *)
Definition fill {A} (x : A) (a : list A) : list A := replicate (length a) x.

(** [memcpy(dst, src, n * sizeof(float))] *)
Definition memcpy {A} (dst src : list A) (n : Z) : list A :=
  take (Z.to_nat n) src ++ drop (Z.to_nat n) dst.

(** [for (auto i = 0; i < n; i++) body] over a state of type [S]. *)
Definition for_range {S} (n : Z) (body : Z -> S -> S) (s : S) : S :=
  foldl (fun acc i => body i acc) s (seqZ 0 n).

(** ** The sender *)

Inductive EWindowType : Set :=
  Hann | BlackmanHarris | Hamming | Flattop | Rectangular.

Inductive EOutputType : Set := Complex | MagPhase.

(** The outcome of a call that can fail: a normal return, a failed
    [assert], or the exception [std::length_error] leaving the call. *)
Inductive result (A : Type) : Type :=
| Ok (a : A)
| AssertionFailed
| LengthError.
Arguments Ok {A} _.
Arguments AssertionFailed {A}.
Arguments LengthError {A}.

#[export] Instance result_bind : MBind result :=
  fun A B f r =>
    match r with
    | Ok a => f a
    | AssertionFailed => AssertionFailed
    | LengthError => LengthError
    end.

(** [v.resize(n)] of a [std::vector] with an [int] count [n].  The count is
    converted to [size_t]: a negative [n] becomes a count above
    [max_size()], for which [resize] throws [std::length_error] and leaves
    the vector as it was.  Otherwise the vector is cut to [n] elements or
    filled up with value-initialised ones ([x]); memory is not bounded. *)
Definition vector_resize {A} (n : Z) (x : A) (v : list A) : result (list A) :=
  if n <? 0 then LengthError else Ok (resize (Z.to_nat n) x v).

Section Sender.

Context {F : Type} {SF : Scalar F} {TF : Transform F}.
Variable MAXNC : Z.
Variable MAX_FFT_SIZE : Z.

Local Open Scope F_scope.

Definition czero : WDL_FFT_COMPLEX F := mkComplex (lit 0) (lit 0).

(** [struct STFTFrame]: [bins[ch][i]] *)
Record STFTFrame : Type := mkFrame {
  pos : Z;
  bins : list (list (WDL_FFT_COMPLEX F))
}.

(** [using TDataPacket = std::array<float, MAX_FFT_SIZE>]; the packet of
    [ISenderData] is [vals[ch][i]]. *)
Definition TDataPacket : Type := list F.
Definition ISenderData : Type := list TDataPacket.

Record ISpectrumSender : Type := mkSender {
  mBufferSize : Z;               (* of the base class [TBufferSender] *)
  mOverlap : Z;
  mWindowType : EWindowType;
  mOutputType : EOutputType;
  mWindow : list F;
  mSTFTFrames : list STFTFrame;
  mSTFTOutput : list (list F);
  mScalingFactor : F
}.

Definition set_pos (p : Z) (fr : STFTFrame) : STFTFrame :=
  mkFrame p (bins fr).
Definition set_bins (b : list (list (WDL_FFT_COMPLEX F))) (fr : STFTFrame) : STFTFrame :=
  mkFrame (pos fr) b.

Definition set_mBufferSize (n : Z) (s : ISpectrumSender) : ISpectrumSender :=
  mkSender n (mOverlap s) (mWindowType s) (mOutputType s) (mWindow s)
           (mSTFTFrames s) (mSTFTOutput s) (mScalingFactor s).
Definition set_mOverlap (k : Z) (s : ISpectrumSender) : ISpectrumSender :=
  mkSender (mBufferSize s) k (mWindowType s) (mOutputType s) (mWindow s)
           (mSTFTFrames s) (mSTFTOutput s) (mScalingFactor s).
Definition set_mWindowType (w : EWindowType) (s : ISpectrumSender) : ISpectrumSender :=
  mkSender (mBufferSize s) (mOverlap s) w (mOutputType s) (mWindow s)
           (mSTFTFrames s) (mSTFTOutput s) (mScalingFactor s).
Definition set_mOutputType (o : EOutputType) (s : ISpectrumSender) : ISpectrumSender :=
  mkSender (mBufferSize s) (mOverlap s) (mWindowType s) o (mWindow s)
           (mSTFTFrames s) (mSTFTOutput s) (mScalingFactor s).
Definition set_mWindow (w : list F) (s : ISpectrumSender) : ISpectrumSender :=
  mkSender (mBufferSize s) (mOverlap s) (mWindowType s) (mOutputType s) w
           (mSTFTFrames s) (mSTFTOutput s) (mScalingFactor s).
Definition set_mSTFTFrames (fs : list STFTFrame) (s : ISpectrumSender) : ISpectrumSender :=
  mkSender (mBufferSize s) (mOverlap s) (mWindowType s) (mOutputType s) (mWindow s)
           fs (mSTFTOutput s) (mScalingFactor s).
Definition set_mSTFTOutput (o : list (list F)) (s : ISpectrumSender) : ISpectrumSender :=
  mkSender (mBufferSize s) (mOverlap s) (mWindowType s) (mOutputType s) (mWindow s)
           (mSTFTFrames s) o (mScalingFactor s).
Definition set_mScalingFactor (x : F) (s : ISpectrumSender) : ISpectrumSender :=
  mkSender (mBufferSize s) (mOverlap s) (mWindowType s) (mOutputType s) (mWindow s)
           (mSTFTFrames s) (mSTFTOutput s) x.

(** Modelled from the spec: the buffer length of the base class
    [TBufferSender] (ISender.h is not among the sources).  The block handed
    to [PrepareDataForUI] has the configured buffer length, which is the
    transform size: [SetBufferSize] stores it and [GetBufferSize] returns
    it. *)
Definition GetBufferSize (s : ISpectrumSender) : Z := mBufferSize s.
Definition SetBufferSize (bufferSize : Z) (s : ISpectrumSender) : ISpectrumSender :=
  set_mBufferSize bufferSize s.

(** *** Window table and scaling factor *)

Definition CalculateWindow (s : ISpectrumSender) : ISpectrumSender :=
  let fftSize := GetBufferSize s in
  let M := of_int (wrap32 (fftSize - 1)) in
  match mWindowType s with
  | Hann =>
      set_mWindow
        (for_range fftSize
           (fun i win =>
              wr win i (lit 0.5 ⊗ (lit 1 ⊖ fcos (PI ⊗ lit 2 ⊗ of_int i ⊘ M))))
           (mWindow s)) s
  | BlackmanHarris =>
      set_mWindow
        (for_range fftSize
           (fun i win =>
              wr win i
                 (lit 0.35875 ⊖ (lit 0.48829 ⊗ fcos (lit 2 ⊗ PI ⊗ of_int i ⊘ M)) ⊕
                  (lit 0.14128 ⊗ fcos (lit 4 ⊗ PI ⊗ of_int i ⊘ M)) ⊖
                  (lit 0.01168 ⊗ fcos (lit 6 ⊗ PI ⊗ of_int i ⊘ M))))
           (mWindow s)) s
  | Hamming =>
      set_mWindow
        (for_range fftSize
           (fun i win =>
              wr win i (lit 0.54 ⊖ lit 0.46 ⊗ fcos (lit 2 ⊗ PI ⊗ of_int i ⊘ M)))
           (mWindow s)) s
  | Flattop =>
      set_mWindow
        (for_range fftSize
           (fun i win =>
              wr win i
                 (lit 0.21557895 ⊖ lit 0.41663158 ⊗ fcos (lit 2 ⊗ PI ⊗ of_int i ⊘ M) ⊕
                  lit 0.277263158 ⊗ fcos (lit 4 ⊗ PI ⊗ of_int i ⊘ M) ⊖
                  lit 0.083578947 ⊗ fcos (lit 6 ⊗ PI ⊗ of_int i ⊘ M) ⊕
                  lit 0.006947368 ⊗ fcos (lit 8 ⊗ PI ⊗ of_int i ⊘ M)))
           (mWindow s)) s
  | Rectangular => set_mWindow (fill (lit 1) (mWindow s)) s
  end.

Definition CalculateScalingFactors (s : ISpectrumSender) : ISpectrumSender :=
  let fftSize := GetBufferSize s in
  let M := of_int (wrap32 (fftSize - 1)) in
  let scaling :=
    for_range fftSize
      (fun i scaling =>
         let v := lit 0.5 ⊗ (lit 1 ⊖ fcos (lit 2 ⊗ PI ⊗ of_int i ⊘ M)) in
         scaling ⊕ v)
      (lit 0) in
  set_mScalingFactor (scaling ⊗ scaling) s.

(** *** Frames *)

(** A value-initialised [STFTFrame], as [std::vector::resize] appends. *)
Definition new_frame : STFTFrame :=
  mkFrame 0 (replicate (Z.to_nat MAXNC) (replicate (Z.to_nat MAX_FFT_SIZE) czero)).

(** [SetFFTSize].  In [size() != mOverlap] the [int] is converted to
    [size_t]; the size of a vector never equals the conversion of a negative
    number, so that a negative [mOverlap] reaches [resize], which throws
    before any frame or output is reset. *)
Definition SetFFTSize (s : ISpectrumSender) : result ISpectrumSender :=
  frames ←
    (if negb (Z.of_nat (length (mSTFTFrames s)) =? mOverlap s)
     then vector_resize (mOverlap s) new_frame (mSTFTFrames s)
     else Ok (mSTFTFrames s));
  let frames :=
    (fun frame =>
       let frame :=
         for_range MAXNC
           (fun ch fr => set_bins (alter (fill czero) (Z.to_nat ch) (bins fr)) fr)
           frame in
       set_pos 0 frame) <$> frames in
  let output :=
    for_range MAXNC (fun ch out => alter (fill (lit 0)) (Z.to_nat ch) out)
              (mSTFTOutput s) in
  Ok (set_mSTFTOutput output (set_mSTFTFrames frames s)).

(** [SetFFTSizeAndOverlap]: no check of its arguments; the only failure is
    the exception of [SetFFTSize].  The outcome [LengthError] does not carry
    the members assigned before the exception ([mOverlap] and the buffer
    size). *)
Definition SetFFTSizeAndOverlap (fftSize overlap : Z) (s : ISpectrumSender)
  : result ISpectrumSender :=
  let s := set_mOverlap overlap s in
  let s := SetBufferSize fftSize s in
  s ← SetFFTSize s;
  let s := CalculateWindow s in
  Ok (CalculateScalingFactors s).

Definition SetWindowType (windowType : EWindowType) (s : ISpectrumSender)
  : ISpectrumSender :=
  CalculateWindow (set_mWindowType windowType s).

Definition SetOutputType (outputType : EOutputType) (s : ISpectrumSender)
  : ISpectrumSender :=
  set_mOutputType outputType s.

(** The constructor.  The members [mWindow] and [mSTFTOutput] have no
    initialiser: their contents before the constructor body runs are the
    arguments [window0] and [output0].  The three [assert]s are the
    precondition check; past them the constructor ends as
    [SetFFTSizeAndOverlap] does. *)
Definition construct (window0 : list F) (output0 : list (list F))
    (fftSize overlap : Z) (window : EWindowType) (outputType : EOutputType)
  : result ISpectrumSender :=
  let s := mkSender fftSize 2 window outputType window0 [] output0 (lit 0) in
  if negb (is_powerof2 fftSize) then AssertionFailed
  else if negb (fftSize >? 0) then AssertionFailed
  else if negb (fftSize <=? MAX_FFT_SIZE) then AssertionFailed
  else SetFFTSizeAndOverlap fftSize overlap s.

(** *** Transform and output formatting *)

(** [bins[ch][i]] and [output[ch][i]] *)
Definition rd2 {A} (d : A) (a : list (list A)) (ch i : Z) : A :=
  rd d (rd [] a ch) i.
Definition wr2 {A} (a : list (list A)) (ch i : Z) (x : A) : list (list A) :=
  alter (fun row => wr row i x) (Z.to_nat ch) a.

(** [WDL_fft(row.data(), fftSize, false)]: the first [fftSize] bins of the
    row are transformed in place. *)
Definition fft_in_place (fftSize : Z) (row : list (WDL_FFT_COMPLEX F))
  : list (WDL_FFT_COMPLEX F) :=
  WDL_fft (take (Z.to_nat fftSize) row) fftSize false ++ drop (Z.to_nat fftSize) row.

(** [void Permute(int ch, int frameIdx)] *)
Definition Permute_idx (ch frameIdx : Z) (s : ISpectrumSender) : ISpectrumSender :=
  let fftSize := GetBufferSize s in
  let s :=
    set_mSTFTFrames
      (alter (fun fr => set_bins (alter (fft_in_place fftSize) (Z.to_nat ch) (bins fr)) fr)
             (Z.to_nat frameIdx) (mSTFTFrames s)) s in
  match mOutputType s with
  | Complex =>
      let nBins := fftSize ÷ 2 in
      for_range nBins
        (fun i s =>
           let sortIdx := WDL_fft_permute fftSize i in
           let s :=
             set_mSTFTOutput
               (wr2 (mSTFTOutput s) ch i
                    (re (rd2 czero (bins (rd new_frame (mSTFTFrames s) frameIdx)) ch sortIdx)))
               s in
           set_mSTFTOutput
             (wr2 (mSTFTOutput s) ch (wrap32 (i + nBins))
                  (im (rd2 czero (bins (rd new_frame (mSTFTFrames s) frameIdx)) ch sortIdx)))
             s)
        s
  | MagPhase =>
      for_range fftSize
        (fun i s =>
           let sortIdx := WDL_fft_permute fftSize i in
           let re := re (rd2 czero (bins (rd new_frame (mSTFTFrames s) frameIdx)) ch sortIdx) in
           let im := im (rd2 czero (bins (rd new_frame (mSTFTFrames s) frameIdx)) ch sortIdx) in
           set_mSTFTOutput
             (wr2 (mSTFTOutput s) ch i
                  (fsqrt (lit 2 ⊗ (re ⊗ re ⊕ im ⊗ im) ⊘ mScalingFactor s)))
             s)
        s
  end.

(** [void Permute(int ch, STFTFrame& frame)].  The frame is passed by
    reference: the function returns it next to the sender.  The body reaches
    no frame through [mSTFTFrames], so the caller's write-back of the
    returned frame gives the state of the source. *)
Definition Permute (ch : Z) (frame : STFTFrame) (s : ISpectrumSender)
  : STFTFrame * ISpectrumSender :=
  let fftSize := GetBufferSize s in
  let frame := set_bins (alter (fft_in_place fftSize) (Z.to_nat ch) (bins frame)) frame in
  match mOutputType s with
  | Complex =>
      let nBins := fftSize ÷ 2 in
      (frame,
       for_range nBins
         (fun i s =>
            let sortIdx := WDL_fft_permute fftSize i in
            let s :=
              set_mSTFTOutput
                (wr2 (mSTFTOutput s) ch i (re (rd2 czero (bins frame) ch sortIdx))) s in
            set_mSTFTOutput
              (wr2 (mSTFTOutput s) ch (wrap32 (i + nBins))
                   (im (rd2 czero (bins frame) ch sortIdx))) s)
         s)
  | MagPhase =>
      (frame,
       for_range fftSize
         (fun i s =>
            let sortIdx := WDL_fft_permute fftSize i in
            let re := re (rd2 czero (bins frame) ch sortIdx) in
            let im := im (rd2 czero (bins frame) ch sortIdx) in
            set_mSTFTOutput
              (wr2 (mSTFTOutput s) ch i
                   (fsqrt (lit 2 ⊗ (re ⊗ re ⊕ im ⊗ im) ⊘ mScalingFactor s)))
              s)
         s)
  end.

(** *** Processing a block *)

(** The body of the loop over the overlap frames, for the sample
    [sampleIdx] of the packet.  [stftFrame] is a reference to
    [mSTFTFrames[stftFrameIdx]]: it is read at the start and written back at
    the end, nothing in between reaches [mSTFTFrames]. *)
Definition frame_step (fftSize sampleIdx stftFrameIdx : Z)
    (st : ISpectrumSender * ISenderData) : ISpectrumSender * ISenderData :=
  let '(s, dataPacket) := st in
  match mSTFTFrames s !! Z.to_nat stftFrameIdx with
  | None => st
  | Some stftFrame =>
      let stftFrame :=
        for_range MAXNC
          (fun ch fr =>
             let windowedValue :=
               rd2 (lit 0) dataPacket ch sampleIdx ⊗ rd (lit 0) (mWindow s) (pos fr) in
             let fr :=
               set_bins
                 (alter (alter (fun b => mkComplex windowedValue (im b)) (Z.to_nat (pos fr)))
                        (Z.to_nat ch) (bins fr)) fr in
             set_bins
               (alter (alter (fun b => mkComplex (re b) (lit 0)) (Z.to_nat (pos fr)))
                      (Z.to_nat ch) (bins fr)) fr)
          stftFrame in
      let stftFrame := set_pos (wrap32 (pos stftFrame + 1)) stftFrame in
      if pos stftFrame >=? fftSize then
        let stftFrame := set_pos 0 stftFrame in
        let '(stftFrame, s, dataPacket) :=
          for_range MAXNC
            (fun ch '(fr, s, pkt) =>
               let '(fr, s) := Permute ch fr s in
               (fr, s,
                alter (fun vals => memcpy vals (rd [] (mSTFTOutput s) ch) fftSize)
                      (Z.to_nat ch) pkt))
            (stftFrame, s, dataPacket) in
        (set_mSTFTFrames (<[Z.to_nat stftFrameIdx := stftFrame]> (mSTFTFrames s)) s,
         dataPacket)
      else
        (set_mSTFTFrames (<[Z.to_nat stftFrameIdx := stftFrame]> (mSTFTFrames s)) s,
         dataPacket)
  end.

Definition PrepareDataForUI (st : ISpectrumSender * ISenderData)
  : ISpectrumSender * ISenderData :=
  let fftSize := GetBufferSize (fst st) in
  for_range fftSize
    (fun sampleIdx st =>
       for_range (mOverlap (fst st))
         (fun stftFrameIdx st => frame_step fftSize sampleIdx stftFrameIdx st)
         st)
    st.

End Sender.

Arguments STFTFrame : clear implicits.
Arguments ISpectrumSender : clear implicits.
Arguments ISenderData : clear implicits.
Arguments mkFrame {F} _ _.
Arguments mkSender {F} _ _ _ _ _ _ _ _.

(** ** Exact arithmetic *)

(** The real numbers as scalars: the arithmetic of the source without
    rounding.  Division, square root and logarithm are the total functions
    of the library, which differ from the source's where the source divides
    by zero or leaves the domain of the function; the properties proved at
    this instance carry the hypotheses that exclude those points. *)
#[export] Instance R_Scalar : Scalar R := {|
  lit := Q2R;
  of_int := IZR;
  PI := Rtrigo1.PI;
  fadd := Rplus;
  fsub := Rminus;
  fmul := Rmult;
  fdiv := Rdiv;
  fcos := cos;
  fsqrt := sqrt
|}.

(** ** Arithmetic with the special values *)

(** The values of IEEE 754 arithmetic without rounding and without
    overflow: a finite number is an exact real, and next to the finite
    numbers there are the two infinities and NaN, which arise from the
    operations on the singular points only.  There the operations follow the
    standard: a non-zero number divided by zero is an infinity; [0 / 0],
    [inf - inf], [0 * inf], [inf / inf], the cosine of an infinity and the
    square root of a negative number are NaN; NaN propagates.  Zero has no
    sign here and counts as the positive zero when it divides; the two
    divisors of the sender, the converted [fftSize - 1] and the square
    [scaling * scaling], are never the negative zero. *)
Inductive xfloat : Type :=
| Finite (r : R)
| Infinity (negative : bool)
| NaN.

Definition is_zero (r : R) : bool := if Req_dec_T r 0 then true else false.
Definition is_negative (r : R) : bool := if Rlt_dec r 0 then true else false.

Definition xadd (x y : xfloat) : xfloat :=
  match x, y with
  | Finite a, Finite b => Finite (a + b)
  | Finite _, Infinity s => Infinity s
  | Infinity s, Finite _ => Infinity s
  | Infinity s, Infinity t => if Bool.eqb s t then Infinity s else NaN
  | _, _ => NaN
  end.

Definition xsub (x y : xfloat) : xfloat :=
  match x, y with
  | Finite a, Finite b => Finite (a - b)
  | Finite _, Infinity s => Infinity (negb s)
  | Infinity s, Finite _ => Infinity s
  | Infinity s, Infinity t => if Bool.eqb s t then NaN else Infinity s
  | _, _ => NaN
  end.

Definition xmul (x y : xfloat) : xfloat :=
  match x, y with
  | Finite a, Finite b => Finite (a * b)
  | Finite a, Infinity s =>
      if is_zero a then NaN else Infinity (xorb s (is_negative a))
  | Infinity s, Finite a =>
      if is_zero a then NaN else Infinity (xorb s (is_negative a))
  | Infinity s, Infinity t => Infinity (xorb s t)
  | _, _ => NaN
  end.

Definition xdiv (x y : xfloat) : xfloat :=
  match x, y with
  | Finite a, Finite b =>
      if is_zero b
      then if is_zero a then NaN else Infinity (is_negative a)
      else Finite (a / b)
  | Finite _, Infinity _ => Finite 0
  | Infinity s, Finite b => Infinity (xorb s (is_negative b))
  | _, _ => NaN
  end.

Definition xcos (x : xfloat) : xfloat :=
  match x with
  | Finite a => Finite (cos a)
  | _ => NaN
  end.

Definition xsqrt (x : xfloat) : xfloat :=
  match x with
  | Finite a => if is_negative a then NaN else Finite (sqrt a)
  | Infinity false => Infinity false
  | _ => NaN
  end.

#[export] Instance X_Scalar : Scalar xfloat := {|
  lit := fun q => Finite (Q2R q);
  of_int := fun z => Finite (IZR z);
  PI := Finite Rtrigo1.PI;
  fadd := xadd;
  fsub := xsub;
  fmul := xmul;
  fdiv := xdiv;
  fcos := xcos;
  fsqrt := xsqrt
|}.

(** ** A transform for the sizes 1 and 2 *)

Section SmallTransform.

Context {F : Type} {SF : Scalar F}.
Local Open Scope F_scope.

(** Modelled from the spec: the forward transform of length [N] of
    section 4.3 for [N <= 2] (fft.h is not among the sources).  The discrete
    Fourier transform of one bin is that bin; of two bins [a], [b] it is
    [a + b], [a - b]; both are in natural order, so the permutation is the
    identity. *)
Definition dft_small (buf : list (WDL_FFT_COMPLEX F)) (len : Z) (isInverse : bool)
  : list (WDL_FFT_COMPLEX F) :=
  match buf with
  | [a; b] =>
      [mkComplex (re a ⊕ re b) (im a ⊕ im b);
       mkComplex (re a ⊖ re b) (im a ⊖ im b)]
  | _ => buf
  end.

Definition dft_small_permute (fftsize idx : Z) : Z := idx.

Definition Small_Transform : Transform F :=
  {| WDL_fft := dft_small; WDL_fft_permute := dft_small_permute |}.

End SmallTransform.

(** ** Specification-side definitions *)

(** The cursor after one sample: the next position, or 0 at the end of the
    frame. *)
Definition next_pos (fftSize p : Z) : Z :=
  if wrap32 (p + 1) >=? fftSize then 0 else wrap32 (p + 1).

(** All frames at the cursor [p]. *)
Definition cursors_at {F} (p : Z) (s : ISpectrumSender F) : Prop :=
  Forall (fun frame => pos frame = p) (mSTFTFrames s).

(** A valid transform size for the capacity [MAX]: a power of two with
    [0 < N <= MAX]. *)
Definition valid_size (MAX N : Z) : Prop :=
  (exists k, 0 <= k /\ N = 2 ^ k) /\ 0 < N <= MAX.

(** Bounds-checked [a[ch][i]]: [None] outside the array. *)
Definition at2 {A} (a : list (list A)) (ch i : Z) : option A :=
  if (0 <=? ch) && (0 <=? i)
  then a !! Z.to_nat ch ≫= (fun row => row !! Z.to_nat i)
  else None.

(** The sum of a list of reals. *)
Definition Rsum (l : list R) : R := foldr Rplus 0%R l.

(** The window formulas of the specification (section 4.1), for the size
    [N] and the index [i], with [M = N - 1]. *)
Definition spec_window (w : EWindowType) (N i : Z) : R :=
  let M := IZR (N - 1) in
  let x := IZR i in
  let pi := Rtrigo1.PI in
  match w with
  | Hann => 0.5 * (1 - cos (2 * pi * x / M))
  | Hamming => 0.54 - 0.46 * cos (2 * pi * x / M)
  | BlackmanHarris =>
      0.35875 - 0.48829 * cos (2 * pi * x / M) + 0.14128 * cos (4 * pi * x / M)
      - 0.01168 * cos (6 * pi * x / M)
  | Flattop =>
      0.21557895 - 0.41663158 * cos (2 * pi * x / M)
      + 0.277263158 * cos (4 * pi * x / M) - 0.083578947 * cos (6 * pi * x / M)
      + 0.006947368 * cos (8 * pi * x / M)
  | Rectangular => 1
  end%R.

(** The scaling factor of the specification: the square of the sum of the
    Hann coefficients of the size [N]. *)
Definition spec_scaling (N : Z) : R :=
  (Rsum (spec_window Hann N <$> seqZ 0 N) * Rsum (spec_window Hann N <$> seqZ 0 N))%R.

(** The range of the window coefficients, by window type. *)
Definition window_range (w : EWindowType) (c : R) : Prop :=
  match w with
  | Hann | Hamming | BlackmanHarris => 0 <= c <= 1
  | Flattop => -0.0706 <= c <= 1.000000003
  | Rectangular => c = 1
  end%R.

(** ** A small sender *)

(** A sender of one channel and capacity 4, [ISpectrumSender<1, 64, 4>],
    constructed with the transform size 2 over exact arithmetic and the
    transform [Small_Transform]; the members without initialiser start as
    zeros. *)
Definition small_sender (overlap : Z) (w : EWindowType) (o : EOutputType)
  : result (ISpectrumSender R) :=
  construct 1 4 [0; 0; 0; 0]%R [[0; 0; 0; 0]%R] 2 overlap w o.

(** The sender and the packet after one block [vals] of channel 0. *)
Definition small_run (overlap : Z) (w : EWindowType) (o : EOutputType)
    (vals : list R) : option (ISpectrumSender R * ISenderData R) :=
  match small_sender overlap w o with
  | Ok s => Some (PrepareDataForUI (TF := Small_Transform) 1 (s, [vals]))
  | _ => None
  end.

(** The sender of one channel and capacity 4 over the arithmetic with the
    special values, constructed with two overlap frames. *)
Definition xsmall_sender (fftSize : Z) (w : EWindowType) (o : EOutputType)
  : result (ISpectrumSender xfloat) :=
  construct 1 4 [Finite 0; Finite 0; Finite 0; Finite 0]
            [[Finite 0; Finite 0; Finite 0; Finite 0]] fftSize 2 w o.

(** A sender state of that shape over the arithmetic with the special
    values, with the transform size 2, two frames and the scaling factor
    1. *)
Definition xsmall_state (w : EWindowType) (o : EOutputType) : ISpectrumSender xfloat :=
  mkSender 2 2 w o [Finite 0; Finite 0; Finite 0; Finite 0]
           [mkFrame 0 [[czero; czero; czero; czero]];
            mkFrame 0 [[czero; czero; czero; czero]]]
           [[Finite 0; Finite 0; Finite 0; Finite 0]] (Finite 1).

(** A sender state of that shape with two frames, written out. *)
Definition small_state (w : EWindowType) (o : EOutputType) : ISpectrumSender R :=
  mkSender 2 2 w o [0; 0; 0; 0]%R
           [mkFrame 0 [[czero; czero; czero; czero]];
            mkFrame 0 [[czero; czero; czero; czero]]]
           [[0; 0; 0; 0]%R] 1%R.

(** ** The window loop bodies, by type *)

(** The value that the loop of [CalculateWindow] for the type [w] stores at
    the index [i], with [M] the converted [fftSize - 1] (for Rectangular,
    the fill value). *)
Definition window_term {F} {SF : Scalar F} (w : EWindowType) (M : F) (i : Z) : F :=
  match w with
  | Hann => lit 0.5 ⊗ (lit 1 ⊖ fcos (PI ⊗ lit 2 ⊗ of_int i ⊘ M))
  | BlackmanHarris =>
      lit 0.35875 ⊖ (lit 0.48829 ⊗ fcos (lit 2 ⊗ PI ⊗ of_int i ⊘ M)) ⊕
      (lit 0.14128 ⊗ fcos (lit 4 ⊗ PI ⊗ of_int i ⊘ M)) ⊖
      (lit 0.01168 ⊗ fcos (lit 6 ⊗ PI ⊗ of_int i ⊘ M))
  | Hamming => lit 0.54 ⊖ lit 0.46 ⊗ fcos (lit 2 ⊗ PI ⊗ of_int i ⊘ M)
  | Flattop =>
      lit 0.21557895 ⊖ lit 0.41663158 ⊗ fcos (lit 2 ⊗ PI ⊗ of_int i ⊘ M) ⊕
      lit 0.277263158 ⊗ fcos (lit 4 ⊗ PI ⊗ of_int i ⊘ M) ⊖
      lit 0.083578947 ⊗ fcos (lit 6 ⊗ PI ⊗ of_int i ⊘ M) ⊕
      lit 0.006947368 ⊗ fcos (lit 8 ⊗ PI ⊗ of_int i ⊘ M)
  | Rectangular => lit 1
  end%flt.

(** The members of a sender other than the frames and the output buffer:
    sizes, types, window table and scaling factor. *)
Definition configuration {F} (s : ISpectrumSender F) : ISpectrumSender F :=
  mkSender (mBufferSize s) (mOverlap s) (mWindowType s) (mOutputType s) (mWindow s)
           [] [] (mScalingFactor s).

(** ** The analyzer control: IVSpectrumAnalyzerControl *)

(** The further arithmetic of the control: [std::logf], [std::powf] and the
    comparisons of [float]s. *)
Class ScalarLog (F : Type) : Type := {
  flog : F -> F;
  fpow : F -> F -> F;
  fltb : F -> F -> bool;        (* [a < b] *)
  fleb : F -> F -> bool         (* [a <= b] *)
}.

(** Over the real numbers the logarithm is the total function of the
    library, which is 0 where [std::logf] is minus infinity or NaN; the
    properties proved at this instance take the logarithm of positive
    numbers only. *)
#[export] Instance R_ScalarLog : ScalarLog R := {|
  flog := ln;
  fpow := Rpower;
  fltb := fun a b => if Rlt_dec a b then true else false;
  fleb := fun a b => if Rle_dec a b then true else false
|}.

(** Strictly increasing lists of reals. *)
Fixpoint increasing (l : list R) : Prop :=
  match l with
  | [] => True
  | a :: l' => Forall (Rlt a) l' /\ increasing l'
  end.

Module Control.

Section Control.

Context {F : Type} {SF : Scalar F} {SL : ScalarLog F}.
Variable MAXNC : Z.
Variable MAX_FFT_SIZE : Z.

Local Open Scope F_scope.

(** The members of the control that its computations use: the transform
    size, the logarithmic ranges, the frequency range and the points of
    each channel, [mXPoints[ch]] and [mYPoints[ch]]. *)
Record IVSpectrumAnalyzerControl : Type := mkControl {
  mFFTSize : Z;
  mLogXLo : F;
  mLogXHi : F;
  mLogYLo : F;
  mLogYHi : F;
  mFreqLo : F;
  mFreqHi : F;
  mXPoints : list (list F);
  mYPoints : list (list F)
}.

Definition set_mYPoints (y : list (list F)) (c : IVSpectrumAnalyzerControl)
  : IVSpectrumAnalyzerControl :=
  mkControl (mFFTSize c) (mLogXLo c) (mLogXHi c) (mLogYLo c) (mLogYHi c)
            (mFreqLo c) (mFreqHi c) (mXPoints c) y.
Definition set_mXPoints (x : list (list F)) (c : IVSpectrumAnalyzerControl)
  : IVSpectrumAnalyzerControl :=
  mkControl (mFFTSize c) (mLogXLo c) (mLogXHi c) (mLogYLo c) (mLogYHi c)
            (mFreqLo c) (mFreqHi c) x (mYPoints c).

(** The packet as the control receives it: [ISenderData<MAXNC, TDataPacket>]
    with the channel range it carries. *)
Record ISenderData : Type := mkData {
  nChans : Z;
  chanOffset : Z;
  vals : list (list F)
}.

(** [void SetFFTSize(int fftSize)]: two assertions, then the points of
    every channel are cleared. *)
Definition SetFFTSize (fftSize : Z) (c : IVSpectrumAnalyzerControl)
  : result IVSpectrumAnalyzerControl :=
  if negb (fftSize >? 0) then AssertionFailed
  else if negb (fftSize <=? MAX_FFT_SIZE) then AssertionFailed
  else
    let c := mkControl fftSize (mLogXLo c) (mLogXHi c) (mLogYLo c) (mLogYHi c)
                       (mFreqLo c) (mFreqHi c) (mXPoints c) (mYPoints c) in
    Ok (for_range MAXNC
          (fun ch c =>
             let c := set_mXPoints (alter (fun _ => []) (Z.to_nat ch) (mXPoints c)) c in
             set_mYPoints (alter (fun _ => []) (Z.to_nat ch) (mYPoints c)) c)
          c).

(** [void SetFreqRange(float freqLo, float freqHi, float sampleRate)] *)
Definition SetFreqRange (freqLo freqHi sampleRate : F) (c : IVSpectrumAnalyzerControl)
  : result IVSpectrumAnalyzerControl :=
  let nyquist := sampleRate ⊘ lit 2 in
  if negb (fltb freqHi nyquist) then AssertionFailed
  else if negb (fleb (lit 0) freqLo) then AssertionFailed
  else if negb (fltb freqLo freqHi) then AssertionFailed
  else
    Ok (mkControl (mFFTSize c)
                  (flog (freqLo ⊘ nyquist)) (flog (freqHi ⊘ nyquist))
                  (mLogYLo c) (mLogYHi c) freqLo freqHi (mXPoints c) (mYPoints c)).

(** [void SetDBRange(float dbLo, float dbHi)] *)
Definition SetDBRange (dbLo dbHi : F) (c : IVSpectrumAnalyzerControl)
  : IVSpectrumAnalyzerControl :=
  mkControl (mFFTSize c) (mLogXLo c) (mLogXHi c)
            (flog (fpow (lit 10) (dbLo ⊘ lit 10)))
            (flog (fpow (lit 10) (dbHi ⊘ lit 10)))
            (mFreqLo c) (mFreqHi c) (mXPoints c) (mYPoints c).

(** [float CalcXNorm(float x)] and [float CalcYNorm(float y)] *)
Definition CalcXNorm (c : IVSpectrumAnalyzerControl) (x : F) : F :=
  (flog x ⊖ mLogXLo c) ⊘ (mLogXHi c ⊖ mLogXLo c).
Definition CalcYNorm (c : IVSpectrumAnalyzerControl) (y : F) : F :=
  (flog y ⊖ mLogYLo c) ⊘ (mLogYHi c ⊖ mLogYLo c).




(** The marker frequencies of [DrawFreqMarkers]: the low end of the range,
    the candidates strictly inside it, the high end.  The loop skips a
    candidate that is not above [mFreqLo] and stops at the first that is
    not below [mFreqHi]. *)
Definition candidateFreqs : list F :=
  [lit 10; lit 50; lit 100; lit 250; lit 1000; lit 5000; lit 10000; lit 20000;
   lit 25000].

Fixpoint select_loop (freqLo freqHi : F) (candidates : list F) (selectedFreqs : list F)
  : list F :=
  match candidates with
  | [] => selectedFreqs
  | freq :: rest =>
      if fleb freq freqLo then select_loop freqLo freqHi rest selectedFreqs
      else if fleb freqHi freq then selectedFreqs
      else select_loop freqLo freqHi rest (selectedFreqs ++ [freq])
  end.

Definition selectedFreqs (c : IVSpectrumAnalyzerControl) : list F :=
  select_loop (mFreqLo c) (mFreqHi c) candidateFreqs [mFreqLo c] ++ [mFreqHi c].

End Control.

Arguments IVSpectrumAnalyzerControl : clear implicits.
Arguments ISenderData : clear implicits.
Arguments mkControl {F} _ _ _ _ _ _ _ _ _.
Arguments mkData {F} _ _ _.

End Control.

(** A control of one channel with the transform size 2, the frequency range
    20 Hz to 20 kHz and no points yet. *)
Definition small_control : Control.IVSpectrumAnalyzerControl R :=
  Control.mkControl 2 0%R 1%R 0%R 1%R 20%R 20000%R [[]] [[]].

(** * Properties *)

(** ** Machine integers *)

Lemma wrap32_id (z : Z) : INT_MIN <= z <= INT_MAX -> wrap32 z = z.
Proof.
  unfold wrap32, INT_MIN, INT_MAX. intros Hz.
  rewrite Z.mod_small by lia. lia.
Qed.

Lemma land_pow2_pred (k : Z) : 0 <= k -> Z.land (2 ^ k) (2 ^ k - 1) = 0.
Proof.
  intros Hk.
  replace (2 ^ k - 1) with (Z.ones k) by (rewrite Z.ones_equiv; lia).
  rewrite Z.land_ones by lia.
  apply Z.mod_same. pose proof (Z.pow_pos_nonneg 2 k). lia.
Qed.

(** Below the next power of two a number and its predecessor share their top
    bit, unless the number is that power of two. *)
Lemma land_pred_zero_pow2 (v : Z) :
  0 < v -> Z.land v (v - 1) = 0 -> v = 2 ^ Z.log2 v.
Proof.
  intros Hv Hland.
  destruct (Z.log2_spec v Hv) as [Hlo Hhi].
  destruct (Z.eq_dec v (2 ^ Z.log2 v)) as [|Hne]; [assumption|exfalso].
  assert (Hlog : Z.log2 (v - 1) = Z.log2 v).
  { apply Z.log2_unique; [apply Z.log2_nonneg|]. lia. }
  assert (Hbit : Z.testbit (Z.land v (v - 1)) (Z.log2 v) = true).
  { rewrite Z.land_spec, Z.bit_log2 by lia.
    rewrite <- Hlog. rewrite Z.bit_log2; [reflexivity|].
    pose proof (Z.pow_pos_nonneg 2 (Z.log2 v) ltac:(lia) (Z.log2_nonneg v)). lia. }
  rewrite Hland, Z.bits_0 in Hbit. discriminate.
Qed.

Lemma is_powerof2_spec (v : Z) :
  0 < v <= INT_MAX ->
  is_powerof2 v = true <-> exists k, 0 <= k /\ v = 2 ^ k.
Proof.
  intros Hv. unfold is_powerof2.
  rewrite wrap32_id by (unfold INT_MIN, INT_MAX in *; lia).
  rewrite andb_true_iff, negb_true_iff, !Z.eqb_eq, Z.eqb_neq.
  split.
  - intros [_ Hland]. exists (Z.log2 v). split; [apply Z.log2_nonneg|].
    apply land_pred_zero_pow2; [lia|assumption].
  - intros (k & Hk & ->). split; [lia|]. apply land_pow2_pred; assumption.
Qed.

(** ** Loops *)

Lemma for_range_nonpos {S} (n : Z) (body : Z -> S -> S) (s : S) :
  n <= 0 -> for_range n body s = s.
Proof. intros Hn. unfold for_range. rewrite seqZ_nil by assumption. reflexivity. Qed.

Lemma for_range_succ {S} (n : Z) (body : Z -> S -> S) (s : S) :
  0 <= n -> for_range (n + 1) body s = body n (for_range n body s).
Proof.
  intros Hn. unfold for_range.
  rewrite seqZ_app by lia. rewrite foldl_app.
  rewrite (seqZ_cons (0 + n) 1) by lia.
  rewrite (seqZ_nil _ (Z.pred 1)) by lia.
  reflexivity.
Qed.

(** Loop invariant: [P i] holds before iteration [i] and [P n] at exit. *)
Lemma for_range_ind {S} (P : Z -> S -> Prop) (n : Z) (body : Z -> S -> S) (s : S) :
  0 <= n ->
  P 0 s ->
  (forall i a, 0 <= i < n -> P i a -> P (i + 1) (body i a)) ->
  P n (for_range n body s).
Proof.
  intros Hn H0 Hstep.
  enough (Hall : forall m, 0 <= m -> m <= n -> P m (for_range m body s))
    by (apply Hall; lia).
  intros m Hm. pattern m. apply natlike_ind; [| |assumption].
  - intros _. rewrite for_range_nonpos by lia. assumption.
  - intros x Hx IH Hle. unfold Z.succ. rewrite for_range_succ by assumption.
    apply Hstep; [lia|]. apply IH. lia.
Qed.

(** Two loops over the same range whose bodies preserve a relation. *)
Lemma for_range_rel {S T} (R : S -> T -> Prop) (n : Z)
    (f : Z -> S -> S) (g : Z -> T -> T) (s : S) (t : T) :
  R s t ->
  (forall i a b, 0 <= i < n -> R a b -> R (f i a) (g i b)) ->
  R (for_range n f s) (for_range n g t).
Proof.
  intros H0 Hstep.
  destruct (Z.le_gt_cases n 0) as [Hn|Hn].
  - rewrite !for_range_nonpos by assumption. assumption.
  - apply (for_range_ind
             (fun i a => R a (for_range i g t)) n f s); [lia| |].
    + rewrite for_range_nonpos by lia. assumption.
    + intros i a Hi Ha. rewrite for_range_succ by lia. apply Hstep; assumption.
Qed.

Lemma for_range_ext {S} (n : Z) (f g : Z -> S -> S) (s : S) :
  (forall i a, 0 <= i < n -> f i a = g i a) ->
  for_range n f s = for_range n g s.
Proof.
  intros Hfg. apply (for_range_rel eq); [reflexivity|].
  intros i a b Hi ->. apply Hfg. assumption.
Qed.

(** A loop that updates one row of a two-dimensional array is a loop on
    that row. *)
Lemma for_range_alter {A} (n : Z) (h : Z -> A -> A) (c : nat) (a : list A) :
  for_range n (fun i a => alter (h i) c a) a = alter (for_range n h) c a.
Proof.
  destruct (Z.le_gt_cases n 0) as [Hn|Hn].
  - rewrite for_range_nonpos by assumption.
    symmetry. apply list_alter_id. intros x. apply for_range_nonpos. assumption.
  - apply (for_range_ind
             (fun i b => b = alter (for_range i h) c a)); [lia| |].
    + symmetry. apply list_alter_id. intros x. apply for_range_nonpos. lia.
    + intros i b Hi ->. rewrite list_alter_alter_eq.
      apply list_alter_ext; [|reflexivity].
      intros x _. cbn. rewrite for_range_succ by lia. reflexivity.
Qed.

(** The loop [for i < n: a[i] = f i]. *)
Lemma for_range_wr {A} (f : Z -> A) (n : Z) (a : list A) :
  0 <= n <= Z.of_nat (length a) ->
  let a' := for_range n (fun i w => wr w i (f i)) a in
  length a' = length a /\
  (forall i, 0 <= i < n -> a' !! Z.to_nat i = Some (f i)) /\
  (forall j : nat, n <= Z.of_nat j -> a' !! j = a !! j).
Proof.
  intros Hn. cbv zeta.
  apply (for_range_ind
           (fun m w => length w = length a /\
                       (forall i, 0 <= i < m -> w !! Z.to_nat i = Some (f i)) /\
                       (forall j : nat, m <= Z.of_nat j -> w !! j = a !! j)));
    [lia| |].
  - split; [reflexivity|]. split; [intros i Hi; lia|reflexivity].
  - intros m w Hm (Hlen & Hlo & Hhi). unfold wr.
    split; [rewrite length_insert; assumption|]. split.
    + intros i Hi. destruct (Z.eq_dec i m) as [->|Hne].
      * apply list_lookup_insert_eq. lia.
      * rewrite list_lookup_insert_ne by lia. apply Hlo. lia.
    + intros j Hj. rewrite list_lookup_insert_ne by lia. apply Hhi. lia.
Qed.

(** ** Arrays *)

Lemma rd_lookup {A} (d : A) (a : list A) (i : Z) (x : A) :
  a !! Z.to_nat i = Some x -> rd d a i = x.
Proof. unfold rd. intros ->. reflexivity. Qed.

Lemma rd_alter_eq {A} (d : A) (g : A -> A) (a : list A) (i : Z) (x : A) :
  a !! Z.to_nat i = Some x -> rd d (alter g (Z.to_nat i) a) i = g x.
Proof.
  intros Hx. apply rd_lookup. rewrite list_lookup_alter_eq, Hx. reflexivity.
Qed.

Lemma wr_alter {A} (g : A -> A) (a : list A) (i : Z) (x : A) :
  a !! Z.to_nat i = Some x -> wr a i (g x) = alter g (Z.to_nat i) a.
Proof.
  intros Hx. unfold wr. rewrite list_insert_alter.
  apply list_alter_ext; [|reflexivity].
  intros y Hy. rewrite Hx in Hy. injection Hy as ->. reflexivity.
Qed.

Lemma lookup_rd {A} (d : A) (a : list A) (i : Z) :
  0 <= i < Z.of_nat (length a) -> a !! Z.to_nat i = Some (rd d a i).
Proof.
  intros Hi. unfold rd.
  destruct (lookup_lt_is_Some_2 a (Z.to_nat i) ltac:(lia)) as [x ->].
  reflexivity.
Qed.

Lemma at2_lookup {A} (a : list (list A)) (ch i : Z) (row : list A) :
  0 <= ch -> 0 <= i ->
  a !! Z.to_nat ch = Some row -> at2 a ch i = row !! Z.to_nat i.
Proof.
  intros Hch Hi Hrow. unfold at2.
  destruct (Z.leb_spec 0 ch); [|lia]. destruct (Z.leb_spec 0 i); [|lia].
  cbn [andb]. rewrite Hrow. reflexivity.
Qed.

Lemma at2_alter {A} (g : list A -> list A) (a : list (list A)) (ch i : Z) :
  0 <= ch < Z.of_nat (length a) -> 0 <= i ->
  at2 (alter g (Z.to_nat ch) a) ch i = g (rd [] a ch) !! Z.to_nat i.
Proof.
  intros Hch Hi.
  apply at2_lookup; [lia|lia|].
  rewrite list_lookup_alter_eq, (lookup_rd [] a ch) by lia. reflexivity.
Qed.

Section SenderProperties.

Context {F : Type} {SF : Scalar F} {TF : Transform F}.
Variable MAXNC : Z.
Variable MAX_FFT_SIZE : Z.

Local Open Scope F_scope.

(** ** Configuration *)

(** The two outcomes of [SetFFTSize].  With a non-negative overlap count it
    returns: the frames are resized to that count, every frame is zeroed
    with its cursor at 0, and the output buffer is zeroed. *)
Lemma SetFFTSize_returns (s : ISpectrumSender F) :
  0 <= mOverlap s ->
  SetFFTSize MAXNC MAX_FFT_SIZE s =
  Ok (set_mSTFTOutput
        (for_range MAXNC (fun ch out => alter (fill (lit 0)) (Z.to_nat ch) out)
                   (mSTFTOutput s))
        (set_mSTFTFrames
           ((fun frame =>
               set_pos 0
                 (for_range MAXNC
                    (fun ch fr => set_bins (alter (fill czero) (Z.to_nat ch) (bins fr)) fr)
                    frame))
              <$> (if negb (Z.of_nat (length (mSTFTFrames s)) =? mOverlap s)
                   then resize (Z.to_nat (mOverlap s)) (new_frame MAXNC MAX_FFT_SIZE)
                               (mSTFTFrames s)
                   else mSTFTFrames s))
           s)).
Proof.
  intros HK. unfold SetFFTSize, vector_resize.
  destruct (Z.ltb_spec (mOverlap s) 0) as [Hneg|_]; [lia|].
  destruct (negb _); reflexivity.
Qed.

(** With a negative overlap count [resize] throws. *)
Lemma SetFFTSize_throws (s : ISpectrumSender F) :
  mOverlap s < 0 -> SetFFTSize MAXNC MAX_FFT_SIZE s = LengthError.
Proof.
  intros HK. unfold SetFFTSize, vector_resize.
  destruct (Z.eqb_spec (Z.of_nat (length (mSTFTFrames s))) (mOverlap s)) as [He|_];
    [lia|].
  destruct (Z.ltb_spec (mOverlap s) 0) as [_|Hpos]; [reflexivity|lia].
Qed.

Lemma SetFFTSizeAndOverlap_returns (fftSize overlap : Z) (s : ISpectrumSender F) :
  0 <= overlap ->
  exists s1,
    SetFFTSize MAXNC MAX_FFT_SIZE (SetBufferSize fftSize (set_mOverlap overlap s)) = Ok s1 /\
    SetFFTSizeAndOverlap MAXNC MAX_FFT_SIZE fftSize overlap s
    = Ok (CalculateScalingFactors (CalculateWindow s1)).
Proof.
  intros HK. unfold SetFFTSizeAndOverlap.
  rewrite SetFFTSize_returns by (cbn; lia).
  eexists. split; reflexivity.
Qed.

Lemma SetFFTSizeAndOverlap_throws (fftSize overlap : Z) (s : ISpectrumSender F) :
  overlap < 0 ->
  SetFFTSizeAndOverlap MAXNC MAX_FFT_SIZE fftSize overlap s = LengthError.
Proof.
  intros HK. unfold SetFFTSizeAndOverlap.
  rewrite SetFFTSize_throws by (cbn; lia). reflexivity.
Qed.

(** The three assertions of the constructor: for an [int] [fftSize] that is
    not a valid size (not a power of two, not positive, or above
    [MAX_FFT_SIZE]) one of them fails; for a valid size none fires and the
    constructor ends as [SetFFTSizeAndOverlap] does on the initial
    members. *)
Lemma construct_checks
    (window0 : list F) (output0 : list (list F))
    (fftSize overlap : Z) (window : EWindowType) (outputType : EOutputType) :
  INT_MIN <= fftSize <= INT_MAX ->
  (~ valid_size MAX_FFT_SIZE fftSize ->
   construct MAXNC MAX_FFT_SIZE window0 output0 fftSize overlap window outputType
   = AssertionFailed) /\
  (valid_size MAX_FFT_SIZE fftSize ->
   construct MAXNC MAX_FFT_SIZE window0 output0 fftSize overlap window outputType
   = SetFFTSizeAndOverlap MAXNC MAX_FFT_SIZE fftSize overlap
       (mkSender fftSize 2 window outputType window0 [] output0 (lit 0))).
Proof.
  intros Hint. unfold construct, valid_size.
  destruct (Z.gtb_spec fftSize 0) as [Hpos|Hnpos]; cbn [negb].
  - pose proof (is_powerof2_spec fftSize ltac:(lia)) as Hp2.
    destruct (is_powerof2 fftSize) eqn:Ep; cbn [negb].
    + destruct (Z.leb_spec fftSize MAX_FFT_SIZE) as [Hle|Hgt]; cbn [negb].
      * split; [|reflexivity]. intros Hn. exfalso. apply Hn.
        split; [apply Hp2; reflexivity|lia].
      * split; [reflexivity|]. intros [_ Hr]. lia.
    + split; [reflexivity|]. intros [Hk _]. apply Hp2 in Hk. discriminate.
  - destruct (is_powerof2 fftSize); cbn [negb];
      (split; [reflexivity|intros [_ Hr]; lia]).
Qed.


(** [SetOutputType] stores the output type and keeps the frames, the output
    buffer, the scaling factor and the window table. *)
Lemma SetOutputType_frame (o : EOutputType) (s : ISpectrumSender F) :
  mSTFTFrames (SetOutputType o s) = mSTFTFrames s /\
  mSTFTOutput (SetOutputType o s) = mSTFTOutput s /\
  mScalingFactor (SetOutputType o s) = mScalingFactor s /\
  mWindow (SetOutputType o s) = mWindow s.
Proof. repeat split. Qed.

Lemma CalculateWindow_frame (s : ISpectrumSender F) :
  mSTFTFrames (CalculateWindow s) = mSTFTFrames s /\
  mSTFTOutput (CalculateWindow s) = mSTFTOutput s /\
  mScalingFactor (CalculateWindow s) = mScalingFactor s /\
  mBufferSize (CalculateWindow s) = mBufferSize s /\
  mOverlap (CalculateWindow s) = mOverlap s.
Proof. unfold CalculateWindow. destruct (mWindowType s); repeat split. Qed.

Lemma SetWindowType_frame (windowType : EWindowType) (s : ISpectrumSender F) :
  mSTFTFrames (SetWindowType windowType s) = mSTFTFrames s /\
  mSTFTOutput (SetWindowType windowType s) = mSTFTOutput s /\
  mScalingFactor (SetWindowType windowType s) = mScalingFactor s.
Proof.
  unfold SetWindowType.
  destruct (CalculateWindow_frame (set_mWindowType windowType s))
    as (-> & -> & -> & _). repeat split.
Qed.

(** C9 (the code at an invalid size).  The transform size is checked in the
    constructor only.  For an [int] [fftSize] that is not a valid size the
    constructor fails an assertion; [SetFFTSizeAndOverlap], the
    reconfiguration of an existing sender, passes no check: with a
    non-negative overlap count it returns, and the invalid [fftSize] is the
    transform size of the sender. *)
Theorem SetFFTSizeAndOverlap_unchecked
    (window0 : list F) (output0 : list (list F))
    (fftSize overlap : Z) (window : EWindowType) (outputType : EOutputType)
    (s : ISpectrumSender F) :
  INT_MIN <= fftSize <= INT_MAX ->
  ~ valid_size MAX_FFT_SIZE fftSize ->
  0 <= overlap ->
  construct MAXNC MAX_FFT_SIZE window0 output0 fftSize overlap window outputType
  = AssertionFailed /\
  exists s',
    SetFFTSizeAndOverlap MAXNC MAX_FFT_SIZE fftSize overlap s = Ok s' /\
    GetBufferSize s' = fftSize.
Proof.
  intros Hint Hbad HK. split.
  - apply construct_checks; assumption.
  - destruct (SetFFTSizeAndOverlap_returns fftSize overlap s HK) as (s1 & H1 & ->).
    eexists. split; [reflexivity|].
    rewrite SetFFTSize_returns in H1 by (cbn; lia).
    injection H1 as <-.
    unfold CalculateScalingFactors, GetBufferSize. cbn [mBufferSize set_mScalingFactor].
    match goal with
    | |- context [CalculateWindow ?x] =>
        destruct (CalculateWindow_frame x) as (_ & _ & _ & Hb & _)
    end.
    unfold GetBufferSize in Hb. rewrite Hb. reflexivity.
Qed.

(** C8.  [SetWindowType] recomputes the window table only: the frames (their
    cursors and bins), the output buffer and the scaling factor of every
    state are unchanged, for every window type. *)
Theorem SetWindowType_keeps_frames (windowType : EWindowType) (s : ISpectrumSender F) :
  mSTFTFrames (SetWindowType windowType s) = mSTFTFrames s /\
  mSTFTOutput (SetWindowType windowType s) = mSTFTOutput s /\
  mScalingFactor (SetWindowType windowType s) = mScalingFactor s.
Proof. apply SetWindowType_frame. Qed.

(** ** Reconfiguration *)

(** The loop [for ch < n: a[ch] = g a[ch]] over an array of at most [n]
    rows. *)
Lemma for_range_alter_all {A} (g : A -> A) (n : Z) (a : list A) :
  Z.of_nat (length a) <= n ->
  for_range n (fun ch a => alter g (Z.to_nat ch) a) a = g <$> a.
Proof.
  intros Hn.
  assert (Hinv : forall m, 0 <= m ->
            for_range m (fun ch a => alter g (Z.to_nat ch) a) a
            = (g <$> take (Z.to_nat m) a) ++ drop (Z.to_nat m) a).
  { intros m Hm. pattern m. apply natlike_ind; [| |assumption].
    - rewrite for_range_nonpos by lia. reflexivity.
    - intros k Hk IH. unfold Z.succ. rewrite for_range_succ, IH by assumption.
      apply list_eq. intros j.
      replace (Z.to_nat (k + 1)) with (S (Z.to_nat k)) by lia.
      destruct (decide (j < length a)%nat) as [Hja|Hja].
      2:{ rewrite !lookup_ge_None_2;
            [reflexivity
            |rewrite length_app, length_fmap, length_take, length_drop; lia
            |rewrite length_alter, length_app, length_fmap, length_take, length_drop;
             lia]. }
      destruct (decide (j = Z.to_nat k)) as [->|Hne].
      + rewrite list_lookup_alter_eq.
        rewrite lookup_app_r by (rewrite length_fmap, length_take; lia).
        rewrite lookup_app_l by (rewrite length_fmap, length_take; lia).
        rewrite length_fmap, length_take, lookup_drop, list_lookup_fmap.
        rewrite lookup_take_lt by lia. f_equal. f_equal. lia.
      + rewrite list_lookup_alter_ne by lia.
        destruct (decide (j < Z.to_nat k)%nat) as [Hlt|Hge].
        * rewrite !lookup_app_l by (rewrite length_fmap, length_take; lia).
          rewrite !list_lookup_fmap, !lookup_take_lt by lia. reflexivity.
        * rewrite !lookup_app_r by (rewrite length_fmap, length_take; lia).
          rewrite !length_fmap, !length_take, !lookup_drop. f_equal. lia. }
  destruct (Z.le_gt_cases 0 n) as [Hn0|Hn0].
  - rewrite Hinv by assumption.
    rewrite take_ge, drop_ge by lia. apply app_nil_r.
  - assert (a = []) as -> by (destruct a; [reflexivity|cbn in Hn; lia]).
    rewrite for_range_nonpos by lia. reflexivity.
Qed.

(** C7, as amended.  Reconfiguring the size or the overlap count
    ([SetFFTSizeAndOverlap]) with a non-negative overlap count returns and
    leaves every frame with its cursor at 0 and an output buffer that is
    zero in all channels.  Changing the window type or the output type
    ([SetWindowType], [SetOutputType]) resets nothing: the frames and the
    output buffer stay as they are. *)
Theorem reconfigure_resets (fftSize overlap : Z) (s : ISpectrumSender F) :
  0 <= overlap ->
  Z.of_nat (length (mSTFTOutput s)) <= MAXNC ->
  (exists s',
     SetFFTSizeAndOverlap MAXNC MAX_FFT_SIZE fftSize overlap s = Ok s' /\
     Forall (fun frame => pos frame = 0) (mSTFTFrames s') /\
     Forall (Forall (fun x => x = lit 0)) (mSTFTOutput s')) /\
  (forall w, mSTFTFrames (SetWindowType w s) = mSTFTFrames s /\
             mSTFTOutput (SetWindowType w s) = mSTFTOutput s) /\
  (forall o, mSTFTFrames (SetOutputType o s) = mSTFTFrames s /\
             mSTFTOutput (SetOutputType o s) = mSTFTOutput s).
Proof.
  intros HK Hshape.
  split; [|split].
  - destruct (SetFFTSizeAndOverlap_returns fftSize overlap s HK) as (s1 & H1 & ->).
    eexists. split; [reflexivity|].
    rewrite SetFFTSize_returns in H1 by (cbn; lia). injection H1 as <-.
    unfold CalculateScalingFactors.
    cbn [mSTFTFrames mSTFTOutput set_mScalingFactor].
    match goal with
    | |- context [CalculateWindow ?x] =>
        destruct (CalculateWindow_frame x) as (-> & -> & _)
    end.
    cbn [mSTFTFrames mSTFTOutput set_mSTFTOutput set_mSTFTFrames].
    split.
    + apply Forall_fmap, Forall_true. intros frame. reflexivity.
    + change (mSTFTOutput (SetBufferSize fftSize (set_mOverlap overlap s)))
        with (mSTFTOutput s).
      rewrite for_range_alter_all by assumption.
      apply Forall_fmap, Forall_true. intros row. unfold fill.
      apply Forall_replicate. reflexivity.
  - intros w. destruct (SetWindowType_frame w s) as (-> & -> & _). split; reflexivity.
  - intros o. split; reflexivity.
Qed.

(** ** The two overloads of [Permute] *)

(** C10.  For a frame index in range, [Permute(ch, frameIdx)] leaves the
    sender in the state that [Permute(ch, frame)] leaves it in when it is
    called on the frame at that index: the same bins in that frame, the same
    other frames and the same output buffer. *)
Theorem Permute_overloads_agree (ch frameIdx : Z) (s : ISpectrumSender F) :
  0 <= frameIdx < Z.of_nat (length (mSTFTFrames s)) ->
  Permute_idx MAXNC MAX_FFT_SIZE ch frameIdx s =
  (let '(frame, s') :=
     Permute ch (rd (new_frame MAXNC MAX_FFT_SIZE) (mSTFTFrames s) frameIdx) s in
   set_mSTFTFrames (wr (mSTFTFrames s') frameIdx frame) s').
Proof.
  intros Hidx.
  pose proof (lookup_rd (new_frame MAXNC MAX_FFT_SIZE) _ _ Hidx) as Hfr.
  set (fr := rd (new_frame MAXNC MAX_FFT_SIZE) (mSTFTFrames s) frameIdx) in *.
  set (g := fun fr : STFTFrame F =>
              set_bins (alter (fft_in_place (GetBufferSize s)) (Z.to_nat ch) (bins fr)) fr).
  set (FR := alter g (Z.to_nat frameIdx) (mSTFTFrames s)).
  assert (Hrd : rd (new_frame MAXNC MAX_FFT_SIZE) FR frameIdx = g fr)
    by (apply rd_alter_eq; assumption).
  assert (Hwr : wr (mSTFTFrames s) frameIdx (g fr) = FR)
    by (apply wr_alter; assumption).
  pose (R := fun a b : ISpectrumSender F =>
               a = set_mSTFTFrames FR b /\ mSTFTFrames b = mSTFTFrames s).
  unfold Permute_idx, Permute. fold g. fold FR.
  change (mOutputType (set_mSTFTFrames FR s)) with (mOutputType s).
  change (GetBufferSize (set_mSTFTFrames FR s)) with (GetBufferSize s).
  destruct (mOutputType s).
  - match goal with
    | |- for_range ?n ?f ?a = set_mSTFTFrames _ (for_range _ ?h ?b) =>
        assert (Hrel : R (for_range n f a) (for_range n h b))
    end.
    { apply for_range_rel; [split; reflexivity|].
      intros i a b _ [-> Hb]. split; [|exact Hb].
      cbn [set_mSTFTFrames set_mSTFTOutput mSTFTFrames mSTFTOutput mBufferSize
           mOverlap mWindowType mOutputType mWindow mScalingFactor].
      rewrite Hrd. reflexivity. }
    destruct Hrel as [-> Hb]. rewrite Hb, <- Hwr. reflexivity.
  - match goal with
    | |- for_range ?n ?f ?a = set_mSTFTFrames _ (for_range _ ?h ?b) =>
        assert (Hrel : R (for_range n f a) (for_range n h b))
    end.
    { apply for_range_rel; [split; reflexivity|].
      intros i a b _ [-> Hb]. split; [|exact Hb].
      cbn [set_mSTFTFrames set_mSTFTOutput mSTFTFrames mSTFTOutput mBufferSize
           mOverlap mWindowType mOutputType mWindow mScalingFactor].
      rewrite Hrd. reflexivity. }
    destruct Hrel as [-> Hb]. rewrite Hb, <- Hwr. reflexivity.
Qed.

(** ** Output formatting *)

Lemma set_mSTFTOutput_id (s : ISpectrumSender F) :
  set_mSTFTOutput (mSTFTOutput s) s = s.
Proof. destruct s. reflexivity. Qed.

(** The bins of the frame after [Permute] are the transformed bins. *)
Lemma Permute_bins (ch : Z) (frame : STFTFrame F) (s : ISpectrumSender F) :
  fst (Permute ch frame s) =
  set_bins (alter (fft_in_place (GetBufferSize s)) (Z.to_nat ch) (bins frame)) frame.
Proof. unfold Permute. destruct (mOutputType s); reflexivity. Qed.

(** In magnitude mode [Permute] rewrites the first [fftSize] entries of the
    output row of the channel and nothing else of the sender. *)
Lemma Permute_MagPhase (ch : Z) (frame : STFTFrame F) (s : ISpectrumSender F) :
  mOutputType s = MagPhase ->
  let fftSize := GetBufferSize s in
  let b := alter (fft_in_place fftSize) (Z.to_nat ch) (bins frame) in
  snd (Permute ch frame s) =
  set_mSTFTOutput
    (alter
       (for_range fftSize
          (fun i row =>
             let c := rd2 czero b ch (WDL_fft_permute fftSize i) in
             wr row i
                (fsqrt (lit 2 ⊗ (re c ⊗ re c ⊕ im c ⊗ im c) ⊘ mScalingFactor s))))
       (Z.to_nat ch) (mSTFTOutput s))
    s.
Proof.
  intros Hmode. cbv zeta. unfold Permute. rewrite Hmode. cbn [snd].
  rewrite <- for_range_alter.
  apply (for_range_rel (fun a o => a = set_mSTFTOutput o s)).
  - symmetry. apply set_mSTFTOutput_id.
  - intros i a o _ ->. reflexivity.
Qed.

(** In complex mode [Permute] writes the pairs of entries [i], [i + nBins]
    of the output row of the channel and nothing else of the sender. *)
Lemma Permute_Complex (ch : Z) (frame : STFTFrame F) (s : ISpectrumSender F) :
  mOutputType s = Complex ->
  let fftSize := GetBufferSize s in
  let nBins := fftSize ÷ 2 in
  let b := alter (fft_in_place fftSize) (Z.to_nat ch) (bins frame) in
  snd (Permute ch frame s) =
  set_mSTFTOutput
    (alter
       (for_range nBins
          (fun i row =>
             let c := rd2 czero b ch (WDL_fft_permute fftSize i) in
             wr (wr row i (re c)) (wrap32 (i + nBins)) (im c)))
       (Z.to_nat ch) (mSTFTOutput s))
    s.
Proof.
  intros Hmode. cbv zeta. unfold Permute. rewrite Hmode. cbn [snd].
  rewrite <- for_range_alter.
  apply (for_range_rel (fun a o => a = set_mSTFTOutput o s)).
  - symmetry. apply set_mSTFTOutput_id.
  - intros i a o _ ->. unfold wr2.
    cbn [set_mSTFTOutput mSTFTOutput mBufferSize mOverlap mWindowType mOutputType
         mWindow mSTFTFrames mScalingFactor].
    rewrite list_alter_alter_eq. reflexivity.
Qed.

(** The loop [for i < n: row[i] = x i; row[i + n] = y i]. *)
Lemma for_range_wr_pairs (x y : Z -> F) (n : Z) (row : list F) :
  0 <= n -> n + n <= Z.of_nat (length row) -> n + n <= INT_MAX ->
  let row' := for_range n (fun i r => wr (wr r i (x i)) (wrap32 (i + n)) (y i)) row in
  length row' = length row /\
  forall i, 0 <= i < n ->
    row' !! Z.to_nat i = Some (x i) /\ row' !! Z.to_nat (i + n) = Some (y i).
Proof.
  intros Hn Hlen Hmax. cbv zeta.
  apply (for_range_ind
           (fun m r => length r = length row /\
                       forall i, 0 <= i < m ->
                         r !! Z.to_nat i = Some (x i) /\
                         r !! Z.to_nat (i + n) = Some (y i)));
    [lia| |].
  - split; [reflexivity|]. intros i Hi. lia.
  - intros m r Hm (Hl & Hinv).
    rewrite wrap32_id by (unfold INT_MIN, INT_MAX in *; lia).
    unfold wr. split; [rewrite !length_insert; assumption|].
    intros i Hi. destruct (Z.eq_dec i m) as [->|Hne].
    + split.
      * rewrite list_lookup_insert_ne by lia.
        apply list_lookup_insert_eq. lia.
      * apply list_lookup_insert_eq. rewrite length_insert. lia.
    + rewrite !list_lookup_insert_ne by lia. apply Hinv. lia.
Qed.

(** C6.  In complex mode, for a transform size that fits the output row of
    the channel, [Permute] leaves at the output index [i < N/2] the real
    part, and at the index [i + N/2] the imaginary part, of the transformed
    bin at the permuted position of [i]. *)
Theorem Permute_complex_output (ch i : Z) (frame : STFTFrame F) (s : ISpectrumSender F) :
  mOutputType s = Complex ->
  0 <= ch < Z.of_nat (length (mSTFTOutput s)) ->
  0 < GetBufferSize s <= Z.of_nat (length (rd [] (mSTFTOutput s) ch)) ->
  GetBufferSize s <= INT_MAX ->
  0 <= i < GetBufferSize s ÷ 2 ->
  let fftSize := GetBufferSize s in
  let frame' := fst (Permute ch frame s) in
  let s' := snd (Permute ch frame s) in
  let b := rd2 czero (bins frame') ch (WDL_fft_permute fftSize i) in
  bins frame' = alter (fft_in_place fftSize) (Z.to_nat ch) (bins frame) /\
  at2 (mSTFTOutput s') ch i = Some (re b) /\
  at2 (mSTFTOutput s') ch (i + fftSize ÷ 2) = Some (im b).
Proof.
  intros Hmode Hch Hsize Hmax Hi. cbv zeta.
  rewrite Permute_bins, (Permute_Complex ch frame s Hmode).
  cbn [bins set_bins mSTFTOutput set_mSTFTOutput]. split; [reflexivity|].
  pose proof (Z.quot_pos (GetBufferSize s) 2 ltac:(lia) ltac:(lia)) as Hq.
  assert (Hq2 : GetBufferSize s ÷ 2 + GetBufferSize s ÷ 2 <= GetBufferSize s).
  { rewrite Z.quot_div_nonneg by lia.
    pose proof (Z.mul_div_le (GetBufferSize s) 2 ltac:(lia)). lia. }
  rewrite !at2_alter by lia.
  match goal with
  | |- context [for_range ?n (fun i r => wr (wr r i (@?x i)) _ (@?y i)) ?row] =>
      destruct (for_range_wr_pairs x y n row) as [_ Hrow]; [lia|lia|lia|]
  end.
  destruct (Hrow i Hi) as [Hre Him]. split; assumption.
Qed.

(** ** Cursors of the overlap frames *)

(** What [Permute] keeps: the cursor of the frame and, of the sender,
    everything but the output buffer. *)
Lemma Permute_keeps (ch : Z) (frame : STFTFrame F) (s : ISpectrumSender F) :
  pos (fst (Permute ch frame s)) = pos frame /\
  mSTFTFrames (snd (Permute ch frame s)) = mSTFTFrames s /\
  mBufferSize (snd (Permute ch frame s)) = mBufferSize s /\
  mOverlap (snd (Permute ch frame s)) = mOverlap s /\
  mWindow (snd (Permute ch frame s)) = mWindow s.
Proof.
  rewrite Permute_bins. split; [reflexivity|].
  destruct (mOutputType s) eqn:Hmode.
  - rewrite (Permute_Complex ch frame s Hmode). repeat split.
  - rewrite (Permute_MagPhase ch frame s Hmode). repeat split.
Qed.

(** One step of one frame moves the cursor of that frame to the next
    position and leaves the other frames, the size and the overlap count
    alone. *)
Lemma frame_step_cursor (fftSize sampleIdx stftFrameIdx : Z)
    (s : ISpectrumSender F) (pkt : ISenderData F) (fr : STFTFrame F) :
  mSTFTFrames s !! Z.to_nat stftFrameIdx = Some fr ->
  let st' := frame_step MAXNC fftSize sampleIdx stftFrameIdx (s, pkt) in
  (exists fr', mSTFTFrames (fst st') = <[Z.to_nat stftFrameIdx := fr']> (mSTFTFrames s) /\
               pos fr' = next_pos fftSize (pos fr)) /\
  mBufferSize (fst st') = mBufferSize s /\
  mOverlap (fst st') = mOverlap s.
Proof.
  intros Hfr. cbv zeta. unfold frame_step. rewrite Hfr.
  match goal with
  | |- context [for_range MAXNC ?body fr] =>
      assert (Hpos : pos (for_range MAXNC body fr) = pos fr);
      [|set (fr1 := for_range MAXNC body fr) in *]
  end.
  { apply (for_range_rel (fun a (b : unit) => pos a = pos fr) MAXNC _ (fun _ b => b) fr tt);
      [reflexivity|].
    intros i a b _ Ha. exact Ha. }
  cbn [pos set_pos]. rewrite Hpos. unfold next_pos.
  destruct (wrap32 (pos fr + 1) >=? fftSize).
  - match goal with
    | |- context [for_range MAXNC ?body ?init] =>
        assert (Hinv : let r := for_range MAXNC body init in
                       pos (fst (fst r)) = 0 /\
                       mSTFTFrames (snd (fst r)) = mSTFTFrames s /\
                       mBufferSize (snd (fst r)) = mBufferSize s /\
                       mOverlap (snd (fst r)) = mOverlap s);
        [|destruct (for_range MAXNC body init) as [[fr2 s2] pkt2]]
    end.
    { cbv zeta.
      apply (for_range_rel
               (fun (r : STFTFrame F * ISpectrumSender F * ISenderData F) (b : unit) =>
                  pos (fst (fst r)) = 0 /\
                  mSTFTFrames (snd (fst r)) = mSTFTFrames s /\
                  mBufferSize (snd (fst r)) = mBufferSize s /\
                  mOverlap (snd (fst r)) = mOverlap s)
               MAXNC _ (fun _ b => b) _ tt); [repeat split|].
      intros ch [[fr2 s2] pkt2] b _ (Hp & Hf & Hb & Ho). cbn [fst snd] in *.
      destruct (Permute_keeps ch fr2 s2) as (Kp & Kf & Kb & Ko & _).
      destruct (Permute ch fr2 s2) as [fr3 s3]. cbn [fst snd] in *.
      repeat split; congruence. }
    cbn [fst snd] in *. destruct Hinv as (Hp & Hf & Hb & Ho).
    cbn [mSTFTFrames set_mSTFTFrames mBufferSize mOverlap].
    split; [exists fr2; rewrite Hf; split; [reflexivity|assumption]|].
    split; assumption.
  - cbn [fst mSTFTFrames set_mSTFTFrames mBufferSize mOverlap].
    split; [|split; reflexivity].
    eexists. split; [reflexivity|]. reflexivity.
Qed.

(** One sample: the loop over the overlap frames moves every cursor from
    [p] to the next position. *)
Lemma sample_step_cursors (fftSize sampleIdx p : Z)
    (s : ISpectrumSender F) (pkt : ISenderData F) :
  Z.of_nat (length (mSTFTFrames s)) = mOverlap s ->
  cursors_at p s ->
  let st' :=
    for_range (mOverlap s)
      (fun stftFrameIdx st => frame_step MAXNC fftSize sampleIdx stftFrameIdx st)
      (s, pkt) in
  cursors_at (next_pos fftSize p) (fst st') /\
  length (mSTFTFrames (fst st')) = length (mSTFTFrames s) /\
  mBufferSize (fst st') = mBufferSize s /\
  mOverlap (fst st') = mOverlap s.
Proof.
  intros Hlen Hall. cbv zeta.
  set (K := mOverlap s) in *.
  assert (HK : 0 <= K) by lia.
  enough (Hinv :
    let st' := for_range K
      (fun stftFrameIdx st => frame_step MAXNC fftSize sampleIdx stftFrameIdx st)
      (s, pkt) in
    length (mSTFTFrames (fst st')) = length (mSTFTFrames s) /\
    mBufferSize (fst st') = mBufferSize s /\
    mOverlap (fst st') = mOverlap s /\
    forall (j : nat) frame, mSTFTFrames (fst st') !! j = Some frame ->
      pos frame = if decide (Z.of_nat j < K) then next_pos fftSize p else p).
  { cbv zeta in Hinv. destruct Hinv as (Hl & Hb & Ho & Hj).
    split; [|split; [assumption|split; assumption]].
    apply Forall_lookup. intros j frame Hjl.
    rewrite (Hj j frame Hjl).
    pose proof (lookup_lt_Some _ _ _ Hjl).
    destruct (decide (Z.of_nat j < K)); [reflexivity|lia]. }
  cbv zeta.
  pose (P := fun m (st' : ISpectrumSender F * ISenderData F) =>
       length (mSTFTFrames (fst st')) = length (mSTFTFrames s) /\
       mBufferSize (fst st') = mBufferSize s /\
       mOverlap (fst st') = mOverlap s /\
       forall (j : nat) frame, mSTFTFrames (fst st') !! j = Some frame ->
         pos frame = if decide (Z.of_nat j < m) then next_pos fftSize p else p).
  apply (for_range_ind P); [assumption| |]; unfold P; clear P.
  - cbn [fst]. repeat split. intros j frame Hjl.
    destruct (decide (Z.of_nat j < 0)); [lia|].
    exact (proj1 (Forall_lookup _ _) Hall j frame Hjl).
  - intros m [s1 pkt1] Hm (Hl & Hb & Ho & Hj). cbn [fst] in *.
    destruct (lookup_lt_is_Some_2 (mSTFTFrames s1) (Z.to_nat m) ltac:(lia)) as [fr Hfr].
    destruct (frame_step_cursor fftSize sampleIdx m s1 pkt1 fr Hfr)
      as ((fr' & Hfs & Hp) & Hb' & Ho').
    cbv zeta in Hfs, Hb', Ho'. rewrite Hfs, Hb', Ho'.
    split; [rewrite length_insert; assumption|].
    split; [assumption|]. split; [assumption|].
    intros j frame Hjl.
    destruct (decide (j = Z.to_nat m)) as [->|Hne].
    + rewrite list_lookup_insert_eq in Hjl by lia. injection Hjl as <-.
      rewrite Hp, (Hj _ _ Hfr).
      destruct (decide (Z.of_nat (Z.to_nat m) < m)); [lia|].
      destruct (decide (Z.of_nat (Z.to_nat m) < m + 1)); [reflexivity|lia].
    + rewrite list_lookup_insert_ne in Hjl by lia.
      rewrite (Hj _ _ Hjl).
      destruct (decide (Z.of_nat j < m)), (decide (Z.of_nat j < m + 1));
        try reflexivity; lia.
Qed.

Lemma next_pos_mod (fftSize p : Z) :
  0 <= p < fftSize -> fftSize <= INT_MAX ->
  next_pos fftSize p = (p + 1) mod fftSize.
Proof.
  intros Hp Hmax. unfold next_pos.
  rewrite wrap32_id by (unfold INT_MIN, INT_MAX in *; lia).
  destruct (Z.geb_spec (p + 1) fftSize) as [Hge|Hlt].
  - replace (p + 1) with fftSize by lia. symmetry. apply Z.mod_same. lia.
  - symmetry. apply Z.mod_small. lia.
Qed.

(** The overlap frames advance in lockstep: after each sample of a block
    all cursors are equal and lie in [0, N); after the [m]-th sample they
    are at [(p + m) mod N], and after the whole block back at [p]. *)
Lemma PrepareDataForUI_cursors (p m : Z) (s : ISpectrumSender F) (pkt : ISenderData F) :
  let N := GetBufferSize s in
  0 <= p < N -> N <= INT_MAX ->
  Z.of_nat (length (mSTFTFrames s)) = mOverlap s ->
  cursors_at p s ->
  0 <= m <= N ->
  let st' :=
    for_range m
      (fun sampleIdx st =>
         for_range (mOverlap (fst st))
           (fun stftFrameIdx st => frame_step MAXNC N sampleIdx stftFrameIdx st) st)
      (s, pkt) in
  cursors_at ((p + m) mod N) (fst st') /\
  0 <= (p + m) mod N < N /\
  length (mSTFTFrames (fst st')) = length (mSTFTFrames s) /\
  mBufferSize (fst st') = mBufferSize s /\
  mOverlap (fst st') = mOverlap s.
Proof.
  intros N Hp Hmax Hlen Hall Hm. cbv zeta.
  split; [|split; [apply Z.mod_pos_bound; lia|]].
  - apply (for_range_ind
      (fun k (st' : ISpectrumSender F * ISenderData F) =>
         cursors_at ((p + k) mod N) (fst st') /\
         Z.of_nat (length (mSTFTFrames (fst st'))) = mOverlap (fst st')));
      [lia| |].
    + cbn [fst]. rewrite Z.add_0_r, Z.mod_small by lia. split; assumption.
    + intros k [s1 pkt1] Hk (Hc & Hl). cbn [fst] in *.
      destruct (sample_step_cursors N k ((p + k) mod N) s1 pkt1 Hl Hc)
        as (Hc' & Hl' & _ & Ho').
      cbv zeta in Hc', Hl', Ho'. split; [|lia].
      rewrite next_pos_mod in Hc'
        by (try apply Z.mod_pos_bound; lia).
      rewrite Z.add_mod_idemp_l in Hc' by lia.
      rewrite Z.add_assoc. exact Hc'.
  - apply (for_range_ind
      (fun k (st' : ISpectrumSender F * ISenderData F) =>
         cursors_at ((p + k) mod N) (fst st') /\
         length (mSTFTFrames (fst st')) = length (mSTFTFrames s) /\
         mBufferSize (fst st') = mBufferSize s /\
         mOverlap (fst st') = mOverlap s));
      [lia| |].
    + cbn [fst]. rewrite Z.add_0_r, Z.mod_small by lia. repeat split; assumption.
    + intros k [s1 pkt1] Hk (Hc & Hl & Hb & Ho). cbn [fst] in *.
      destruct (sample_step_cursors N k ((p + k) mod N) s1 pkt1 ltac:(lia) Hc)
        as (Hc' & Hl' & Hb' & Ho').
      cbv zeta in Hc', Hl', Hb', Ho'.
      rewrite next_pos_mod in Hc'
        by (try apply Z.mod_pos_bound; lia).
      rewrite Z.add_mod_idemp_l in Hc' by lia.
      rewrite Z.add_assoc.
      split; [exact Hc'|]. split; [lia|]. split; congruence.
Qed.

(** A whole block: every cursor is back where it was, so between blocks all
    frames of a configured sender are at the cursor 0. *)
Lemma PrepareDataForUI_lockstep (p : Z) (s : ISpectrumSender F) (pkt : ISenderData F) :
  0 <= p < GetBufferSize s -> GetBufferSize s <= INT_MAX ->
  Z.of_nat (length (mSTFTFrames s)) = mOverlap s ->
  cursors_at p s ->
  cursors_at p (fst (PrepareDataForUI MAXNC (s, pkt))) /\
  length (mSTFTFrames (fst (PrepareDataForUI MAXNC (s, pkt)))) = length (mSTFTFrames s).
Proof.
  intros Hp Hmax Hlen Hall.
  destruct (PrepareDataForUI_cursors p (GetBufferSize s) s pkt Hp Hmax Hlen Hall
              ltac:(lia)) as (Hc & _ & Hl & _).
  cbv zeta in Hc, Hl.
  assert (Hmod : (p + GetBufferSize s) mod GetBufferSize s = p).
  { replace (p + GetBufferSize s) with (p + 1 * GetBufferSize s) by lia.
    rewrite Z.mod_add by lia. apply Z.mod_small. lia. }
  rewrite Hmod in Hc.
  unfold PrepareDataForUI. cbn [fst]. split; assumption.
Qed.

End SenderProperties.

(** The size 3 on a sender of capacity 4: refused by the constructor, taken
    by the reconfiguration of the small sender. *)
Lemma SetFFTSizeAndOverlap_unchecked_witness :
  construct (F:=R) 1 4 [0; 0; 0; 0]%R [[0; 0; 0; 0]%R] 3 2 Hann MagPhase
  = AssertionFailed /\
  exists s',
    SetFFTSizeAndOverlap 1 4 3 2 (small_state Hann MagPhase) = Ok s' /\
    GetBufferSize s' = 3.
Proof.
  apply (SetFFTSizeAndOverlap_unchecked (F:=R) 1 4 [0; 0; 0; 0]%R [[0; 0; 0; 0]%R]
           3 2 Hann MagPhase (small_state Hann MagPhase)).
  - unfold INT_MIN, INT_MAX. lia.
  - intros [Hpow _].
    apply (is_powerof2_spec 3 ltac:(unfold INT_MAX; lia)) in Hpow.
    vm_compute in Hpow. discriminate.
  - lia.
Defined.

(** ** Exact arithmetic: window table and scaling factor *)

Section ExactArithmetic.

Context {TF : Transform R}.

Local Open Scope R_scope.

Lemma lit_0 : lit 0 = 0.
Proof. cbn. lra. Qed.
Lemma lit_1 : lit 1 = 1.
Proof. cbn. lra. Qed.
Lemma lit_2 : lit 2 = 2.
Proof. cbn. lra. Qed.
Lemma lit_4 : lit 4 = 4.
Proof. cbn. lra. Qed.
Lemma lit_6 : lit 6 = 6.
Proof. cbn. lra. Qed.
Lemma lit_8 : lit 8 = 8.
Proof. cbn. lra. Qed.

(** The reals as scalars, with the operations of the library in place of
    the class methods. *)
Ltac to_reals :=
  rewrite ?lit_0, ?lit_1, ?lit_2, ?lit_4, ?lit_6, ?lit_8;
  change (@fadd R R_Scalar) with Rplus in *;
  change (@fsub R R_Scalar) with Rminus in *;
  change (@fmul R R_Scalar) with Rmult in *;
  change (@fdiv R R_Scalar) with Rdiv in *;
  change (@fcos R R_Scalar) with cos in *;
  change (@fsqrt R R_Scalar) with sqrt in *;
  change (@of_int R R_Scalar) with IZR in *;
  change (@PI R R_Scalar) with Rtrigo1.PI in *;
  change (@lit R R_Scalar) with Q2R in *.

(** The coefficient that [CalculateWindow] stores at an index below the
    transform size. *)
Lemma CalculateWindow_lookup (s : ISpectrumSender R) (i : Z) :
  (0 <= i < GetBufferSize s)%Z ->
  (GetBufferSize s <= INT_MAX)%Z ->
  (GetBufferSize s <= Z.of_nat (length (mWindow s)))%Z ->
  mWindow (CalculateWindow s) !! Z.to_nat i
  = Some (spec_window (mWindowType s) (GetBufferSize s) i).
Proof.
  intros Hi Hmax Hlen. unfold CalculateWindow.
  rewrite wrap32_id by (unfold INT_MIN, INT_MAX in *; lia).
  destruct (mWindowType s); cbn [mWindow set_mWindow];
    try (match goal with
         | |- context [for_range ?n (fun i r => wr r i (@?x i)) ?row] =>
             destruct (for_range_wr x n row) as (_ & Hrow & _); [lia|]
         end;
         rewrite (Hrow i Hi); f_equal; unfold spec_window; cbv beta zeta; to_reals).
  - replace (Rtrigo1.PI * 2 * IZR i / IZR (GetBufferSize s - 1))
      with (2 * Rtrigo1.PI * IZR i / IZR (GetBufferSize s - 1))
      by (unfold Rdiv; ring).
    reflexivity.
  - reflexivity.
  - reflexivity.
  - reflexivity.
  - unfold fill, spec_window. to_reals.
    apply lookup_replicate_2. lia.
Qed.

(** ** Scaling factor *)

Lemma foldl_Rplus {A} (v : A -> R) (l : list A) (a : R) :
  foldl (fun acc i => acc + v i) a l = a + Rsum (v <$> l).
Proof.
  revert a. induction l as [|x l IH]; intros a.
  - unfold Rsum. cbn [foldl foldr fmap list_fmap]. lra.
  - change (foldl (fun acc i => acc + v i) (a + v x) l
            = a + (v x + Rsum (v <$> l))).
    rewrite IH. lra.
Qed.

(** ** Range of the window coefficients *)

Lemma cos_3a (x : R) : cos (3 * x) = 4 * cos x * cos x * cos x - 3 * cos x.
Proof.
  replace (3 * x) with (2 * x + x) by ring.
  rewrite cos_plus, cos_2a_cos, sin_2a.
  pose proof (sin2_cos2 x) as Hsc. unfold Rsqr in Hsc.
  replace (2 * sin x * cos x * sin x) with (2 * cos x * (sin x * sin x)) by ring.
  replace (sin x * sin x) with (1 - cos x * cos x) by lra.
  ring.
Qed.

Lemma Hann_range (x : R) : 0 <= 0.5 * (1 - cos x) <= 1.
Proof. pose proof (COS_bound x). lra. Qed.

Lemma Hamming_range (x : R) : 0.08 <= 0.54 - 0.46 * cos x <= 1.
Proof. pose proof (COS_bound x). lra. Qed.

(** The Blackman-Harris sum as a cubic in [c = cos x]: it decreases from 1
    at [c = -1] to 0.00006 at [c = 1]. *)
Lemma BlackmanHarris_range (x : R) :
  0.00006 <= 0.35875 - 0.48829 * cos x + 0.14128 * cos (2 * x) - 0.01168 * cos (3 * x) <= 1.
Proof.
  rewrite cos_2a_cos, cos_3a.
  pose proof (COS_bound x) as Hc. set (c := cos x) in *.
  assert (0 <= (1 - c) * (0.04672 * c * c - 0.23584 * c + 0.21741))
    by (apply Rmult_le_pos; nra).
  assert (0 <= (1 + c) * (0.04672 * c * c - 0.32928 * c + 0.78253))
    by (apply Rmult_le_pos; nra).
  split; nra.
Qed.

(** The Flattop sum as a quartic in [c = cos x].  Above, each term is at
    most its coefficient.  Below, the quartic is
    [(c - 0.2075)^2 Q(c) - 0.0000285247 c - 0.0705550769] with [Q] positive
    on [-1, 1]; its least value is close to -0.07056. *)
Lemma Flattop_range (x : R) :
  -0.0706 <=
  0.21557895 - 0.41663158 * cos x + 0.277263158 * cos (2 * x)
  - 0.083578947 * cos (3 * x) + 0.006947368 * cos (2 * (2 * x)) <= 1.000000003.
Proof.
  split.
  - rewrite (cos_2a_cos (2 * x)), cos_2a_cos, cos_3a.
    pose proof (COS_bound x) as Hc. set (c := cos x) in *.
    assert (HQ : 0 <= 0.055578944 * c * c - 0.31125052624 * c + 0.3673853827028)
      by nra.
    pose proof (Rle_0_sqr (c - 0.2075)) as Hs. unfold Rsqr in Hs.
    pose proof (Rmult_le_pos _ _ Hs HQ) as Hp.
    nra.
  - pose proof (COS_bound x). pose proof (COS_bound (2 * x)).
    pose proof (COS_bound (3 * x)). pose proof (COS_bound (2 * (2 * x))). lra.
Qed.

(** The Flattop coefficient at the index 0 is negative, for every size. *)
Lemma Flattop_at_0 (N : Z) : spec_window Flattop N 0 = -0.000421051.
Proof.
  unfold spec_window. cbv zeta.
  assert (Hc : forall k, cos (k * Rtrigo1.PI * 0 / IZR (N - 1)) = 1).
  { intros k. replace (k * Rtrigo1.PI * 0 / IZR (N - 1)) with 0
      by (unfold Rdiv; ring).
    apply cos_0. }
  rewrite !Hc. lra.
Qed.

Lemma spec_window_range (w : EWindowType) (N i : Z) :
  window_range w (spec_window w N i).
Proof.
  unfold spec_window, window_range. cbv zeta. destruct w.
  - apply Hann_range.
  - replace (4 * Rtrigo1.PI * IZR i / IZR (N - 1))
      with (2 * (2 * Rtrigo1.PI * IZR i / IZR (N - 1))) by (unfold Rdiv; ring).
    replace (6 * Rtrigo1.PI * IZR i / IZR (N - 1))
      with (3 * (2 * Rtrigo1.PI * IZR i / IZR (N - 1))) by (unfold Rdiv; ring).
    pose proof (BlackmanHarris_range (2 * Rtrigo1.PI * IZR i / IZR (N - 1))). lra.
  - pose proof (Hamming_range (2 * Rtrigo1.PI * IZR i / IZR (N - 1))). lra.
  - replace (4 * Rtrigo1.PI * IZR i / IZR (N - 1))
      with (2 * (2 * Rtrigo1.PI * IZR i / IZR (N - 1))) by (unfold Rdiv; ring).
    replace (6 * Rtrigo1.PI * IZR i / IZR (N - 1))
      with (3 * (2 * Rtrigo1.PI * IZR i / IZR (N - 1))) by (unfold Rdiv; ring).
    replace (8 * Rtrigo1.PI * IZR i / IZR (N - 1))
      with (2 * (2 * (2 * Rtrigo1.PI * IZR i / IZR (N - 1)))) by (unfold Rdiv; ring).
    apply Flattop_range.
  - reflexivity.
Qed.

(** ** Sign of the scaling factor *)

Lemma Rsum_nonneg (l : list R) : Forall (fun x => 0 <= x) l -> 0 <= Rsum l.
Proof.
  induction 1 as [|x l Hx _ IH]; unfold Rsum in *; cbn [foldr]; lra.
Qed.

(** From the size 3 on the scaling factor is positive: the division of the
    magnitude output is a division by a positive number. *)
Lemma scaling_factor_positive (s : ISpectrumSender R) :
  (3 <= GetBufferSize s <= INT_MAX)%Z ->
  0 < mScalingFactor (CalculateScalingFactors s).
Proof.
  intros HN.
  assert (Hsum : 0 < Rsum (spec_window Hann (GetBufferSize s) <$> seqZ 0 (GetBufferSize s))).
  { rewrite (seqZ_cons 0) by lia. rewrite (seqZ_cons (Z.succ 0)) by lia.
    rewrite !fmap_cons. unfold Rsum. cbn [foldr].
    pose proof (Rsum_nonneg
                  (spec_window Hann (GetBufferSize s)
                     <$> seqZ (Z.succ (Z.succ 0)) (Z.pred (Z.pred (GetBufferSize s)))))
      as Hrest.
    unfold Rsum in Hrest.
    assert (H1 : 0 < spec_window Hann (GetBufferSize s) (Z.succ 0)).
    { unfold spec_window. cbv zeta. change (Z.succ 0) with 1%Z.
      assert (HM : 2 <= IZR (GetBufferSize s - 1)) by (apply IZR_le; lia).
      pose proof PI_RGT_0 as Hpi.
      assert (Hx : 0 < 2 * Rtrigo1.PI * 1 / IZR (GetBufferSize s - 1) <= Rtrigo1.PI).
      { assert (Hinv : 0 < / IZR (GetBufferSize s - 1) <= / 2)
          by (split; [apply Rinv_0_lt_compat; lra|apply Rinv_le_contravar; lra]).
        unfold Rdiv. nra. }
      pose proof (cos_decreasing_1 0 (2 * Rtrigo1.PI * 1 / IZR (GetBufferSize s - 1))
                    ltac:(lra) ltac:(lra) ltac:(lra) ltac:(lra) ltac:(lra)) as Hcos.
      rewrite cos_0 in Hcos. lra. }
    assert (H0 : 0 <= spec_window Hann (GetBufferSize s) 0).
    { destruct (Hann_range (2 * Rtrigo1.PI * 0 / IZR (GetBufferSize s - 1))) as [Hl _].
      exact Hl. }
    assert (0 <= foldr Rplus 0
                   (spec_window Hann (GetBufferSize s)
                      <$> seqZ (Z.succ (Z.succ 0)) (Z.pred (Z.pred (GetBufferSize s))))).
    { apply Hrest. apply Forall_fmap, Forall_true. intros i.
      destruct (Hann_range (2 * Rtrigo1.PI * IZR i / IZR (GetBufferSize s - 1)))
        as [Hl _].
      exact Hl. }
    lra. }
  assert (Hs : mScalingFactor (CalculateScalingFactors s)
               = spec_scaling (GetBufferSize s)).
  { unfold CalculateScalingFactors, spec_scaling, for_range.
    cbn [mScalingFactor set_mScalingFactor]. to_reals.
    rewrite foldl_Rplus.
    rewrite wrap32_id by (unfold INT_MIN, INT_MAX in *; lia).
    change (Rsum ((fun i => 0.5 * (1 - cos (2 * Rtrigo1.PI * IZR i
                                            / IZR (GetBufferSize s - 1))))
                    <$> seqZ 0 (GetBufferSize s)))
      with (Rsum (spec_window Hann (GetBufferSize s) <$> seqZ 0 (GetBufferSize s))).
    lra. }
  rewrite Hs. unfold spec_scaling. apply Rmult_lt_0_compat; assumption.
Qed.

(** At the size 2 both Hann coefficients are 0 and so is the scaling
    factor. *)
Lemma scaling_factor_size_2 (s : ISpectrumSender R) :
  GetBufferSize s = 2%Z -> mScalingFactor (CalculateScalingFactors s) = 0.
Proof.
  intros HN. unfold CalculateScalingFactors, for_range. rewrite HN.
  cbn [mScalingFactor set_mScalingFactor seqZ]. to_reals.
  change (wrap32 (2 - 1)) with 1%Z.
  change (seqZ 0 2) with [0%Z; 1%Z]. cbn [foldl].
  replace (2 * Rtrigo1.PI * 0 / 1) with 0 by lra.
  replace (2 * Rtrigo1.PI * 1 / 1) with (2 * Rtrigo1.PI) by lra.
  rewrite cos_0, cos_2PI. lra.
Qed.

End ExactArithmetic.

(** ** The small sender, run *)

Local Open Scope R_scope.

(** Evaluation of the embedding, with the real numbers left alone. *)
Ltac run_sender :=
  cbv -[Rplus Rminus Rmult Rdiv Rle Rlt Q2R IZR cos sqrt Rtrigo1.PI].

(** C1 (the code at the failing input).  Two overlap frames, Rectangular
    window, transform size 2, one block holding the samples 1, 1.  Both
    cursors are back at 0 after the block, but the frames do not hold the
    same bins: the first frame transformed the samples 1, 1; when it
    completed, the output was copied over the packet, so that the second
    frame read the output value 0 in place of the second sample and
    transformed 1, 0. *)
Theorem overlap_frames_diverge :
  exists s pkt f0 f1,
    small_run 2 Rectangular Complex [1; 1; 0; 0] = Some (s, pkt) /\
    mSTFTFrames s = [f0; f1] /\
    pos f0 = 0%Z /\ pos f1 = 0%Z /\
    re (rd2 czero (bins f0) 0 0) = 2 /\ re (rd2 czero (bins f0) 0 1) = 0 /\
    re (rd2 czero (bins f1) 0 0) = 1 /\ re (rd2 czero (bins f1) 0 1) = 1 /\
    bins f0 <> bins f1.
Proof.
  eexists _, _, _, _.
  split; [unfold small_run, small_sender; run_sender; reflexivity|].
  split; [reflexivity|].
  split; [reflexivity|]. split; [reflexivity|].
  split; [run_sender; lra|]. split; [run_sender; lra|].
  split; [run_sender; lra|]. split; [run_sender; lra|].
  intros Heq. apply (f_equal (fun b => re (rd2 czero b 0 0))) in Heq.
  revert Heq. run_sender. lra.
Qed.

(** C4 (counterexample).  The Flattop table of the small sender starts with
    a negative coefficient, outside [0, 1]. *)
Lemma Flattop_coefficient_negative :
  exists s c,
    small_sender 2 Flattop MagPhase = Ok s /\
    mWindow s !! 0%nat = Some c /\
    c = -0.000421051 /\
    ~ (0 <= c <= 1).
Proof.
  eexists _, _. split; [reflexivity|].
  split.
  - unfold SetFFTSizeAndOverlap, CalculateScalingFactors. cbn [mWindow set_mScalingFactor].
    match goal with
    | |- mWindow (CalculateWindow ?x) !! _ = _ =>
        apply (CalculateWindow_lookup x 0);
        [split; [reflexivity|reflexivity]
        |unfold INT_MAX; cbn; lia
        |cbn; lia]
    end.
  - cbn [mWindowType set_mSTFTOutput set_mSTFTFrames SetFFTSize SetBufferSize
         set_mBufferSize set_mOverlap GetBufferSize mBufferSize].
    rewrite Flattop_at_0. split; [reflexivity|lra].
Qed.

(** C7 (counterexample).  After one block the output buffer of the small
    sender holds the spectrum; changing the output type or the window type
    leaves it there, not zeroed. *)
Lemma type_change_keeps_output :
  exists s pkt,
    small_run 1 Rectangular Complex [1; 1; 0; 0] = Some (s, pkt) /\
    at2 (mSTFTOutput s) 0 0 = Some (1 * 1 + 1 * 1) /\
    mSTFTOutput (SetOutputType MagPhase s) = mSTFTOutput s /\
    mSTFTOutput (SetWindowType Hann s) = mSTFTOutput s /\
    ~ Forall (Forall (fun x => x = lit 0)) (mSTFTOutput (SetOutputType MagPhase s)) /\
    ~ Forall (Forall (fun x => x = lit 0)) (mSTFTOutput (SetWindowType Hann s)).
Proof.
  eexists _, _.
  split; [unfold small_run, small_sender; run_sender; reflexivity|].
  split; [run_sender; f_equal; lra|].
  split; [reflexivity|]. split; [reflexivity|].
  split.
  - intros Hz. apply Forall_cons_1 in Hz as [Hz _]. apply Forall_cons_1 in Hz as [Hz _].
    revert Hz. run_sender. lra.
  - intros Hz. apply Forall_cons_1 in Hz as [Hz _]. apply Forall_cons_1 in Hz as [Hz _].
    revert Hz. run_sender. lra.
Qed.

(** ** The theorems at the small sender *)

(** The two overloads on the second frame of the small sender. *)
Lemma Permute_overloads_agree_witness :
  Permute_idx (TF := Small_Transform) 1 4 0 1 (small_state Hann MagPhase) =
  (let '(frame, s') :=
     Permute (TF := Small_Transform) 0
             (rd (new_frame 1 4) (mSTFTFrames (small_state Hann MagPhase)) 1)
             (small_state Hann MagPhase) in
   set_mSTFTFrames (wr (mSTFTFrames s') 1 frame) s').
Proof.
  apply (Permute_overloads_agree (TF := Small_Transform) 1 4 0 1
           (small_state Hann MagPhase)).
  cbv -[Z.lt Z.le]. lia.
Defined.

(** Complex output of the small sender for a frame holding the samples 3, 1. *)
Lemma Permute_complex_output_witness :
  at2 (mSTFTOutput
         (snd (Permute (TF := Small_Transform) 0
                       (mkFrame 0%Z [[mkComplex 3 0; mkComplex 1 0; czero; czero]])
                       (small_state Hann Complex)))) 0 0
  = Some (re (rd2 czero
                (bins (fst (Permute (TF := Small_Transform) 0
                         (mkFrame 0%Z [[mkComplex 3 0; mkComplex 1 0; czero; czero]])
                         (small_state Hann Complex))))
                0 (WDL_fft_permute (Transform := Small_Transform) 2 0))).
Proof.
  refine (proj1 (proj2 (Permute_complex_output (TF := Small_Transform) 0 0
                          (mkFrame 0%Z [[mkComplex 3 0; mkComplex 1 0; czero; czero]])
                          (small_state Hann Complex) _ _ _ _ _))).
  - reflexivity.
  - cbv -[Z.lt Z.le]. lia.
  - cbv -[Z.lt Z.le]. lia.
  - cbv -[Z.lt Z.le]. lia.
  - cbv -[Z.lt Z.le]. lia.
Defined.

(** The small sender reconfigured to the size 4 with three overlap frames. *)
Lemma reconfigure_resets_witness :
  exists s',
    SetFFTSizeAndOverlap 1 4 4 3 (small_state Hann MagPhase) = Ok s' /\
    Forall (fun frame => pos frame = 0%Z) (mSTFTFrames s') /\
    Forall (Forall (fun x => x = lit 0)) (mSTFTOutput s').
Proof.
  destruct (reconfigure_resets 1 4 4 3 (small_state Hann MagPhase)) as (Hs & _).
  - lia.
  - cbv -[Z.lt Z.le]. lia.
  - exact Hs.
Defined.

(** * Further properties of the sender *)

Local Open Scope Z_scope.

(** X1.  On the [int] values above [INT_MIN], [is_powerof2] holds exactly
    of the powers of two: it rejects 0 and every negative value. *)
Theorem is_powerof2_iff (v : Z) :
  INT_MIN < v <= INT_MAX ->
  is_powerof2 v = true <-> exists k, 0 <= k /\ v = 2 ^ k.
Proof.
  intros Hv. destruct (Z.lt_trichotomy v 0) as [Hneg|[->|Hpos]].
  - split.
    + unfold is_powerof2.
      rewrite wrap32_id by (unfold INT_MIN, INT_MAX in *; lia).
      rewrite andb_true_iff, Z.eqb_eq. intros [_ Hland].
      pose proof (proj2 (Z.land_neg v (v - 1)) ltac:(lia)). lia.
    + intros (k & Hk & ->). pose proof (Z.pow_pos_nonneg 2 k). lia.
  - split; [discriminate|].
    intros (k & Hk & H0). pose proof (Z.pow_pos_nonneg 2 k). lia.
  - apply is_powerof2_spec. lia.
Qed.

(** The test at the size 1024. *)
Lemma is_powerof2_iff_witness :
  is_powerof2 1024 = true <-> exists k, 0 <= k /\ 1024 = 2 ^ k.
Proof.
  apply (is_powerof2_iff 1024). unfold INT_MIN, INT_MAX. lia.
Defined.

(** The loop [for i < n: a[i] = f i] on an array of any length: the entries
    below [n] that exist are rewritten, the others are kept. *)
Lemma for_range_wr_lookup {A} (f : Z -> A) (n : Z) (a : list A) :
  let a' := for_range n (fun i w => wr w i (f i)) a in
  length a' = length a /\
  forall j : nat,
    a' !! j = if decide (Z.of_nat j < n /\ (j < length a)%nat)
              then Some (f (Z.of_nat j)) else a !! j.
Proof.
  cbv zeta. destruct (Z.le_gt_cases 0 n) as [Hn|Hn].
  - pose (P := fun m (w : list A) =>
        length w = length a /\
        forall j : nat,
          w !! j = if decide (Z.of_nat j < m /\ (j < length a)%nat)
                   then Some (f (Z.of_nat j)) else a !! j).
    apply (for_range_ind P); [assumption| |]; unfold P; clear P.
    + split; [reflexivity|]. intros j.
      destruct (decide (Z.of_nat j < 0 /\ (j < length a)%nat)); [lia|reflexivity].
    + intros m w Hm [Hl Hw]. unfold wr.
      split; [rewrite length_insert; assumption|].
      intros j. rewrite list_lookup_insert, Hw, Hl.
      destruct (decide (Z.to_nat m = j /\ (Z.to_nat m < length a)%nat)) as [[<- Hlt]|Hno].
      * destruct (decide (Z.of_nat (Z.to_nat m) < m + 1 /\ (Z.to_nat m < length a)%nat));
          [|lia].
        f_equal. f_equal. lia.
      * destruct (decide (Z.of_nat j < m /\ (j < length a)%nat)),
                 (decide (Z.of_nat j < m + 1 /\ (j < length a)%nat));
          try reflexivity; lia.
  - rewrite for_range_nonpos by lia. split; [reflexivity|].
    intros j. destruct (decide (Z.of_nat j < n /\ (j < length a)%nat)); [lia|reflexivity].
Qed.

Section SenderCoverage.

Context {F : Type} {SF : Scalar F} {TF : Transform F}.
Variable MAXNC : Z.
Variable MAX_FFT_SIZE : Z.

(** The window table after [CalculateWindow], entry by entry. *)
Lemma CalculateWindow_entries (s : ISpectrumSender F) (j : nat) :
  mWindow (CalculateWindow s) !! j =
  match mWindowType s with
  | Rectangular => if decide (j < length (mWindow s))%nat then Some (lit 1) else None
  | w =>
      if decide (Z.of_nat j < GetBufferSize s /\ (j < length (mWindow s))%nat)
      then Some (window_term w (of_int (wrap32 (GetBufferSize s - 1))) (Z.of_nat j))
      else mWindow s !! j
  end.
Proof.
  unfold CalculateWindow.
  destruct (mWindowType s); cbn [mWindow set_mWindow];
    try (match goal with
         | |- context [for_range ?n (fun i r => wr r i (@?x i)) ?row] =>
             destruct (for_range_wr_lookup x n row) as [_ Hrow]
         end;
         cbv zeta in Hrow; rewrite Hrow; reflexivity).
  unfold fill. destruct (decide (j < length (mWindow s))%nat).
  - apply lookup_replicate_2. assumption.
  - apply lookup_replicate_None. lia.
Qed.

Lemma CalculateWindow_length (s : ISpectrumSender F) :
  length (mWindow (CalculateWindow s)) = length (mWindow s).
Proof.
  unfold CalculateWindow.
  destruct (mWindowType s); cbn [mWindow set_mWindow];
    try (match goal with
         | |- context [for_range ?n (fun i r => wr r i (@?x i)) ?row] =>
             destruct (for_range_wr_lookup x n row) as [Hlen _]
         end;
         exact Hlen).
  unfold fill. apply length_replicate.
Qed.

(** X2.  [CalculateWindow] keeps the length of the window table.  The
    Rectangular type overwrites the whole table, all [MAX_FFT_SIZE]
    entries, with 1; every other type rewrites the entries below the
    transform size only and leaves those from the transform size on as they
    were. *)
Theorem CalculateWindow_extent (s : ISpectrumSender F) :
  length (mWindow (CalculateWindow s)) = length (mWindow s) /\
  (mWindowType s = Rectangular ->
   Forall (fun x => x = lit 1) (mWindow (CalculateWindow s))) /\
  (mWindowType s <> Rectangular ->
   forall j : nat, GetBufferSize s <= Z.of_nat j ->
     mWindow (CalculateWindow s) !! j = mWindow s !! j).
Proof.
  split; [apply CalculateWindow_length|]. split.
  - intros Hw. apply Forall_lookup. intros j x Hj.
    rewrite CalculateWindow_entries, Hw in Hj.
    destruct (decide (j < length (mWindow s))%nat); congruence.
  - intros Hw j Hj. rewrite CalculateWindow_entries.
    destruct (mWindowType s); try congruence;
      (destruct (decide (Z.of_nat j < GetBufferSize s /\ (j < length (mWindow s))%nat));
       [lia|reflexivity]).
Qed.

Lemma SetWindowType_entries (w : EWindowType) (s : ISpectrumSender F) (j : nat) :
  mWindow (SetWindowType w s) !! j =
  match w with
  | Rectangular => if decide (j < length (mWindow s))%nat then Some (lit 1) else None
  | w =>
      if decide (Z.of_nat j < GetBufferSize s /\ (j < length (mWindow s))%nat)
      then Some (window_term w (of_int (wrap32 (GetBufferSize s - 1))) (Z.of_nat j))
      else mWindow s !! j
  end.
Proof.
  unfold SetWindowType. rewrite CalculateWindow_entries.
  destruct w; reflexivity.
Qed.

Lemma SetWindowType_length (w : EWindowType) (s : ISpectrumSender F) :
  length (mWindow (SetWindowType w s)) = length (mWindow s).
Proof.
  unfold SetWindowType. rewrite CalculateWindow_length. reflexivity.
Qed.

Lemma SetWindowType_size (w : EWindowType) (s : ISpectrumSender F) :
  GetBufferSize (SetWindowType w s) = GetBufferSize s.
Proof.
  unfold SetWindowType, CalculateWindow.
  destruct w; reflexivity.
Qed.

Lemma SetWindowType_eta (w : EWindowType) (s : ISpectrumSender F) :
  SetWindowType w s = set_mWindow (mWindow (SetWindowType w s)) (set_mWindowType w s).
Proof.
  unfold SetWindowType, CalculateWindow.
  destruct w; reflexivity.
Qed.

(** X3.  Selecting a window type a second time changes nothing, and a
    selection overrides the one before it: below the transform size the
    table after [SetWindowType w1] then [SetWindowType w2] is the table
    after [SetWindowType w2] alone. *)
Theorem SetWindowType_last_wins (w1 w2 : EWindowType) (s : ISpectrumSender F) :
  SetWindowType w2 (SetWindowType w2 s) = SetWindowType w2 s /\
  forall j : nat, Z.of_nat j < GetBufferSize s ->
    mWindow (SetWindowType w2 (SetWindowType w1 s)) !! j
    = mWindow (SetWindowType w2 s) !! j.
Proof.
  split.
  - rewrite (SetWindowType_eta w2 (SetWindowType w2 s)).
    rewrite (SetWindowType_eta w2 s) at 3.
    assert (Htab : mWindow (SetWindowType w2 (SetWindowType w2 s))
                   = mWindow (SetWindowType w2 s)).
    { apply list_eq. intros j.
      rewrite (SetWindowType_entries w2 (SetWindowType w2 s)).
      rewrite SetWindowType_length, SetWindowType_size.
      rewrite (SetWindowType_entries w2 s).
      destruct w2;
        repeat match goal with
               | |- context [decide ?P] => destruct (decide P)
               end; try reflexivity; lia. }
    rewrite Htab. rewrite (SetWindowType_eta w2 s) at 2. reflexivity.
  - intros j Hj.
    rewrite (SetWindowType_entries w2 (SetWindowType w1 s)).
    rewrite SetWindowType_length, SetWindowType_size.
    rewrite (SetWindowType_entries w2 s).
    destruct w2; try reflexivity;
      (destruct (decide (Z.of_nat j < GetBufferSize s /\ (j < length (mWindow s))%nat))
         as [Hin|Hout]; [reflexivity|]);
      (rewrite !lookup_ge_None_2; [reflexivity|lia|rewrite SetWindowType_length; lia]).
Qed.

(** ** What [Permute] leaves alone *)

Lemma for_range_wr_pairs_above (x y : Z -> F) (n : Z) (row : list F) (j : nat) :
  n + n <= INT_MAX -> n + n <= Z.of_nat j ->
  for_range n (fun i r => wr (wr r i (x i)) (wrap32 (i + n)) (y i)) row !! j = row !! j.
Proof.
  intros Hmax Hj. destruct (Z.le_gt_cases 0 n) as [Hn|Hn].
  - apply (for_range_ind (fun _ r => r !! j = row !! j)); [assumption|reflexivity|].
    intros m r Hm Hr.
    rewrite wrap32_id by (unfold INT_MIN, INT_MAX in *; lia).
    unfold wr. rewrite !list_lookup_insert_ne by lia. exact Hr.
  - rewrite for_range_nonpos by lia. reflexivity.
Qed.

Lemma quot2_double (n : Z) : 0 <= n -> n ÷ 2 + n ÷ 2 <= n.
Proof.
  intros Hn. rewrite Z.quot_div_nonneg by lia.
  pose proof (Z.mul_div_le n 2 ltac:(lia)). lia.
Qed.

Lemma quot2_nonpos (n : Z) : n < 0 -> n ÷ 2 <= 0.
Proof.
  intros Hn. pose proof (Z.quot_opp_l (- n) 2 ltac:(lia)) as Hq.
  rewrite Z.opp_involutive in Hq.
  pose proof (Z.quot_pos (- n) 2 ltac:(lia) ltac:(lia)). lia.
Qed.

(** X4.  [Permute] for the channel [ch] is confined to that channel: it
    keeps the cursor of the frame, the bins of the other channels, the
    output rows of the other channels, the output entries of its own row
    from the transform size on, and every other member of the sender. *)
Theorem Permute_confined (ch : Z) (frame : STFTFrame F) (s : ISpectrumSender F) :
  GetBufferSize s <= INT_MAX ->
  let frame' := fst (Permute ch frame s) in
  let s' := snd (Permute ch frame s) in
  pos frame' = pos frame /\
  (forall c : nat, c <> Z.to_nat ch -> bins frame' !! c = bins frame !! c) /\
  (forall c : nat, c <> Z.to_nat ch -> mSTFTOutput s' !! c = mSTFTOutput s !! c) /\
  (forall j : nat, GetBufferSize s <= Z.of_nat j ->
     rd [] (mSTFTOutput s') ch !! j = rd [] (mSTFTOutput s) ch !! j) /\
  set_mSTFTOutput (mSTFTOutput s) s' = s.
Proof.
  intros Hmax. cbv zeta. rewrite Permute_bins. cbn [pos bins set_bins].
  split; [reflexivity|].
  split; [intros c Hc; apply list_lookup_alter_ne; lia|].
  assert (Hrow : forall (g : list F -> list F) (j : nat),
             (forall row, g row !! j = row !! j) ->
             rd [] (alter g (Z.to_nat ch) (mSTFTOutput s)) ch !! j
             = rd [] (mSTFTOutput s) ch !! j).
  { intros g j Hg. unfold rd. rewrite list_lookup_alter_eq.
    destruct (mSTFTOutput s !! Z.to_nat ch) as [row|]; [apply Hg|reflexivity]. }
  destruct (mOutputType s) eqn:Hmode.
  - rewrite (Permute_Complex ch frame s Hmode). cbn [mSTFTOutput set_mSTFTOutput].
    split; [intros c Hc; apply list_lookup_alter_ne; lia|].
    split; [|exact (set_mSTFTOutput_id s)].
    intros j Hj. apply Hrow. intros row.
    destruct (Z.le_gt_cases 0 (GetBufferSize s)) as [Hn|Hn].
    + pose proof (quot2_double _ Hn).
      apply for_range_wr_pairs_above; lia.
    + pose proof (quot2_nonpos _ Hn).
      rewrite for_range_nonpos by assumption. reflexivity.
  - rewrite (Permute_MagPhase ch frame s Hmode). cbn [mSTFTOutput set_mSTFTOutput].
    split; [intros c Hc; apply list_lookup_alter_ne; lia|].
    split; [|exact (set_mSTFTOutput_id s)].
    intros j Hj. apply Hrow. intros row.
    match goal with
    | |- context [for_range ?n (fun i r => wr r i (@?x i)) row] =>
        destruct (for_range_wr_lookup x n row) as [_ Hlk]
    end.
    cbv zeta in Hlk. rewrite Hlk.
    destruct (decide (Z.of_nat j < GetBufferSize s /\ (j < length row)%nat));
      [lia|reflexivity].
Qed.

(** ** What a block leaves alone *)

Lemma Permute_sender (ch : Z) (frame : STFTFrame F) (s : ISpectrumSender F) :
  configuration (snd (Permute ch frame s)) = configuration s /\
  mSTFTFrames (snd (Permute ch frame s)) = mSTFTFrames s.
Proof.
  destruct (mOutputType s) eqn:Hmode.
  - rewrite (Permute_Complex ch frame s Hmode). split; reflexivity.
  - rewrite (Permute_MagPhase ch frame s Hmode). split; reflexivity.
Qed.

Lemma frame_step_keeps (fftSize sampleIdx stftFrameIdx : Z)
    (s : ISpectrumSender F) (pkt : ISenderData F) :
  configuration (fst (frame_step MAXNC fftSize sampleIdx stftFrameIdx (s, pkt)))
  = configuration s /\
  length (mSTFTFrames (fst (frame_step MAXNC fftSize sampleIdx stftFrameIdx (s, pkt))))
  = length (mSTFTFrames s).
Proof.
  unfold frame_step.
  destruct (mSTFTFrames s !! Z.to_nat stftFrameIdx) as [fr|]; [|split; reflexivity].
  match goal with
  | |- context [if ?c then _ else _] => destruct c
  end.
  - match goal with
    | |- context [for_range MAXNC ?body ?init] =>
        assert (Hinv : configuration (snd (fst (for_range MAXNC body init)))
                       = configuration s /\
                       mSTFTFrames (snd (fst (for_range MAXNC body init)))
                       = mSTFTFrames s);
        [|destruct (for_range MAXNC body init) as [[fr2 s2] pkt2]]
    end.
    { apply (for_range_rel
               (fun (r : STFTFrame F * ISpectrumSender F * ISenderData F) (b : unit) =>
                  configuration (snd (fst r)) = configuration s /\
                  mSTFTFrames (snd (fst r)) = mSTFTFrames s)
               MAXNC _ (fun _ b => b) _ tt); [split; reflexivity|].
      intros ch [[fr2 s2] pkt2] b _ [Hc Hf]. cbn [fst snd] in *.
      destruct (Permute_sender ch fr2 s2) as [Kc Kf].
      destruct (Permute ch fr2 s2) as [fr3 s3]. cbn [fst snd] in *.
      split; congruence. }
    cbn [fst snd] in *. destruct Hinv as [Hc Hf].
    cbn [mSTFTFrames set_mSTFTFrames]. rewrite length_insert, Hf.
    split; [|reflexivity].
    rewrite <- Hc. reflexivity.
  - cbn [fst mSTFTFrames set_mSTFTFrames]. rewrite length_insert.
    split; reflexivity.
Qed.

(** X5.  Processing a block changes the frames and the output buffer only:
    the transform size, the overlap count, the window and output types, the
    window table and the scaling factor are those of before, and so is the
    number of frames. *)
Theorem PrepareDataForUI_keeps_configuration
    (s : ISpectrumSender F) (pkt : ISenderData F) :
  let s' := fst (PrepareDataForUI MAXNC (s, pkt)) in
  mBufferSize s' = mBufferSize s /\
  mOverlap s' = mOverlap s /\
  mWindowType s' = mWindowType s /\
  mOutputType s' = mOutputType s /\
  mWindow s' = mWindow s /\
  mScalingFactor s' = mScalingFactor s /\
  length (mSTFTFrames s') = length (mSTFTFrames s).
Proof.
  cbv zeta.
  assert (Hinv : configuration (fst (PrepareDataForUI MAXNC (s, pkt))) = configuration s /\
                 length (mSTFTFrames (fst (PrepareDataForUI MAXNC (s, pkt))))
                 = length (mSTFTFrames s)).
  { unfold PrepareDataForUI. cbn [fst].
    apply (for_range_rel
             (fun (st : ISpectrumSender F * ISenderData F) (b : unit) =>
                configuration (fst st) = configuration s /\
                length (mSTFTFrames (fst st)) = length (mSTFTFrames s))
             _ _ (fun _ b => b) _ tt); [split; reflexivity|].
    intros sampleIdx st b _ Hst.
    apply (for_range_rel
             (fun (st : ISpectrumSender F * ISenderData F) (b : unit) =>
                configuration (fst st) = configuration s /\
                length (mSTFTFrames (fst st)) = length (mSTFTFrames s))
             _ _ (fun _ b => b) _ tt); [exact Hst|].
    intros idx [s1 pkt1] b' _ [Hc Hl]. cbn [fst] in *.
    destruct (frame_step_keeps (GetBufferSize s) sampleIdx idx s1 pkt1) as [Kc Kl].
    split; congruence. }
  destruct Hinv as [Hc Hl].
  repeat split; try exact Hl.
  - exact (f_equal mBufferSize Hc).
  - exact (f_equal mOverlap Hc).
  - exact (f_equal mWindowType Hc).
  - exact (f_equal mOutputType Hc).
  - exact (f_equal mWindow Hc).
  - exact (f_equal mScalingFactor Hc).
Qed.

(** ** The frames after a reconfiguration *)

Lemma reset_bins_loop (fr : STFTFrame F) :
  Z.of_nat (length (bins fr)) <= MAXNC ->
  bins (for_range MAXNC
          (fun ch fr => set_bins (alter (fill czero) (Z.to_nat ch) (bins fr)) fr) fr)
  = fill czero <$> bins fr.
Proof.
  intros Hlen. rewrite <- (for_range_alter_all (fill czero) MAXNC (bins fr)) by assumption.
  apply (for_range_rel (fun (a : STFTFrame F) b => bins a = b)); [reflexivity|].
  intros ch a b _ <-. reflexivity.
Qed.

(** X6.  After [SetFFTSizeAndOverlap(fftSize, overlap)] with a non-negative
    overlap count the sender has the transform size [fftSize] and exactly
    [overlap] frames, whatever their number before, each with its cursor at
    0 and all its bins zero. *)
Theorem SetFFTSizeAndOverlap_frames (fftSize overlap : Z) (s : ISpectrumSender F) :
  0 <= MAXNC -> 0 <= overlap ->
  Forall (fun fr => Z.of_nat (length (bins fr)) <= MAXNC) (mSTFTFrames s) ->
  exists s',
    SetFFTSizeAndOverlap MAXNC MAX_FFT_SIZE fftSize overlap s = Ok s' /\
    GetBufferSize s' = fftSize /\
    mOverlap s' = overlap /\
    Z.of_nat (length (mSTFTFrames s')) = overlap /\
    Forall (fun fr => pos fr = 0 /\ Forall (Forall (fun b => b = czero)) (bins fr))
           (mSTFTFrames s').
Proof.
  intros HNC HK Hshape.
  destruct (SetFFTSizeAndOverlap_returns MAXNC MAX_FFT_SIZE fftSize overlap s HK)
    as (s1 & H1 & ->).
  eexists. split; [reflexivity|].
  rewrite SetFFTSize_returns in H1 by (cbn; lia). injection H1 as <-.
  unfold CalculateScalingFactors, GetBufferSize.
  cbn [mSTFTFrames mBufferSize mOverlap set_mScalingFactor].
  match goal with
  | |- context [CalculateWindow ?x] =>
      destruct (CalculateWindow_frame x) as (-> & _ & _ & -> & ->)
  end.
  unfold SetBufferSize.
  cbn [mSTFTFrames mBufferSize mOverlap set_mSTFTOutput set_mSTFTFrames
       set_mBufferSize set_mOverlap].
  split; [reflexivity|]. split; [reflexivity|].
  set (frames := if negb (Z.of_nat (length (mSTFTFrames s)) =? overlap)
                 then resize (Z.to_nat overlap) (new_frame MAXNC MAX_FFT_SIZE)
                             (mSTFTFrames s)
                 else mSTFTFrames s).
  assert (Hlen : Z.of_nat (length frames) = overlap).
  { unfold frames. destruct (Z.eqb_spec (Z.of_nat (length (mSTFTFrames s))) overlap);
      cbn [negb]; [assumption|]. rewrite length_resize. lia. }
  assert (Hsh : Forall (fun fr => Z.of_nat (length (bins fr)) <= MAXNC) frames).
  { unfold frames. destruct (negb _); [|assumption].
    rewrite resize_spec. apply Forall_app. split.
    - apply Forall_take. assumption.
    - apply Forall_replicate. unfold new_frame. cbn [bins].
      rewrite length_replicate. lia. }
  split; [rewrite length_fmap; assumption|].
  apply Forall_fmap. eapply Forall_impl; [exact Hsh|].
  intros fr Hfr. cbn [pos set_pos bins compose].
  split; [reflexivity|].
  rewrite (reset_bins_loop fr Hfr).
  apply Forall_fmap, Forall_true. intros row. unfold fill.
  apply Forall_replicate. reflexivity.
Qed.

(** ** The packet after a block *)

Lemma for_range_wr_pairs_length (x y : Z -> F) (k n : Z) (row : list F) :
  length (for_range n (fun i r => wr (wr r i (x i)) (wrap32 (i + k)) (y i)) row)
  = length row.
Proof.
  apply (for_range_rel (fun (r : list F) (b : unit) => length r = length row)
                       n _ (fun _ b => b) row tt); [reflexivity|].
  intros i r b _ Hr. unfold wr. rewrite !length_insert. exact Hr.
Qed.

(** The output buffer after [Permute]: the row of the channel rewritten in
    place, at its length. *)
Lemma Permute_output_alter (ch : Z) (frame : STFTFrame F) (s : ISpectrumSender F) :
  exists g : list F -> list F,
    (forall row, length (g row) = length row) /\
    mSTFTOutput (snd (Permute ch frame s)) = alter g (Z.to_nat ch) (mSTFTOutput s).
Proof.
  destruct (mOutputType s) eqn:Hmode.
  - rewrite (Permute_Complex ch frame s Hmode). cbn [mSTFTOutput set_mSTFTOutput].
    eexists. split; [|reflexivity].
    intros row. apply for_range_wr_pairs_length.
  - rewrite (Permute_MagPhase ch frame s Hmode). cbn [mSTFTOutput set_mSTFTOutput].
    eexists. split; [|reflexivity].
    intros row. cbv beta.
    match goal with
    | |- context [for_range ?n (fun i r => wr r i (@?x i)) row] =>
        destruct (for_range_wr_lookup x n row) as [Hlen _]
    end.
    exact Hlen.
Qed.

(** The loop over the channels that runs when a frame completes: transform,
    format, copy to the packet. *)
Lemma completion_loop (fftSize : Z) (fr : STFTFrame F)
    (s : ISpectrumSender F) (pkt : ISenderData F) :
  Forall (fun row => fftSize <= Z.of_nat (length row)) (mSTFTOutput s) ->
  let r :=
    for_range MAXNC
      (fun ch '(fr, s, pkt) =>
         let '(fr, s) := Permute ch fr s in
         (fr, s,
          alter (fun vals => memcpy vals (rd [] (mSTFTOutput s) ch) fftSize)
                (Z.to_nat ch) pkt))
      (fr, s, pkt) in
  Forall (fun row => fftSize <= Z.of_nat (length row)) (mSTFTOutput (snd (fst r))) /\
  length (mSTFTOutput (snd (fst r))) = length (mSTFTOutput s) /\
  length (snd r) = length pkt /\
  forall c : nat,
    Z.of_nat c < MAXNC -> (c < length pkt)%nat -> (c < length (mSTFTOutput s))%nat ->
    take (Z.to_nat fftSize) (default [] (snd r !! c))
    = take (Z.to_nat fftSize) (default [] (mSTFTOutput (snd (fst r)) !! c)).
Proof.
  intros Hshape. cbv zeta.
  destruct (Z.le_gt_cases 0 MAXNC) as [HNC|HNC].
  2:{ rewrite for_range_nonpos by lia. cbn [fst snd].
      repeat split; [assumption|]. intros c Hc. lia. }
  pose (P := fun (m : Z) (r : STFTFrame F * ISpectrumSender F * ISenderData F) =>
    Forall (fun row => fftSize <= Z.of_nat (length row)) (mSTFTOutput (snd (fst r))) /\
    length (mSTFTOutput (snd (fst r))) = length (mSTFTOutput s) /\
    length (snd r) = length pkt /\
    forall c : nat,
      Z.of_nat c < m -> (c < length pkt)%nat -> (c < length (mSTFTOutput s))%nat ->
      take (Z.to_nat fftSize) (default [] (snd r !! c))
      = take (Z.to_nat fftSize) (default [] (mSTFTOutput (snd (fst r)) !! c))).
  apply (for_range_ind P); [assumption| |]; unfold P; clear P.
  - cbn [fst snd]. repeat split; [assumption|]. intros c Hc. lia.
  - intros m [[fr2 s2] pkt2] Hm (Hsh & Hlo & Hlp & Hrows). cbn [fst snd] in *.
    destruct (Permute_output_alter m fr2 s2) as (g & Hg & Hout).
    destruct (Permute m fr2 s2) as [fr3 s3]. cbn [fst snd] in *.
    rewrite Hout. unfold ISenderData, TDataPacket in *.
    split; [apply Forall_alter; [assumption|]; intros row _ Hrow; rewrite Hg; exact Hrow|].
    split; [rewrite length_alter; assumption|].
    split; [rewrite length_alter; assumption|].
    intros c Hc Hcp Hco.
    destruct (decide (c = Z.to_nat m)) as [->|Hne].
    + destruct (lookup_lt_is_Some_2 pkt2 (Z.to_nat m) ltac:(lia)) as [vals Hvals].
      destruct (lookup_lt_is_Some_2 (mSTFTOutput s2) (Z.to_nat m) ltac:(lia))
        as [row Hrow].
      rewrite !list_lookup_alter_eq, Hvals, Hrow. cbn [fmap option_fmap option_map default].
      unfold rd. rewrite list_lookup_alter_eq, Hrow.
      cbn [fmap option_fmap option_map default]. unfold memcpy.
      pose proof (proj1 (Forall_lookup _ _) Hsh _ _ Hrow) as Hlen. cbn beta in Hlen.
      unfold Datatypes.id.
      rewrite take_app_le by (rewrite length_take, Hg; lia).
      apply take_idemp.
    + rewrite !list_lookup_alter_ne by lia. apply Hrows; lia.
Qed.

(** One step of one frame keeps the shape of the output buffer. *)
Lemma frame_step_output_shape (n fftSize sampleIdx stftFrameIdx : Z)
    (s : ISpectrumSender F) (pkt : ISenderData F) :
  Forall (fun row => n <= Z.of_nat (length row)) (mSTFTOutput s) ->
  let st' := frame_step MAXNC fftSize sampleIdx stftFrameIdx (s, pkt) in
  Forall (fun row => n <= Z.of_nat (length row)) (mSTFTOutput (fst st')) /\
  length (mSTFTOutput (fst st')) = length (mSTFTOutput s) /\
  length (snd st') = length pkt.
Proof.
  intros Hshape. cbv zeta. unfold frame_step.
  destruct (mSTFTFrames s !! Z.to_nat stftFrameIdx) as [fr|];
    [|repeat split; assumption].
  match goal with
  | |- context [if ?c then _ else _] => destruct c
  end; [|repeat split; assumption].
  match goal with
  | |- context [for_range MAXNC ?body ?init] =>
      assert (Hinv :
        Forall (fun row => n <= Z.of_nat (length row))
               (mSTFTOutput (snd (fst (for_range MAXNC body init)))) /\
        length (mSTFTOutput (snd (fst (for_range MAXNC body init))))
        = length (mSTFTOutput s) /\
        length (snd (for_range MAXNC body init)) = length pkt);
      [|destruct (for_range MAXNC body init) as [[fr2 s2] pkt2]]
  end.
  { apply (for_range_rel
             (fun (r : STFTFrame F * ISpectrumSender F * ISenderData F) (b : unit) =>
                Forall (fun row => n <= Z.of_nat (length row)) (mSTFTOutput (snd (fst r))) /\
                length (mSTFTOutput (snd (fst r))) = length (mSTFTOutput s) /\
                length (snd r) = length pkt)
             MAXNC _ (fun _ b => b) _ tt); [repeat split; assumption|].
    intros ch [[fr2 s2] pkt2] b _ (Hsh & Hlo & Hlp). cbn [fst snd] in *.
    destruct (Permute_output_alter ch fr2 s2) as (g & Hg & Hout).
    destruct (Permute ch fr2 s2) as [fr3 s3]. cbn [fst snd] in *.
    rewrite Hout. unfold ISenderData, TDataPacket in *.
    split; [apply Forall_alter; [assumption|]; intros row _ Hrow; rewrite Hg; exact Hrow|].
    split; rewrite length_alter; assumption. }
  cbn [fst snd mSTFTOutput set_mSTFTFrames] in *. exact Hinv.
Qed.

Lemma frame_step_other_frames (fftSize sampleIdx stftFrameIdx : Z)
    (s : ISpectrumSender F) (pkt : ISenderData F) (j : nat) :
  j <> Z.to_nat stftFrameIdx ->
  mSTFTFrames (fst (frame_step MAXNC fftSize sampleIdx stftFrameIdx (s, pkt))) !! j
  = mSTFTFrames s !! j.
Proof.
  intros Hj. destruct (mSTFTFrames s !! Z.to_nat stftFrameIdx) as [fr|] eqn:Hfr.
  - destruct (frame_step_cursor MAXNC fftSize sampleIdx stftFrameIdx s pkt fr Hfr)
      as ((fr' & Hfs & _) & _).
    cbv zeta in Hfs. rewrite Hfs. apply list_lookup_insert_ne. lia.
  - unfold frame_step. rewrite Hfr. reflexivity.
Qed.

(** The loop over the frames, stopped before the frame [m]: the frames from
    [m] on are as before, and the shape of output and packet is kept. *)
Lemma frames_loop_partial (n fftSize sampleIdx m : Z)
    (s : ISpectrumSender F) (pkt : ISenderData F) :
  Forall (fun row => n <= Z.of_nat (length row)) (mSTFTOutput s) ->
  let st' :=
    for_range m (fun idx st => frame_step MAXNC fftSize sampleIdx idx st) (s, pkt) in
  (forall j : nat, m <= Z.of_nat j -> mSTFTFrames (fst st') !! j = mSTFTFrames s !! j) /\
  configuration (fst st') = configuration s /\
  Forall (fun row => n <= Z.of_nat (length row)) (mSTFTOutput (fst st')) /\
  length (mSTFTOutput (fst st')) = length (mSTFTOutput s) /\
  length (snd st') = length pkt.
Proof.
  intros Hshape. cbv zeta.
  destruct (Z.le_gt_cases 0 m) as [Hm|Hm].
  2:{ rewrite for_range_nonpos by lia. cbn [fst snd]. repeat split. assumption. }
  pose (P := fun (k : Z) (st' : ISpectrumSender F * ISenderData F) =>
    (forall j : nat, k <= Z.of_nat j -> mSTFTFrames (fst st') !! j = mSTFTFrames s !! j) /\
    configuration (fst st') = configuration s /\
    Forall (fun row => n <= Z.of_nat (length row)) (mSTFTOutput (fst st')) /\
    length (mSTFTOutput (fst st')) = length (mSTFTOutput s) /\
    length (snd st') = length pkt).
  apply (for_range_ind P); [assumption| |]; unfold P; clear P.
  - cbn [fst snd]. repeat split. assumption.
  - intros k [s1 pkt1] Hk (Hfr & Hc & Hsh & Hlo & Hlp). cbn [fst snd] in *.
    destruct (frame_step_keeps fftSize sampleIdx k s1 pkt1) as [Kc _].
    destruct (frame_step_output_shape n fftSize sampleIdx k s1 pkt1 Hsh)
      as (Ksh & Klo & Klp).
    cbv zeta in Ksh, Klo, Klp.
    split.
    { intros j Hj. rewrite frame_step_other_frames by lia. apply Hfr. lia. }
    split; [congruence|]. split; [assumption|]. split; congruence.
Qed.

(** The packet after a block: when the last frame completes at the last
    sample, the loop over the channels copies each output row to the
    packet. *)
Lemma block_packet_is_output
    (s : ISpectrumSender F) (pkt : ISenderData F) (c : nat) :
  0 < GetBufferSize s <= INT_MAX ->
  0 < mOverlap s ->
  Z.of_nat (length (mSTFTFrames s)) = mOverlap s ->
  cursors_at 0 s ->
  Forall (fun row => GetBufferSize s <= Z.of_nat (length row)) (mSTFTOutput s) ->
  Z.of_nat c < MAXNC -> (c < length pkt)%nat -> (c < length (mSTFTOutput s))%nat ->
  take (Z.to_nat (GetBufferSize s))
       (default [] (snd (PrepareDataForUI MAXNC (s, pkt)) !! c))
  = take (Z.to_nat (GetBufferSize s))
         (default [] (mSTFTOutput (fst (PrepareDataForUI MAXNC (s, pkt))) !! c)).
Proof.
  intros HN HK Hlen Hcur Hshape Hc Hcp Hco.
  unfold PrepareDataForUI. cbn [fst].
  set (N := GetBufferSize s) in *.
  set (outer := fun (sampleIdx : Z) (st : ISpectrumSender F * ISenderData F) =>
                  for_range (mOverlap (fst st))
                    (fun stftFrameIdx st => frame_step MAXNC N sampleIdx stftFrameIdx st) st).
  assert (Hlast : for_range N outer (s, pkt)
                  = outer (N - 1) (for_range (N - 1) outer (s, pkt))).
  { replace N with (N - 1 + 1) at 1 by lia. apply for_range_succ. lia. }
  rewrite Hlast. clear Hlast.
  (* the state before the last sample *)
  destruct (PrepareDataForUI_cursors MAXNC 0 (N - 1) s pkt
              ltac:(fold N; lia) ltac:(fold N; lia) Hlen Hcur ltac:(fold N; lia))
    as (Hc1 & _ & Hl1 & Hb1 & Ho1).
  cbv zeta in Hc1, Hl1, Hb1, Ho1. fold N in Hc1, Hl1, Hb1, Ho1. fold outer in Hc1, Hl1, Hb1, Ho1.
  assert (Hsh1 : Forall (fun row => N <= Z.of_nat (length row))
                        (mSTFTOutput (fst (for_range (N - 1) outer (s, pkt)))) /\
                 length (mSTFTOutput (fst (for_range (N - 1) outer (s, pkt))))
                 = length (mSTFTOutput s) /\
                 length (snd (for_range (N - 1) outer (s, pkt))) = length pkt).
  { apply (for_range_rel
             (fun (st : ISpectrumSender F * ISenderData F) (b : unit) =>
                Forall (fun row => N <= Z.of_nat (length row)) (mSTFTOutput (fst st)) /\
                length (mSTFTOutput (fst st)) = length (mSTFTOutput s) /\
                length (snd st) = length pkt)
             _ _ (fun _ b => b) _ tt); [repeat split; assumption|].
    intros sampleIdx [s0 pkt0] b _ (Hsh & Hlo & Hlp). cbn [fst snd] in *.
    unfold outer. cbn [fst].
    destruct (frames_loop_partial N N sampleIdx (mOverlap s0) s0 pkt0 Hsh)
      as (_ & _ & Ksh & Klo & Klp).
    cbv zeta in Ksh, Klo, Klp. split; [assumption|]. split; congruence. }
  destruct (for_range (N - 1) outer (s, pkt)) as [s1 pkt1]. cbn [fst snd] in *.
  destruct Hsh1 as (Hsh1 & Hlo1 & Hlp1).
  replace ((0 + (N - 1)) mod N) with (N - 1) in Hc1
    by (rewrite Z.add_0_l, Z.mod_small; lia).
  (* the last sample, before the last frame *)
  unfold outer at 1 2. cbn [fst].
  set (K := mOverlap s1) in *.
  assert (Hlast : for_range K (fun idx st => frame_step MAXNC N (N - 1) idx st) (s1, pkt1)
                  = frame_step MAXNC N (N - 1) (K - 1)
                      (for_range (K - 1)
                         (fun idx st => frame_step MAXNC N (N - 1) idx st) (s1, pkt1))).
  { replace K with (K - 1 + 1) at 1 by lia. apply for_range_succ. lia. }
  rewrite Hlast. clear Hlast.
  destruct (frames_loop_partial N N (N - 1) (K - 1) s1 pkt1 Hsh1)
    as (Hfr2 & _ & Hsh2 & Hlo2 & Hlp2).
  cbv zeta in Hfr2, Hsh2, Hlo2, Hlp2.
  destruct (for_range (K - 1)
              (fun idx st => frame_step MAXNC N (N - 1) idx st) (s1, pkt1))
    as [s2 pkt2]. cbn [fst snd] in *.
  destruct (lookup_lt_is_Some_2 (mSTFTFrames s1) (Z.to_nat (K - 1)) ltac:(lia))
    as [fr Hfr].
  pose proof (proj1 (Forall_lookup _ _) Hc1 _ _ Hfr) as Hpos. cbn beta in Hpos.
  rewrite <- Hfr2 in Hfr by lia.
  (* the last frame completes *)
  unfold frame_step. rewrite Hfr.
  match goal with
  | |- context [for_range MAXNC ?body fr] =>
      assert (Hpos1 : pos (for_range MAXNC body fr) = pos fr);
      [|set (fr1 := for_range MAXNC body fr) in *]
  end.
  { apply (for_range_rel (fun a (b : unit) => pos a = pos fr) MAXNC _ (fun _ b => b) fr tt);
      [reflexivity|].
    intros i a b _ Ha. exact Ha. }
  cbn [pos set_pos]. rewrite Hpos1, Hpos.
  rewrite wrap32_id by (unfold INT_MIN, INT_MAX in *; lia).
  destruct (Z.geb_spec (N - 1 + 1) N) as [_|Hlt]; [|lia].
  match goal with
  | |- context [for_range MAXNC ?body (?f0, s2, pkt2)] =>
      pose proof (completion_loop N f0 s2 pkt2 Hsh2) as Hloop;
      cbv zeta in Hloop;
      destruct (for_range MAXNC body (f0, s2, pkt2)) as [[fr3 s3] pkt3]
  end.
  cbn [fst snd mSTFTOutput set_mSTFTFrames] in *.
  destruct Hloop as (_ & _ & _ & Hrows).
  apply Hrows; lia.
Qed.

(** X8.  After a block on a configured sender (cursors at 0, at least one
    overlap frame), the packet holds the output buffer: for every channel
    the first [N] values of the packet are the first [N] values of the
    output row of that channel. *)
Theorem PrepareDataForUI_packet_is_output
    (s : ISpectrumSender F) (pkt : ISenderData F) (c : nat) :
  0 < GetBufferSize s <= INT_MAX ->
  0 < mOverlap s ->
  Z.of_nat (length (mSTFTFrames s)) = mOverlap s ->
  cursors_at 0 s ->
  Forall (fun row => GetBufferSize s <= Z.of_nat (length row)) (mSTFTOutput s) ->
  Z.of_nat c < MAXNC -> (c < length pkt)%nat -> (c < length (mSTFTOutput s))%nat ->
  take (Z.to_nat (GetBufferSize s))
       (default [] (snd (PrepareDataForUI MAXNC (s, pkt)) !! c))
  = take (Z.to_nat (GetBufferSize s))
         (default [] (mSTFTOutput (fst (PrepareDataForUI MAXNC (s, pkt))) !! c)).
Proof. exact (block_packet_is_output s pkt c). Qed.

(** ** Cursors between blocks *)

Lemma SetFFTSizeAndOverlap_state (fftSize overlap : Z) (s : ISpectrumSender F) :
  0 <= overlap ->
  exists s',
    SetFFTSizeAndOverlap MAXNC MAX_FFT_SIZE fftSize overlap s = Ok s' /\
    GetBufferSize s' = fftSize /\
    mOverlap s' = overlap /\
    Z.of_nat (length (mSTFTFrames s')) = overlap /\
    cursors_at 0 s'.
Proof.
  intros HK.
  destruct (SetFFTSizeAndOverlap_returns MAXNC MAX_FFT_SIZE fftSize overlap s HK)
    as (s1 & H1 & ->).
  eexists. split; [reflexivity|].
  rewrite SetFFTSize_returns in H1 by (cbn; lia). injection H1 as <-.
  unfold CalculateScalingFactors, GetBufferSize, cursors_at.
  cbn [mSTFTFrames mBufferSize mOverlap set_mScalingFactor].
  match goal with
  | |- context [CalculateWindow ?x] =>
      destruct (CalculateWindow_frame x) as (-> & _ & _ & -> & ->)
  end.
  unfold SetBufferSize.
  cbn [mSTFTFrames mBufferSize mOverlap set_mSTFTOutput set_mSTFTFrames
       set_mBufferSize set_mOverlap].
  split; [reflexivity|]. split; [reflexivity|].
  split.
  - rewrite length_fmap.
    destruct (Z.eqb_spec (Z.of_nat (length (mSTFTFrames s))) overlap);
      cbn [negb]; [assumption|]. rewrite length_resize. lia.
  - apply Forall_fmap, Forall_true. intros fr. reflexivity.
Qed.

(** A step of a frame that does not complete it writes neither the output
    buffer nor the packet. *)
Lemma frame_step_quiet (fftSize sampleIdx stftFrameIdx : Z)
    (s : ISpectrumSender F) (pkt : ISenderData F) (fr : STFTFrame F) :
  mSTFTFrames s !! Z.to_nat stftFrameIdx = Some fr ->
  wrap32 (pos fr + 1) < fftSize ->
  mSTFTOutput (fst (frame_step MAXNC fftSize sampleIdx stftFrameIdx (s, pkt)))
  = mSTFTOutput s /\
  snd (frame_step MAXNC fftSize sampleIdx stftFrameIdx (s, pkt)) = pkt.
Proof.
  intros Hfr Hlt. unfold frame_step. rewrite Hfr.
  match goal with
  | |- context [for_range MAXNC ?body fr] =>
      assert (Hpos1 : pos (for_range MAXNC body fr) = pos fr);
      [|set (fr1 := for_range MAXNC body fr) in *]
  end.
  { apply (for_range_rel (fun a (b : unit) => pos a = pos fr) MAXNC _ (fun _ b => b) fr tt);
      [reflexivity|].
    intros i a b _ Ha. exact Ha. }
  cbn [pos set_pos]. rewrite Hpos1.
  destruct (Z.geb_spec (wrap32 (pos fr + 1)) fftSize) as [Hge|_]; [lia|].
  split; reflexivity.
Qed.

(** One sample that completes no frame: the loop over the frames leaves the
    output buffer and the packet as they were. *)
Lemma sample_step_quiet (fftSize sampleIdx p : Z)
    (s : ISpectrumSender F) (pkt : ISenderData F) :
  Z.of_nat (length (mSTFTFrames s)) = mOverlap s ->
  cursors_at p s ->
  wrap32 (p + 1) < fftSize ->
  let st' :=
    for_range (mOverlap s)
      (fun stftFrameIdx st => frame_step MAXNC fftSize sampleIdx stftFrameIdx st)
      (s, pkt) in
  mSTFTOutput (fst st') = mSTFTOutput s /\ snd st' = pkt.
Proof.
  intros Hlen Hall Hlt. cbv zeta.
  pose (P := fun m (st' : ISpectrumSender F * ISenderData F) =>
       length (mSTFTFrames (fst st')) = length (mSTFTFrames s) /\
       (forall j : nat, m <= Z.of_nat j ->
          mSTFTFrames (fst st') !! j = mSTFTFrames s !! j) /\
       mSTFTOutput (fst st') = mSTFTOutput s /\ snd st' = pkt).
  enough (Hinv : P (mOverlap s)
                   (for_range (mOverlap s)
                      (fun stftFrameIdx st =>
                         frame_step MAXNC fftSize sampleIdx stftFrameIdx st) (s, pkt))).
  { destruct Hinv as (_ & _ & Ho & Hp). split; assumption. }
  apply (for_range_ind P); [lia| |]; unfold P; clear P.
  - cbn [fst snd]. repeat split; reflexivity.
  - intros m [s1 pkt1] Hm (Hl & Hj & Ho & Hp). cbn [fst snd] in *. subst pkt1.
    destruct (lookup_lt_is_Some_2 (mSTFTFrames s) (Z.to_nat m) ltac:(lia)) as [fr Hfr].
    assert (Hfr1 : mSTFTFrames s1 !! Z.to_nat m = Some fr)
      by (rewrite Hj by lia; exact Hfr).
    pose proof (proj1 (Forall_lookup _ _) Hall _ _ Hfr) as Hpos. cbn beta in Hpos.
    destruct (frame_step_quiet fftSize sampleIdx m s1 pkt fr Hfr1
                ltac:(rewrite Hpos; exact Hlt)) as (Hq1 & Hq2).
    destruct (frame_step_keeps fftSize sampleIdx m s1 pkt) as (_ & Hlk).
    split; [congruence|]. split; [|split; [congruence|assumption]].
    intros j Hjm. rewrite frame_step_other_frames by lia. apply Hj. lia.
Qed.

(** The first [m < N] samples of a block: every cursor is at [m], and no
    frame has completed, so that the output buffer and the packet are as
    they were. *)
Lemma block_prefix_quiet (m : Z) (s : ISpectrumSender F) (pkt : ISenderData F) :
  let N := GetBufferSize s in
  0 <= m < N -> N <= INT_MAX ->
  Z.of_nat (length (mSTFTFrames s)) = mOverlap s ->
  cursors_at 0 s ->
  let st :=
    for_range m
      (fun sampleIdx st =>
         for_range (mOverlap (fst st))
           (fun stftFrameIdx st => frame_step MAXNC N sampleIdx stftFrameIdx st) st)
      (s, pkt) in
  cursors_at m (fst st) /\ mSTFTOutput (fst st) = mSTFTOutput s /\ snd st = pkt.
Proof.
  intros N Hm Hmax Hlen Hcur. cbv zeta.
  pose (P := fun i (st : ISpectrumSender F * ISenderData F) =>
       cursors_at i (fst st) /\
       Z.of_nat (length (mSTFTFrames (fst st))) = mOverlap (fst st) /\
       mSTFTOutput (fst st) = mSTFTOutput s /\ snd st = pkt).
  enough (Hinv : P m
            (for_range m
               (fun sampleIdx st =>
                  for_range (mOverlap (fst st))
                    (fun stftFrameIdx st => frame_step MAXNC N sampleIdx stftFrameIdx st) st)
               (s, pkt))).
  { destruct Hinv as (Hc & _ & Ho & Hp). repeat split; assumption. }
  apply (for_range_ind P); [lia| |]; unfold P; clear P.
  - cbn [fst snd]. repeat split; assumption.
  - intros i [s1 pkt1] Hi (Hc & Hl & Ho & Hp). cbn [fst snd] in *. subst pkt1.
    assert (Hw : wrap32 (i + 1) = i + 1)
      by (apply wrap32_id; unfold INT_MIN, INT_MAX in *; lia).
    destruct (sample_step_cursors MAXNC N i i s1 pkt Hl Hc) as (Hc' & Hl' & _ & Ho').
    destruct (sample_step_quiet N i i s1 pkt Hl Hc ltac:(lia)) as (Hq1 & Hq2).
    cbv zeta in Hc', Hl', Ho', Hq1, Hq2.
    assert (Hnext : next_pos N i = i + 1).
    { unfold next_pos. rewrite Hw.
      destruct (Z.geb_spec (i + 1) N); [lia|reflexivity]. }
    rewrite Hnext in Hc'.
    split; [exact Hc'|]. split; [lia|]. split; [congruence|assumption].
Qed.

(** A block keeps the shape of the output buffer. *)
Lemma PrepareDataForUI_output_shape (n : Z) (s : ISpectrumSender F) (pkt : ISenderData F) :
  Forall (fun row => n <= Z.of_nat (length row)) (mSTFTOutput s) ->
  Forall (fun row => n <= Z.of_nat (length row))
         (mSTFTOutput (fst (PrepareDataForUI MAXNC (s, pkt)))) /\
  length (mSTFTOutput (fst (PrepareDataForUI MAXNC (s, pkt)))) = length (mSTFTOutput s).
Proof.
  intros Hshape. unfold PrepareDataForUI. cbn [fst].
  apply (for_range_rel
           (fun (st : ISpectrumSender F * ISenderData F) (b : unit) =>
              Forall (fun row => n <= Z.of_nat (length row)) (mSTFTOutput (fst st)) /\
              length (mSTFTOutput (fst st)) = length (mSTFTOutput s))
           _ _ (fun _ b => b) _ tt); [split; [assumption|reflexivity]|].
  intros sampleIdx [s0 pkt0] b _ (Hsh & Hlo). cbn [fst snd] in *.
  destruct (frames_loop_partial n (GetBufferSize s) sampleIdx (mOverlap s0) s0 pkt0 Hsh)
    as (_ & _ & Ksh & Klo & _).
  cbv zeta in Ksh, Klo. split; [assumption|congruence].
Qed.

(** The reconfiguration keeps the shape of the output buffer. *)
Lemma SetFFTSizeAndOverlap_output_shape (n fftSize overlap : Z)
    (s s' : ISpectrumSender F) :
  SetFFTSizeAndOverlap MAXNC MAX_FFT_SIZE fftSize overlap s = Ok s' ->
  Forall (fun row => n <= Z.of_nat (length row)) (mSTFTOutput s) ->
  Forall (fun row => n <= Z.of_nat (length row)) (mSTFTOutput s') /\
  length (mSTFTOutput s') = length (mSTFTOutput s).
Proof.
  intros Hs Hshape.
  destruct (Z.lt_ge_cases overlap 0) as [Hneg|HK].
  { rewrite SetFFTSizeAndOverlap_throws in Hs by assumption. discriminate. }
  destruct (SetFFTSizeAndOverlap_returns MAXNC MAX_FFT_SIZE fftSize overlap s HK)
    as (s1 & H1 & H2).
  rewrite H2 in Hs. injection Hs as <-.
  rewrite SetFFTSize_returns in H1 by (cbn; lia). injection H1 as <-.
  unfold CalculateScalingFactors. cbn [mSTFTOutput set_mScalingFactor].
  match goal with
  | |- context [CalculateWindow ?x] =>
      destruct (CalculateWindow_frame x) as (_ & -> & _)
  end.
  cbn [mSTFTOutput set_mSTFTOutput].
  apply (for_range_rel
           (fun (out : list (list F)) (b : unit) =>
              Forall (fun row => n <= Z.of_nat (length row)) out /\
              length out = length (mSTFTOutput s))
           _ _ (fun _ b => b) _ tt); [split; [assumption|reflexivity]|].
  intros ch out b _ (Hsh & Hlo). split; [|rewrite length_alter; assumption].
  apply Forall_alter; [assumption|].
  intros row _ Hrow. unfold fill. rewrite length_replicate. exact Hrow.
Qed.

(** The state after any number of blocks. *)
Lemma blocks_state (n : Z) (s0 : ISpectrumSender F) (pkts : list (ISenderData F)) :
  0 < GetBufferSize s0 <= INT_MAX ->
  Z.of_nat (length (mSTFTFrames s0)) = mOverlap s0 ->
  cursors_at 0 s0 ->
  let s' := foldl (fun s pkt => fst (PrepareDataForUI MAXNC (s, pkt))) s0 pkts in
  cursors_at 0 s' /\
  Z.of_nat (length (mSTFTFrames s')) = mOverlap s0 /\
  GetBufferSize s' = GetBufferSize s0 /\
  mOverlap s' = mOverlap s0 /\
  (Forall (fun row => n <= Z.of_nat (length row)) (mSTFTOutput s0) ->
   Forall (fun row => n <= Z.of_nat (length row)) (mSTFTOutput s') /\
   length (mSTFTOutput s') = length (mSTFTOutput s0)).
Proof.
  cbv zeta. revert s0.
  induction pkts as [|pkt pkts IH]; intros s0 HN Hl Hc; cbn [foldl].
  - repeat split; try assumption.
  - destruct (PrepareDataForUI_cursors MAXNC 0 (GetBufferSize s0) s0 pkt
                ltac:(lia) ltac:(lia) ltac:(lia) Hc ltac:(lia))
      as (Hc' & _ & Hl' & Hb' & Ho').
    cbv zeta in Hc', Hl', Hb', Ho'.
    rewrite Z.add_0_l, Z.mod_same in Hc' by lia.
    change (for_range (GetBufferSize s0) _ (s0, pkt))
      with (PrepareDataForUI MAXNC (s0, pkt)) in Hc', Hl', Hb', Ho'.
    destruct (IH (fst (PrepareDataForUI MAXNC (s0, pkt)))) as (Ic & Il & Ib & Io & Ish).
    + unfold GetBufferSize in *. rewrite Hb'. exact HN.
    + lia.
    + exact Hc'.
    + split; [exact Ic|]. split; [lia|].
      split; [unfold GetBufferSize in *; congruence|]. split; [congruence|].
      intros Hsh.
      destruct (PrepareDataForUI_output_shape n s0 pkt Hsh) as (Hsh1 & Hlo1).
      destruct (Ish Hsh1) as (Hsh2 & Hlo2). split; [assumption|congruence].
Qed.

(** X7.  On a sender configured with a positive transform size [N] and a
    non-negative overlap count, every block ends where it began: after any
    sequence of blocks all cursors are at 0, the number of frames is the
    overlap count and the transform size is the configured one.  In the
    block that follows, after [m < N] samples every cursor is at [m] and no
    frame has completed: the output buffer and the packet are untouched.
    The frames complete at the last sample: with at least one frame, after
    the block the packet holds the first [N] values of the output row of
    every channel. *)
Theorem cursors_between_blocks (fftSize overlap : Z) (s : ISpectrumSender F)
    (pkts : list (ISenderData F)) :
  0 < fftSize <= INT_MAX -> 0 <= overlap ->
  exists s0,
    SetFFTSizeAndOverlap MAXNC MAX_FFT_SIZE fftSize overlap s = Ok s0 /\
    let s' := foldl (fun s pkt => fst (PrepareDataForUI MAXNC (s, pkt))) s0 pkts in
    (cursors_at 0 s' /\
     Z.of_nat (length (mSTFTFrames s')) = overlap /\
     GetBufferSize s' = fftSize /\
     mOverlap s' = overlap) /\
    (forall (pkt : ISenderData F) (m : Z),
       0 <= m < fftSize ->
       let st :=
         for_range m
           (fun sampleIdx st =>
              for_range (mOverlap (fst st))
                (fun stftFrameIdx st => frame_step MAXNC fftSize sampleIdx stftFrameIdx st)
                st)
           (s', pkt) in
       cursors_at m (fst st) /\ mSTFTOutput (fst st) = mSTFTOutput s' /\ snd st = pkt) /\
    (0 < overlap ->
     Forall (fun row => fftSize <= Z.of_nat (length row)) (mSTFTOutput s) ->
     forall (pkt : ISenderData F) (c : nat),
       Z.of_nat c < MAXNC -> (c < length pkt)%nat -> (c < length (mSTFTOutput s))%nat ->
       take (Z.to_nat fftSize)
            (default [] (snd (PrepareDataForUI MAXNC (s', pkt)) !! c))
       = take (Z.to_nat fftSize)
              (default [] (mSTFTOutput (fst (PrepareDataForUI MAXNC (s', pkt))) !! c))).
Proof.
  intros HN HK.
  destruct (SetFFTSizeAndOverlap_state fftSize overlap s HK) as (s0 & Hs0 & Hb & Ho & Hl & Hc).
  exists s0. split; [exact Hs0|]. cbv zeta.
  destruct (blocks_state fftSize s0 pkts ltac:(lia) ltac:(lia) Hc)
    as (Ic & Il & Ib & Io & Ish).
  cbv zeta in Ic, Il, Ib, Io, Ish.
  set (s' := foldl (fun s pkt => fst (PrepareDataForUI MAXNC (s, pkt))) s0 pkts) in *.
  split; [|split].
  - split; [exact Ic|]. split; [lia|]. split; [lia|]. lia.
  - intros pkt m Hm.
    pose proof (block_prefix_quiet m s' pkt) as Hq. cbv zeta in Hq.
    rewrite Ib, Hb in Hq. apply Hq; [exact Hm|lia|lia|exact Ic].
  - intros HK1 Hshape pkt c Hc1 Hc2 Hc3.
    destruct (SetFFTSizeAndOverlap_output_shape fftSize fftSize overlap s s0 Hs0 Hshape)
      as (Hsh0 & Hlo0).
    destruct (Ish Hsh0) as (Hsh' & Hlo').
    pose proof (block_packet_is_output s' pkt c) as Hp.
    rewrite Ib, Hb in Hp. apply Hp; try assumption; try lia.
Qed.

(** ** The outcomes of configuration *)

(** X19.  The constructor, for an [int] transform size: with a size that is
    not valid an assertion fails; with a valid size and a non-negative
    overlap count the sender is constructed with that size and that many
    frames, all cursors at 0; with a valid size and a negative overlap count
    the exception of [resize] leaves the constructor. *)
Theorem construct_validates_size
    (window0 : list F) (output0 : list (list F))
    (fftSize overlap : Z) (window : EWindowType) (outputType : EOutputType) :
  INT_MIN <= fftSize <= INT_MAX ->
  (~ valid_size MAX_FFT_SIZE fftSize ->
   construct MAXNC MAX_FFT_SIZE window0 output0 fftSize overlap window outputType
   = AssertionFailed) /\
  (valid_size MAX_FFT_SIZE fftSize -> 0 <= overlap ->
   exists s,
     construct MAXNC MAX_FFT_SIZE window0 output0 fftSize overlap window outputType
     = Ok s /\
     GetBufferSize s = fftSize /\
     mOverlap s = overlap /\
     Z.of_nat (length (mSTFTFrames s)) = overlap /\
     cursors_at 0 s) /\
  (valid_size MAX_FFT_SIZE fftSize -> overlap < 0 ->
   construct MAXNC MAX_FFT_SIZE window0 output0 fftSize overlap window outputType
   = LengthError).
Proof.
  intros Hint.
  destruct (construct_checks MAXNC MAX_FFT_SIZE window0 output0 fftSize overlap
              window outputType Hint) as [Hbad Hok].
  split; [exact Hbad|]. split.
  - intros Hv HK. rewrite (Hok Hv). apply SetFFTSizeAndOverlap_state. exact HK.
  - intros Hv HK. rewrite (Hok Hv). apply SetFFTSizeAndOverlap_throws. exact HK.
Qed.


End SenderCoverage.

(** The size 1024 of a sender of capacity 4096 passes the check. *)
Lemma construct_validates_size_witness :
  exists s,
    construct (F := R) 1 4096 [] [] 1024 2 Hann MagPhase = Ok s /\
    GetBufferSize s = 1024 /\ mOverlap s = 2.
Proof.
  destruct (construct_validates_size (F := R) 1 4096 [] [] 1024 2 Hann MagPhase)
    as (_ & Hok & _).
  - unfold INT_MIN, INT_MAX. lia.
  - destruct Hok as (s & Hs & Hb & Ho & _).
    + split; [exists 10; split; [lia|reflexivity]|lia].
    + lia.
    + exists s. repeat split; assumption.
Defined.

(** ** The further properties at the small sender *)

(** [Permute] on the first frame of the small sender. *)
Lemma Permute_confined_witness :
  pos (fst (Permute (TF := Small_Transform) 0
              (mkFrame 0 [[mkComplex 3%R 0%R; mkComplex 1%R 0%R; czero; czero]])
              (small_state Hann Complex))) = 0 /\
  set_mSTFTOutput (mSTFTOutput (small_state Hann Complex))
    (snd (Permute (TF := Small_Transform) 0
            (mkFrame 0 [[mkComplex 3%R 0%R; mkComplex 1%R 0%R; czero; czero]])
            (small_state Hann Complex)))
  = small_state Hann Complex.
Proof.
  destruct (Permute_confined (TF := Small_Transform) 0
              (mkFrame 0 [[mkComplex 3%R 0%R; mkComplex 1%R 0%R; czero; czero]])
              (small_state Hann Complex)) as (Hp & _ & _ & _ & Hs).
  - cbv -[Z.lt Z.le]. lia.
  - split; assumption.
Defined.

(** The small sender reconfigured to the size 4 with three overlap frames. *)
Lemma SetFFTSizeAndOverlap_frames_witness :
  exists s',
    SetFFTSizeAndOverlap 1 4 4 3 (small_state Hann MagPhase) = Ok s' /\
    Z.of_nat (length (mSTFTFrames s')) = 3 /\
    Forall (fun fr => pos fr = 0 /\ Forall (Forall (fun b => b = czero)) (bins fr))
           (mSTFTFrames s').
Proof.
  destruct (SetFFTSizeAndOverlap_frames 1 4 4 3 (small_state Hann MagPhase))
    as (s' & Hs & _ & _ & Hl & Hf).
  - lia.
  - lia.
  - repeat (apply Forall_cons_2 || apply Forall_nil_2); cbv -[Z.lt Z.le]; lia.
  - exists s'. repeat split; assumption.
Defined.

(** Two blocks on the small sender, reconfigured with two overlap frames,
    and the first sample of a third block. *)
Lemma cursors_between_blocks_witness :
  exists s0,
    SetFFTSizeAndOverlap 1 4 2 2 (small_state Rectangular Complex) = Ok s0 /\
    let s' :=
      foldl (fun s pkt => fst (PrepareDataForUI (TF := Small_Transform) 1 (s, pkt)))
            s0 [[[1; 1; 0; 0]%R]; [[0; 1; 0; 0]%R]] in
    cursors_at 0 s' /\
    let st :=
      for_range 1
        (fun sampleIdx st =>
           for_range (mOverlap (fst st))
             (fun stftFrameIdx st =>
                frame_step (TF := Small_Transform) 1 2 sampleIdx stftFrameIdx st) st)
        (s', [[1; 0; 0; 0]%R]) in
    cursors_at 1 (fst st) /\ mSTFTOutput (fst st) = mSTFTOutput s' /\
    snd st = [[1; 0; 0; 0]%R].
Proof.
  destruct (cursors_between_blocks (TF := Small_Transform) 1 4 2 2
              (small_state Rectangular Complex)
              [[[1; 1; 0; 0]%R]; [[0; 1; 0; 0]%R]]) as (s0 & Hs0 & (Hc & _) & Hq & _).
  - unfold INT_MAX. lia.
  - lia.
  - exists s0. split; [exact Hs0|]. split; [exact Hc|].
    apply (Hq [[1; 0; 0; 0]%R] 1). lia.
Defined.

(** One block on the small sender: channel 0 of the packet. *)
Lemma PrepareDataForUI_packet_is_output_witness :
  take (Z.to_nat 2)
       (default [] (snd (PrepareDataForUI (TF := Small_Transform) 1
                           (small_state Rectangular Complex, [[1; 1; 0; 0]%R])) !! 0%nat))
  = take (Z.to_nat 2)
         (default [] (mSTFTOutput
                        (fst (PrepareDataForUI (TF := Small_Transform) 1
                                (small_state Rectangular Complex, [[1; 1; 0; 0]%R])))
                      !! 0%nat)).
Proof.
  apply (PrepareDataForUI_packet_is_output (TF := Small_Transform) 1
           (small_state Rectangular Complex) [[1; 1; 0; 0]%R] 0).
  - cbv -[Z.lt Z.le]. lia.
  - cbv -[Z.lt Z.le]. lia.
  - reflexivity.
  - repeat (apply Forall_cons_2 || apply Forall_nil_2); reflexivity.
  - repeat (apply Forall_cons_2 || apply Forall_nil_2); cbv -[Z.lt Z.le]; lia.
  - lia.
  - cbn. lia.
  - cbn. lia.
Defined.

(** * Further properties of the window table, in exact arithmetic *)

Section WindowShape.

Local Open Scope R_scope.

(** X9.  The scaling factor is 0 at the transform size 2, where both Hann
    coefficients are 0 and the magnitude formula divides by zero, and it is
    positive from the size 3 on. *)
Theorem scaling_factor_sign (s : ISpectrumSender R) :
  (GetBufferSize s = 2%Z -> mScalingFactor (CalculateScalingFactors s) = 0) /\
  ((3 <= GetBufferSize s <= INT_MAX)%Z ->
   0 < mScalingFactor (CalculateScalingFactors s)).
Proof.
  split.
  - apply scaling_factor_size_2.
  - apply scaling_factor_positive.
Qed.

Lemma cos_turns_minus (k : nat) (y : R) : cos (2 * INR k * Rtrigo1.PI - y) = cos y.
Proof.
  replace (2 * INR k * Rtrigo1.PI - y) with (- y + 2 * INR k * Rtrigo1.PI) by ring.
  rewrite cos_period. apply cos_neg.
Qed.

(** The mirrored angle: [k pi (M - x) / M] is [k pi - k pi x / M]. *)
Lemma cos_mirror (k : nat) (x M : R) :
  M <> 0 ->
  cos (2 * INR k * Rtrigo1.PI * (M - x) / M) = cos (2 * INR k * Rtrigo1.PI * x / M).
Proof.
  intros HM.
  replace (2 * INR k * Rtrigo1.PI * (M - x) / M)
    with (2 * INR k * Rtrigo1.PI - 2 * INR k * Rtrigo1.PI * x / M) by (field; assumption).
  apply cos_turns_minus.
Qed.

Lemma spec_window_symmetric (w : EWindowType) (N i : Z) :
  (2 <= N)%Z -> spec_window w N (N - 1 - i) = spec_window w N i.
Proof.
  intros HN. unfold spec_window. cbv zeta.
  assert (HM : IZR (N - 1) <> 0) by (apply not_0_IZR; lia).
  rewrite (minus_IZR (N - 1) i).
  pose proof (cos_mirror 1 (IZR i) (IZR (N - 1)) HM) as H2.
  pose proof (cos_mirror 2 (IZR i) (IZR (N - 1)) HM) as H4.
  pose proof (cos_mirror 3 (IZR i) (IZR (N - 1)) HM) as H6.
  pose proof (cos_mirror 4 (IZR i) (IZR (N - 1)) HM) as H8.
  replace (2 * INR 1) with 2 in H2 by (simpl; lra).
  replace (2 * INR 2) with 4 in H4 by (simpl; lra).
  replace (2 * INR 3) with 6 in H6 by (simpl; lra).
  replace (2 * INR 4) with 8 in H8 by (simpl; lra).
  destruct w; rewrite ?H2, ?H4, ?H6, ?H8; reflexivity.
Qed.

(** X10.  From the transform size 2 on, the window table of every type is
    symmetric about its middle: the coefficient at the index [i] is the
    coefficient at the index [N - 1 - i]. *)
Theorem window_symmetric (s : ISpectrumSender R) (i : Z) :
  (2 <= GetBufferSize s <= INT_MAX)%Z ->
  (GetBufferSize s <= Z.of_nat (length (mWindow s)))%Z ->
  (0 <= i < GetBufferSize s)%Z ->
  mWindow (CalculateWindow s) !! Z.to_nat (GetBufferSize s - 1 - i)
  = mWindow (CalculateWindow s) !! Z.to_nat i.
Proof.
  intros HN Hlen Hi.
  rewrite !CalculateWindow_lookup by lia.
  rewrite spec_window_symmetric by lia. reflexivity.
Qed.

(** X11.  From the transform size 2 on, the Hann table begins and ends
    with 0: the first and the last sample of every frame are multiplied by
    0. *)
Theorem Hann_endpoints (s : ISpectrumSender R) :
  mWindowType s = Hann ->
  (2 <= GetBufferSize s <= INT_MAX)%Z ->
  (GetBufferSize s <= Z.of_nat (length (mWindow s)))%Z ->
  mWindow (CalculateWindow s) !! 0%nat = Some 0 /\
  mWindow (CalculateWindow s) !! Z.to_nat (GetBufferSize s - 1) = Some 0.
Proof.
  intros Hw HN Hlen.
  assert (H0 : spec_window Hann (GetBufferSize s) 0 = 0).
  { unfold spec_window. cbv zeta.
    replace (2 * Rtrigo1.PI * 0 / IZR (GetBufferSize s - 1)) with 0
      by (unfold Rdiv; ring).
    rewrite cos_0. lra. }
  split.
  - change 0%nat with (Z.to_nat 0).
    rewrite CalculateWindow_lookup, Hw by lia. f_equal. exact H0.
  - rewrite CalculateWindow_lookup, Hw by lia. f_equal.
    replace (GetBufferSize s - 1)%Z with (GetBufferSize s - 1 - 0)%Z at 1 by lia.
    rewrite spec_window_symmetric by lia. exact H0.
Qed.

End WindowShape.

(** The Flattop table of the small sender, mirrored. *)
Lemma window_symmetric_witness :
  mWindow (CalculateWindow (small_state Flattop MagPhase)) !! Z.to_nat (2 - 1 - 0)
  = mWindow (CalculateWindow (small_state Flattop MagPhase)) !! Z.to_nat 0.
Proof.
  apply (window_symmetric (small_state Flattop MagPhase) 0).
  - cbv -[Z.lt Z.le]. lia.
  - cbv -[Z.lt Z.le]. lia.
  - cbv -[Z.lt Z.le]. lia.
Defined.

(** The Hann table of the small sender. *)
Lemma Hann_endpoints_witness :
  mWindow (CalculateWindow (small_state Hann MagPhase)) !! 0%nat = Some 0%R /\
  mWindow (CalculateWindow (small_state Hann MagPhase)) !! Z.to_nat (2 - 1) = Some 0%R.
Proof.
  apply (Hann_endpoints (small_state Hann MagPhase)).
  - reflexivity.
  - cbv -[Z.lt Z.le]. lia.
  - cbv -[Z.lt Z.le]. lia.
Defined.

(** * The window table, the scaling factor and the magnitudes with the special values *)

Section SpecialValues.

Context {TF : Transform xfloat}.

Local Open Scope R_scope.

Lemma is_zero_false (r : R) : r <> 0 -> is_zero r = false.
Proof. intros Hr. unfold is_zero. destruct (Req_dec_T r 0); [contradiction|reflexivity]. Qed.

Lemma is_zero_true (r : R) : r = 0 -> is_zero r = true.
Proof. intros Hr. unfold is_zero. destruct (Req_dec_T r 0); [reflexivity|contradiction]. Qed.

Lemma is_negative_false (r : R) : 0 <= r -> is_negative r = false.
Proof. intros Hr. unfold is_negative. destruct (Rlt_dec r 0); [lra|reflexivity]. Qed.

(** A finite number divided by a finite number other than zero. *)
Lemma xdiv_finite (a b : R) : b <> 0 -> xdiv (Finite a) (Finite b) = Finite (a / b).
Proof. intros Hb. unfold xdiv. rewrite is_zero_false by assumption. reflexivity. Qed.

(** Zero divided by zero. *)
Lemma xdiv_zero_zero (a b : R) : a = 0 -> b = 0 -> xdiv (Finite a) (Finite b) = NaN.
Proof. intros Ha Hb. unfold xdiv. rewrite !is_zero_true by assumption. reflexivity. Qed.

Lemma xsqrt_finite (a : R) : 0 <= a -> xsqrt (Finite a) = Finite (sqrt a).
Proof. intros Ha. unfold xsqrt. rewrite is_negative_false by assumption. reflexivity. Qed.

(** With a divisor [M] other than zero, the terms of the window loops are
    the finite numbers of exact arithmetic. *)
Lemma window_term_finite (w : EWindowType) (M : R) (i : Z) :
  M <> 0 ->
  window_term (F := xfloat) w (Finite M) i = Finite (window_term (F := R) w M i).
Proof.
  intros HM. destruct w; unfold window_term;
    cbn [lit of_int PI fadd fsub fmul fdiv fcos X_Scalar xadd xsub xmul xcos];
    rewrite ?xdiv_finite by assumption;
    cbn [xadd xsub xmul xcos]; reflexivity.
Qed.

Lemma Q2R_small :
  Q2R 0 = 0 /\ Q2R 1 = 1 /\ Q2R 2 = 2 /\ Q2R 4 = 4 /\ Q2R 6 = 6 /\ Q2R 8 = 8.
Proof. unfold Q2R. cbn. repeat split; lra. Qed.

(** In exact arithmetic they are the formulas of the specification. *)
Lemma window_term_spec (w : EWindowType) (N i : Z) :
  window_term (F := R) w (IZR (N - 1)) i = spec_window w N i.
Proof.
  destruct Q2R_small as (_ & H1 & H2 & H4 & H6 & H8).
  destruct w; unfold window_term, spec_window; cbv zeta;
    cbn [lit of_int PI fadd fsub fmul fdiv fcos R_Scalar];
    rewrite ?H1, ?H2, ?H4, ?H6, ?H8; try reflexivity.
  replace (Rtrigo1.PI * 2 * IZR i / IZR (N - 1))
    with (2 * Rtrigo1.PI * IZR i / IZR (N - 1)) by (unfold Rdiv; ring).
  reflexivity.
Qed.

(** The coefficient that [CalculateWindow] stores at an index below the
    transform size: from the size 2 on, and for the Rectangular type at
    every size, it is the finite number of the formula. *)
Lemma xCalculateWindow_lookup (s : ISpectrumSender xfloat) (i : Z) :
  (0 <= i < GetBufferSize s)%Z ->
  (GetBufferSize s <= INT_MAX)%Z ->
  (GetBufferSize s <= Z.of_nat (length (mWindow s)))%Z ->
  mWindowType s = Rectangular \/ (2 <= GetBufferSize s)%Z ->
  mWindow (CalculateWindow s) !! Z.to_nat i
  = Some (Finite (spec_window (mWindowType s) (GetBufferSize s) i)).
Proof.
  intros Hi Hmax Hlen Hdom. rewrite CalculateWindow_entries.
  rewrite wrap32_id by (unfold INT_MIN, INT_MAX in *; lia).
  destruct (mWindowType s) eqn:Hw;
    try (destruct Hdom as [Hr|HN]; [discriminate|];
         rewrite decide_True by lia;
         change (of_int (GetBufferSize s - 1)) with (Finite (IZR (GetBufferSize s - 1)));
         rewrite window_term_finite by (apply not_0_IZR; lia);
         rewrite Z2Nat.id by lia; rewrite window_term_spec; reflexivity).
  rewrite decide_True by lia. unfold spec_window.
  change (lit 1) with (Finite (Q2R 1)).
  destruct Q2R_small as (_ & -> & _). reflexivity.
Qed.

(** C3, as amended.  In arithmetic without rounding, for every window type
    and a transform size [N >= 2] that fits the window table, the
    coefficient that [CalculateWindow] stores at each index [i < N] is the
    finite number of the formula of the specification for that type, with
    [M = N - 1]: Hann [0.5 (1 - cos (2 pi i / M))], Hamming
    [0.54 - 0.46 cos (2 pi i / M)], the four-term and five-term cosine sums
    of Blackman-Harris and Flattop; for Rectangular it is the constant 1 at
    every size. *)
Theorem CalculateWindow_formula (s : ISpectrumSender xfloat) (i : Z) :
  (0 <= i < GetBufferSize s)%Z ->
  (GetBufferSize s <= INT_MAX)%Z ->
  (GetBufferSize s <= Z.of_nat (length (mWindow s)))%Z ->
  mWindowType s = Rectangular \/ (2 <= GetBufferSize s)%Z ->
  mWindow (CalculateWindow s) !! Z.to_nat i
  = Some (Finite
            (match mWindowType s with
             | Hann =>
                 0.5 * (1 - cos (2 * Rtrigo1.PI * IZR i / IZR (GetBufferSize s - 1)))
             | Hamming =>
                 0.54 - 0.46 * cos (2 * Rtrigo1.PI * IZR i / IZR (GetBufferSize s - 1))
             | BlackmanHarris =>
                 0.35875
                 - 0.48829 * cos (2 * Rtrigo1.PI * IZR i / IZR (GetBufferSize s - 1))
                 + 0.14128 * cos (4 * Rtrigo1.PI * IZR i / IZR (GetBufferSize s - 1))
                 - 0.01168 * cos (6 * Rtrigo1.PI * IZR i / IZR (GetBufferSize s - 1))
             | Flattop =>
                 0.21557895
                 - 0.41663158 * cos (2 * Rtrigo1.PI * IZR i / IZR (GetBufferSize s - 1))
                 + 0.277263158 * cos (4 * Rtrigo1.PI * IZR i / IZR (GetBufferSize s - 1))
                 - 0.083578947 * cos (6 * Rtrigo1.PI * IZR i / IZR (GetBufferSize s - 1))
                 + 0.006947368 * cos (8 * Rtrigo1.PI * IZR i / IZR (GetBufferSize s - 1))
             | Rectangular => 1
             end)).
Proof.
  intros Hi Hmax Hlen Hdom. rewrite xCalculateWindow_lookup by assumption.
  destruct (mWindowType s); reflexivity.
Qed.

(** C4, as amended.  In arithmetic without rounding, for a transform size
    [N >= 2] that fits the window table, every coefficient of the table at
    an index [i < N] is a finite number; for the Hann, Hamming and
    Blackman-Harris types it lies in [0, 1], for the Flattop type in
    [-0.0706, 1.000000003], where it need not be in [0, 1]; for the
    Rectangular type it is exactly 1, at every size. *)
Theorem window_coefficients_range (s : ISpectrumSender xfloat) (i : Z) :
  (0 <= i < GetBufferSize s)%Z ->
  (GetBufferSize s <= INT_MAX)%Z ->
  (GetBufferSize s <= Z.of_nat (length (mWindow s)))%Z ->
  mWindowType s = Rectangular \/ (2 <= GetBufferSize s)%Z ->
  exists c : R,
    mWindow (CalculateWindow s) !! Z.to_nat i = Some (Finite c) /\
    match mWindowType s with
    | Hann | Hamming | BlackmanHarris => 0 <= c <= 1
    | Flattop => -0.0706 <= c <= 1.000000003
    | Rectangular => c = 1
    end.
Proof.
  intros Hi Hmax Hlen Hdom.
  exists (spec_window (mWindowType s) (GetBufferSize s) i).
  split; [apply xCalculateWindow_lookup; assumption|].
  pose proof (spec_window_range (mWindowType s) (GetBufferSize s) i) as Hr.
  unfold window_range in Hr. destruct (mWindowType s); exact Hr.
Qed.

(** From the size 2 on the loop of [CalculateScalingFactors] adds finite
    numbers: the scaling factor is the finite number of exact arithmetic. *)
Lemma xscaling_factor (s : ISpectrumSender xfloat) :
  (2 <= GetBufferSize s <= INT_MAX)%Z ->
  mScalingFactor (CalculateScalingFactors s) = Finite (spec_scaling (GetBufferSize s)).
Proof.
  intros HN. unfold CalculateScalingFactors. cbn [mScalingFactor set_mScalingFactor].
  set (N := GetBufferSize s) in *.
  rewrite wrap32_id by (unfold INT_MIN, INT_MAX in *; lia).
  destruct Q2R_small as (H0 & H1 & H2 & _).
  assert (Hloop :
    for_range N
      (fun (i : Z) (scaling : xfloat) =>
         (scaling ⊕ lit 0.5 ⊗ (lit 1 ⊖ fcos (lit 2 ⊗ PI ⊗ of_int i ⊘ of_int (N - 1))))%flt)
      (lit 0)
    = Finite (for_range N (fun i acc => acc + spec_window Hann N i) 0)).
  { apply (for_range_rel (fun (a : xfloat) (b : R) => a = Finite b)).
    - cbn [lit X_Scalar]. rewrite H0. reflexivity.
    - intros i a b _ ->.
      cbn [lit of_int PI fadd fsub fmul fdiv fcos X_Scalar xmul].
      rewrite xdiv_finite by (apply not_0_IZR; lia).
      cbn [xadd xsub xmul xcos]. unfold spec_window. cbv zeta.
      rewrite H1, H2. reflexivity. }
  rewrite Hloop. cbn [fmul X_Scalar xmul]. f_equal.
  unfold for_range. rewrite foldl_Rplus. unfold spec_scaling. lra.
Qed.

(** C2, as amended.  In arithmetic without rounding, for a transform size
    [N >= 2] within the window table, the scaling factor that
    [CalculateScalingFactors] computes is a finite number: the square of
    the sum, over [i] in [0, N), of the Hann coefficients
    [0.5 (1 - cos (2 pi i / (N - 1)))], which are the first [N] entries of
    the Hann window table; it is the same whatever window type is
    selected. *)
Theorem scaling_factor_Hann_sum (s : ISpectrumSender xfloat) :
  (2 <= GetBufferSize s <= INT_MAX)%Z ->
  (GetBufferSize s <= Z.of_nat (length (mWindow s)))%Z ->
  let N := GetBufferSize s in
  let hann :=
    (fun i => 0.5 * (1 - cos (2 * Rtrigo1.PI * IZR i / IZR (N - 1)))) <$> seqZ 0 N in
  mScalingFactor (CalculateScalingFactors s) = Finite (Rsum hann * Rsum hann) /\
  take (Z.to_nat N) (mWindow (CalculateWindow (set_mWindowType Hann s)))
  = Finite <$> hann /\
  forall w,
    mScalingFactor (CalculateScalingFactors (set_mWindowType w s))
    = mScalingFactor (CalculateScalingFactors s).
Proof.
  intros HN Hlen. cbv zeta. split; [|split; [|reflexivity]].
  - rewrite xscaling_factor by assumption. reflexivity.
  - apply list_eq. intros j.
    destruct (decide (j < Z.to_nat (GetBufferSize s))%nat) as [Hj|Hj].
    + rewrite lookup_take_lt by assumption.
      rewrite !list_lookup_fmap, lookup_seqZ_lt by lia.
      cbn [fmap option_fmap option_map].
      pose proof (xCalculateWindow_lookup (set_mWindowType Hann s) (Z.of_nat j)) as Hl.
      change (GetBufferSize (set_mWindowType Hann s)) with (GetBufferSize s) in Hl.
      change (mWindow (set_mWindowType Hann s)) with (mWindow s) in Hl.
      rewrite Nat2Z.id in Hl. rewrite Hl; [reflexivity|lia|lia|assumption|right; lia].
    + rewrite lookup_take_ge by lia.
      rewrite !list_lookup_fmap, lookup_seqZ_ge by lia. reflexivity.
Qed.

(** The sum of the two Hann coefficients of the size 2 is zero. *)
Lemma spec_scaling_2 : spec_scaling 2 = 0.
Proof.
  unfold spec_scaling. change (seqZ 0 2) with [0%Z; 1%Z].
  unfold Rsum, spec_window. cbn [fmap list_fmap foldr]. cbv zeta.
  change (2 - 1)%Z with 1%Z.
  replace (2 * Rtrigo1.PI * 0 / 1) with 0 by lra.
  replace (2 * Rtrigo1.PI * 1 / 1) with (2 * Rtrigo1.PI) by lra.
  rewrite cos_0, cos_2PI. lra.
Qed.

(** In exact arithmetic the sum of the Hann coefficients is positive from
    the size 3 on. *)
Lemma spec_scaling_positive (N : Z) : (3 <= N <= INT_MAX)%Z -> 0 < spec_scaling N.
Proof.
  intros HN.
  pose (sR := mkSender (F := R) N 0 Hann Complex [] [] [] 0).
  pose proof (scaling_factor_positive sR HN) as Hpos.
  replace (mScalingFactor (CalculateScalingFactors sR)) with (spec_scaling N) in Hpos;
    [exact Hpos|].
  unfold CalculateScalingFactors, spec_scaling, for_range.
  cbn [mScalingFactor set_mScalingFactor GetBufferSize mBufferSize sR].
  destruct Q2R_small as (H0 & H1 & H2 & _).
  cbn [lit of_int PI fadd fsub fmul fdiv fcos R_Scalar].
  rewrite H0, H1, H2.
  rewrite foldl_Rplus.
  rewrite wrap32_id by (unfold INT_MIN, INT_MAX in *; lia).
  change (Rsum ((fun i => 0.5 * (1 - cos (2 * Rtrigo1.PI * IZR i / IZR (N - 1))))
                  <$> seqZ 0 N))
    with (Rsum (spec_window Hann N <$> seqZ 0 N)).
  lra.
Qed.

(** X21.  The scaling factor by transform size, in arithmetic without
    rounding: NaN at the size 1, zero at the size 2, and a positive number
    from the size 3 on.  The division of the magnitude formula is a
    division by a positive number from the valid size 4 on. *)
Theorem scaling_factor_by_size (s : ISpectrumSender xfloat) :
  (GetBufferSize s = 1%Z -> mScalingFactor (CalculateScalingFactors s) = NaN) /\
  (GetBufferSize s = 2%Z -> mScalingFactor (CalculateScalingFactors s) = Finite 0) /\
  ((3 <= GetBufferSize s <= INT_MAX)%Z ->
   exists sf : R, mScalingFactor (CalculateScalingFactors s) = Finite sf /\ 0 < sf).
Proof.
  split; [|split].
  - intros HN. unfold CalculateScalingFactors. cbn [mScalingFactor set_mScalingFactor].
    rewrite HN. change (wrap32 (1 - 1)) with 0%Z.
    unfold for_range. change (seqZ 0 1) with [0%Z]. cbn [foldl].
    cbn [lit of_int PI fadd fsub fmul fdiv fcos X_Scalar xmul].
    rewrite xdiv_zero_zero by (reflexivity || ring). reflexivity.
  - intros HN. rewrite xscaling_factor by (rewrite HN; unfold INT_MAX; lia).
    rewrite HN, spec_scaling_2. reflexivity.
  - intros HN. rewrite xscaling_factor by lia.
    eexists. split; [reflexivity|]. apply spec_scaling_positive. exact HN.
Qed.

(** C5, as amended.  In arithmetic without rounding, in magnitude mode, for
    a transform size [N] that fits the output row of the channel, a
    scaling factor that is a positive number and a transformed bin with
    finite parts [x] and [y] at the permuted position of [i < N]: [Permute]
    leaves at the output index [i] the finite number
    [sqrt (2 (x^2 + y^2) / scalingFactor)], which is the non-negative root
    of a non-negative number. *)
Theorem Permute_magnitude_output (ch i : Z) (frame : STFTFrame xfloat)
    (s : ISpectrumSender xfloat) (sf x y : R) :
  mOutputType s = MagPhase ->
  (0 <= ch < Z.of_nat (length (mSTFTOutput s)))%Z ->
  (0 <= i < GetBufferSize s)%Z ->
  (GetBufferSize s <= Z.of_nat (length (rd [] (mSTFTOutput s) ch)))%Z ->
  mScalingFactor s = Finite sf -> 0 < sf ->
  rd2 czero (bins (fst (Permute ch frame s))) ch (WDL_fft_permute (GetBufferSize s) i)
  = mkComplex (Finite x) (Finite y) ->
  let v := sqrt (2 * (x * x + y * y) / sf) in
  bins (fst (Permute ch frame s))
  = alter (fft_in_place (GetBufferSize s)) (Z.to_nat ch) (bins frame) /\
  at2 (mSTFTOutput (snd (Permute ch frame s))) ch i = Some (Finite v) /\
  0 <= v /\
  v * v = 2 * (x * x + y * y) / sf.
Proof.
  intros Hmode Hch Hi Hlen Hsf Hpos Hbin. cbv zeta.
  assert (Harg : 0 <= 2 * (x * x + y * y) / sf).
  { unfold Rdiv. apply Rmult_le_pos; [nra|].
    left. apply Rinv_0_lt_compat. exact Hpos. }
  rewrite Permute_bins in Hbin |- *.
  rewrite (Permute_MagPhase ch frame s Hmode).
  cbn [bins set_bins mSTFTOutput set_mSTFTOutput] in Hbin |- *.
  split; [reflexivity|]. split; [|split; [apply sqrt_pos|apply sqrt_sqrt; exact Harg]].
  rewrite at2_alter by lia.
  match goal with
  | |- context [for_range ?n (fun i r => wr r i (@?f i)) ?row] =>
      destruct (for_range_wr f n row) as (_ & Hrow & _); [lia|]
  end.
  rewrite (Hrow i Hi). cbv beta zeta. rewrite Hbin, Hsf. cbn [re im].
  destruct Q2R_small as (_ & _ & H2 & _).
  cbn [lit fadd fmul fdiv fsqrt X_Scalar xadd xmul].
  rewrite xdiv_finite by lra. rewrite H2.
  rewrite xsqrt_finite by exact Harg. reflexivity.
Qed.

End SpecialValues.

(** ** The singular sizes *)

Local Open Scope R_scope.

(** With the divisor zero, the first term of every cosine window is NaN:
    its angle is [0 / 0]. *)
Lemma window_term_singular (w : EWindowType) :
  w <> Rectangular -> window_term (F := xfloat) w (Finite 0) 0 = NaN.
Proof.
  intros Hw. destruct w; try contradiction; unfold window_term;
    cbn [lit of_int PI fadd fsub fmul fdiv fcos X_Scalar xmul];
    rewrite !xdiv_zero_zero by (reflexivity || ring); reflexivity.
Qed.

(** The sender of [xsmall_sender], written as the calls of the
    constructor. *)
Lemma xsmall_sender_eq (fftSize : Z) (w : EWindowType) (o : EOutputType) :
  valid_size 4 fftSize ->
  exists s1,
    SetFFTSize 1 4
      (SetBufferSize fftSize
         (set_mOverlap 2
            (mkSender fftSize 2 w o [Finite 0; Finite 0; Finite 0; Finite 0] []
                      [[Finite 0; Finite 0; Finite 0; Finite 0]] (lit 0))))
    = Ok s1 /\
    xsmall_sender fftSize w o = Ok (CalculateScalingFactors (CalculateWindow s1)).
Proof.
  intros Hv. unfold xsmall_sender.
  destruct (construct_checks 1 4 [Finite 0; Finite 0; Finite 0; Finite 0]
              [[Finite 0; Finite 0; Finite 0; Finite 0]] fftSize 2 w o) as [_ Hc].
  { destruct Hv as [_ Hr]. unfold INT_MIN, INT_MAX. lia. }
  rewrite (Hc Hv).
  apply (SetFFTSizeAndOverlap_returns 1 4 fftSize 2). lia.
Qed.

(** C3 (counterexample).  The size 1 is a valid size.  The sender
    constructed with it and the Hann window holds NaN as its one window
    coefficient, and no number: the angle of the cosine is [0 / 0]. *)
Lemma Hann_coefficient_NaN :
  valid_size 4 1 /\
  exists s,
    xsmall_sender 1 Hann MagPhase = Ok s /\
    GetBufferSize s = 1%Z /\
    mWindow s !! 0%nat = Some NaN /\
    forall c : R, mWindow s !! 0%nat <> Some (Finite c).
Proof.
  assert (Hv : valid_size 4 1) by (split; [exists 0%Z; split; [lia|reflexivity]|lia]).
  split; [exact Hv|].
  destruct (xsmall_sender_eq 1 Hann MagPhase Hv) as (s1 & H1 & ->).
  rewrite SetFFTSize_returns in H1 by (cbn; lia). injection H1 as <-.
  eexists. split; [reflexivity|].
  match goal with
  | |- _ /\ ?w = Some NaN /\ _ => assert (Hw : w = Some NaN)
  end.
  2:{ split; [reflexivity|]. split; [exact Hw|]. intros c Hc.
      rewrite Hw in Hc. discriminate. }
  unfold CalculateScalingFactors. cbn [mWindow set_mScalingFactor].
  rewrite CalculateWindow_entries.
  cbn [mWindowType set_mSTFTOutput set_mSTFTFrames SetBufferSize set_mBufferSize
       set_mOverlap GetBufferSize mBufferSize mWindow].
  rewrite decide_True by (cbn; lia).
  change (wrap32 (1 - 1)) with 0%Z. change (Z.of_nat 0) with 0%Z.
  change (of_int 0) with (Finite 0).
  rewrite window_term_singular by discriminate. reflexivity.
Qed.

(** C2 (counterexample).  At the valid size 1 the scaling factor of the
    constructed sender is NaN, and no number: the one term of its sum is the
    Hann formula with the angle [0 / 0]. *)
Lemma scaling_factor_NaN :
  valid_size 4 1 /\
  exists s,
    xsmall_sender 1 Hann MagPhase = Ok s /\
    GetBufferSize s = 1%Z /\
    mScalingFactor s = NaN /\
    forall r : R, mScalingFactor s <> Finite r.
Proof.
  assert (Hv : valid_size 4 1) by (split; [exists 0%Z; split; [lia|reflexivity]|lia]).
  split; [exact Hv|].
  destruct (xsmall_sender_eq 1 Hann MagPhase Hv) as (s1 & H1 & ->).
  rewrite SetFFTSize_returns in H1 by (cbn; lia). injection H1 as <-.
  eexists. split; [reflexivity|].
  match goal with
  | |- _ /\ ?x = NaN /\ _ => assert (Hx : x = NaN)
  end.
  2:{ split; [reflexivity|]. split; [exact Hx|]. intros r Hr.
      rewrite Hx in Hr. discriminate. }
  unfold CalculateScalingFactors. cbn [mScalingFactor set_mScalingFactor].
  change (GetBufferSize (CalculateWindow _)) with 1%Z.
  change (wrap32 (1 - 1)) with 0%Z.
  unfold for_range. change (seqZ 0 1) with [0%Z]. cbn [foldl].
  cbn [lit of_int PI fadd fsub fmul fdiv fcos X_Scalar xmul].
  rewrite xdiv_zero_zero by (reflexivity || ring). reflexivity.
Qed.

(** C5 (counterexample).  The size 2 is a valid size.  The scaling factor of
    the sender constructed with it is zero, and when a frame of silence
    completes, the magnitude at the index 0 is the square root of [0 / 0]:
    NaN, which is no number and not a non-negative one. *)
Lemma magnitude_of_silence_NaN :
  valid_size 4 2 /\
  exists s,
    xsmall_sender 2 Hann MagPhase = Ok s /\
    mOutputType s = MagPhase /\
    mScalingFactor s = Finite 0 /\
    at2 (mSTFTOutput
           (snd (Permute (TF := Small_Transform) 0
                         (mkFrame 0%Z [[czero; czero; czero; czero]]) s))) 0 0
    = Some NaN.
Proof.
  assert (Hv : valid_size 4 2) by (split; [exists 1%Z; split; [lia|reflexivity]|lia]).
  split; [exact Hv|].
  destruct (xsmall_sender_eq 2 Hann MagPhase Hv) as (s1 & H1 & ->).
  rewrite SetFFTSize_returns in H1 by (cbn; lia). injection H1 as <-.
  eexists. split; [reflexivity|].
  match goal with
  | |- mOutputType ?s = _ /\ _ => set (s2 := s)
  end.
  assert (Hmode : mOutputType s2 = MagPhase) by reflexivity.
  assert (Hsf : mScalingFactor s2 = Finite 0).
  { unfold s2. rewrite xscaling_factor by (cbv -[Z.le]; lia).
    change (GetBufferSize _) with 2%Z. rewrite spec_scaling_2. reflexivity. }
  split; [exact Hmode|]. split; [exact Hsf|].
  rewrite (Permute_MagPhase (TF := Small_Transform) 0 _ s2 Hmode).
  cbn [mSTFTOutput set_mSTFTOutput].
  rewrite at2_alter by (cbv -[Z.le Z.lt]; lia).
  match goal with
  | |- context [for_range ?n (fun i r => wr r i (@?f i)) ?row] =>
      destruct (for_range_wr f n row) as (_ & Hrow & _);
      [cbv -[Z.le Z.lt]; lia|]
  end.
  rewrite (Hrow 0%Z) by (cbv -[Z.le Z.lt]; lia). cbv beta zeta. rewrite Hsf.
  f_equal.
  change (GetBufferSize s2) with 2%Z.
  cbv -[Rplus Rminus Rmult Rdiv Q2R IZR xdiv xsqrt].
  rewrite xdiv_zero_zero; [reflexivity| |reflexivity].
  destruct Q2R_small as (-> & _). ring.
Qed.

(** ** The theorems at the small sender, with the special values *)

(** The Hamming coefficient at the index 1 of the small sender. *)
Lemma CalculateWindow_formula_witness :
  mWindow (CalculateWindow (xsmall_state Hamming MagPhase)) !! 1%nat
  = Some (Finite (0.54 - 0.46 * cos (2 * Rtrigo1.PI * 1 / 1))).
Proof.
  apply (CalculateWindow_formula (xsmall_state Hamming MagPhase) 1).
  - cbv -[Z.lt Z.le]. lia.
  - cbv -[Z.lt Z.le]. lia.
  - cbv -[Z.lt Z.le]. lia.
  - right. cbv -[Z.lt Z.le]. lia.
Defined.

(** The scaling factor of the small sender, with the Flattop and with the
    Rectangular window selected. *)
Lemma scaling_factor_Hann_sum_witness :
  mScalingFactor (CalculateScalingFactors (xsmall_state Flattop MagPhase))
  = Finite
      (Rsum ((fun i => 0.5 * (1 - cos (2 * Rtrigo1.PI * IZR i / 1))) <$> seqZ 0 2)
       * Rsum ((fun i => 0.5 * (1 - cos (2 * Rtrigo1.PI * IZR i / 1))) <$> seqZ 0 2)) /\
  mScalingFactor
    (CalculateScalingFactors (set_mWindowType Rectangular (xsmall_state Flattop MagPhase)))
  = mScalingFactor (CalculateScalingFactors (xsmall_state Flattop MagPhase)).
Proof.
  destruct (scaling_factor_Hann_sum (xsmall_state Flattop MagPhase)) as (Hsum & _ & Hw).
  - cbv -[Z.lt Z.le]. lia.
  - cbv -[Z.lt Z.le]. lia.
  - split; [exact Hsum|apply Hw].
Defined.

(** The Blackman-Harris coefficient at the index 1 of the small sender. *)
Lemma window_coefficients_range_witness :
  exists c : R,
    mWindow (CalculateWindow (xsmall_state BlackmanHarris MagPhase)) !! 1%nat
    = Some (Finite c) /\
    0 <= c <= 1.
Proof.
  apply (window_coefficients_range (xsmall_state BlackmanHarris MagPhase) 1).
  - cbv -[Z.lt Z.le]. lia.
  - cbv -[Z.lt Z.le]. lia.
  - cbv -[Z.lt Z.le]. lia.
  - right. cbv -[Z.lt Z.le]. lia.
Defined.

(** Magnitude output of the small sender, with the scaling factor 1, for a
    frame holding the samples 3, 1: the bin at the index 1 is [3 - 1]. *)
Lemma Permute_magnitude_output_witness :
  at2 (mSTFTOutput
         (snd (Permute (TF := Small_Transform) 0
                       (mkFrame 0%Z [[mkComplex (Finite 3) (Finite 0);
                                      mkComplex (Finite 1) (Finite 0); czero; czero]])
                       (xsmall_state Hann MagPhase)))) 0 1
  = Some (Finite (sqrt (2 * ((3 - 1) * (3 - 1) + (0 - 0) * (0 - 0)) / 1))) /\
  0 <= sqrt (2 * ((3 - 1) * (3 - 1) + (0 - 0) * (0 - 0)) / 1).
Proof.
  destruct (Permute_magnitude_output (TF := Small_Transform) 0 1
              (mkFrame 0%Z [[mkComplex (Finite 3) (Finite 0);
                             mkComplex (Finite 1) (Finite 0); czero; czero]])
              (xsmall_state Hann MagPhase) 1 (3 - 1) (0 - 0))
    as (_ & Hv & Hpos & _).
  - reflexivity.
  - cbv -[Z.lt Z.le]. lia.
  - cbv -[Z.lt Z.le]. lia.
  - cbv -[Z.lt Z.le]. lia.
  - reflexivity.
  - lra.
  - reflexivity.
  - split; assumption.
Defined.

(** * Properties of the analyzer control *)

Local Open Scope Z_scope.

Section ControlProperties.

Context {F : Type} {SF : Scalar F} {SL : ScalarLog F}.
Variable MAXNC : Z.
Variable MAX_FFT_SIZE : Z.

Import Control.

(** X12.  [SetFFTSize] of the control fails an assertion unless
    [0 < fftSize <= MAX_FFT_SIZE]; it does not ask for a power of two, so
    it accepts every size that the sender accepts.  When it succeeds it
    stores the size, clears the X and Y points of every channel and keeps
    the ranges. *)
Theorem Control_SetFFTSize_spec (fftSize : Z) (c : IVSpectrumAnalyzerControl F) :
  (~ 0 < fftSize <= MAX_FFT_SIZE ->
   SetFFTSize MAXNC MAX_FFT_SIZE fftSize c = AssertionFailed) /\
  (0 < fftSize <= MAX_FFT_SIZE ->
   exists c',
     SetFFTSize MAXNC MAX_FFT_SIZE fftSize c = Ok c' /\
     mFFTSize c' = fftSize /\
     (forall ch, 0 <= ch < MAXNC ->
        rd [] (mXPoints c') ch = [] /\ rd [] (mYPoints c') ch = []) /\
     mLogXLo c' = mLogXLo c /\ mLogXHi c' = mLogXHi c /\
     mLogYLo c' = mLogYLo c /\ mLogYHi c' = mLogYHi c /\
     mFreqLo c' = mFreqLo c /\ mFreqHi c' = mFreqHi c) /\
  (valid_size MAX_FFT_SIZE fftSize -> 0 < fftSize <= MAX_FFT_SIZE).
Proof.
  split; [|split].
  - intros Hbad. unfold SetFFTSize.
    destruct (Z.gtb_spec fftSize 0); cbn [negb]; [|reflexivity].
    destruct (Z.leb_spec fftSize MAX_FFT_SIZE); cbn [negb]; [lia|reflexivity].
  - intros Hok. unfold SetFFTSize.
    destruct (Z.gtb_spec fftSize 0); cbn [negb]; [|lia].
    destruct (Z.leb_spec fftSize MAX_FFT_SIZE); cbn [negb]; [|lia].
    eexists. split; [reflexivity|].
    destruct (Z.le_gt_cases 0 MAXNC) as [HNC|HNC].
    2:{ rewrite for_range_nonpos by lia. cbn.
        repeat split; lia. }
    pose (P := fun (m : Z) (a : IVSpectrumAnalyzerControl F) =>
      mFFTSize a = fftSize /\
      (forall ch, 0 <= ch < m ->
         rd [] (mXPoints a) ch = [] /\ rd [] (mYPoints a) ch = []) /\
      mLogXLo a = mLogXLo c /\ mLogXHi a = mLogXHi c /\
      mLogYLo a = mLogYLo c /\ mLogYHi a = mLogYHi c /\
      mFreqLo a = mFreqLo c /\ mFreqHi a = mFreqHi c).
    apply (for_range_ind P); [assumption| |]; unfold P; clear P.
    + cbn. repeat split; lia.
    + intros m a Hm (Hs & Hpts & Hrest).
      cbn [mFFTSize mXPoints mYPoints set_mXPoints set_mYPoints mLogXLo mLogXHi
           mLogYLo mLogYHi mFreqLo mFreqHi].
      split; [assumption|]. split; [|assumption].
      intros ch Hch. unfold rd.
      destruct (Z.eq_dec ch m) as [->|Hne].
      * rewrite !list_lookup_alter_eq.
        destruct (mXPoints a !! Z.to_nat m), (mYPoints a !! Z.to_nat m);
          split; reflexivity.
      * rewrite !list_lookup_alter_ne by lia. apply Hpts. lia.
  - intros [_ Hr]. exact Hr.
Qed.





End ControlProperties.

(** ** The ranges of the control, in exact arithmetic *)

Section ControlRanges.

Import Control.

Local Open Scope R_scope.

Lemma fltb_R (a b : R) : fltb a b = true <-> a < b.
Proof. cbn. destruct (Rlt_dec a b); split; intros; try discriminate; tauto. Qed.

Lemma fleb_R (a b : R) : fleb a b = true <-> a <= b.
Proof. cbn. destruct (Rle_dec a b); split; intros; try discriminate; tauto. Qed.

Lemma fltb_R_false (a b : R) : fltb a b = false <-> ~ a < b.
Proof. rewrite <- fltb_R. destruct (fltb a b); split; intros; try discriminate; tauto. Qed.

Lemma fleb_R_false (a b : R) : fleb a b = false <-> ~ a <= b.
Proof. rewrite <- fleb_R. destruct (fleb a b); split; intros; try discriminate; tauto. Qed.

Lemma SetFreqRange_cases (freqLo freqHi sampleRate : R)
    (c : IVSpectrumAnalyzerControl R) :
  (~ (0 <= freqLo /\ freqLo < freqHi /\ freqHi < sampleRate / 2) ->
   SetFreqRange freqLo freqHi sampleRate c = AssertionFailed) /\
  (0 <= freqLo /\ freqLo < freqHi /\ freqHi < sampleRate / 2 ->
   SetFreqRange freqLo freqHi sampleRate c
   = Ok (mkControl (mFFTSize c)
                   (ln (freqLo / (sampleRate / 2))) (ln (freqHi / (sampleRate / 2)))
                   (mLogYLo c) (mLogYHi c) freqLo freqHi (mXPoints c) (mYPoints c))).
Proof.
  unfold SetFreqRange. cbv zeta.
  change (@fdiv R R_Scalar) with Rdiv. change (@flog R R_ScalarLog) with ln.
  replace (@lit R R_Scalar 2) with 2 by (cbn; lra).
  replace (@lit R R_Scalar 0) with 0 by (cbn; lra).
  destruct (fltb freqHi (sampleRate / 2)) eqn:E1; cbn [negb].
  2:{ apply fltb_R_false in E1. split; [reflexivity|]. intros (_ & _ & H). tauto. }
  apply fltb_R in E1.
  destruct (fleb 0 freqLo) eqn:E2; cbn [negb].
  2:{ apply fleb_R_false in E2. split; [reflexivity|]. intros (H & _ & _). tauto. }
  apply fleb_R in E2.
  destruct (fltb freqLo freqHi) eqn:E3; cbn [negb].
  2:{ apply fltb_R_false in E3. split; [reflexivity|]. intros (_ & H & _). tauto. }
  apply fltb_R in E3.
  split; [intros Hbad; exfalso; apply Hbad; auto|reflexivity].
Qed.

(** X15.  In exact arithmetic [SetFreqRange] fails an assertion unless
    [0 <= freqLo < freqHi < sampleRate / 2].  With [0 < freqLo] in that
    range it stores the two frequencies and the logarithms of their ratios
    to the Nyquist frequency, and keeps the rest.  The assertions also pass
    at [freqLo = 0]: the call returns with the two frequencies stored and
    the other members kept; the logarithm of the low end, which is the
    logarithm of 0 there, is left out of the statement. *)
Theorem Control_SetFreqRange_checks (freqLo freqHi sampleRate : R)
    (c : IVSpectrumAnalyzerControl R) :
  (~ (0 <= freqLo /\ freqLo < freqHi /\ freqHi < sampleRate / 2) ->
   SetFreqRange freqLo freqHi sampleRate c = AssertionFailed) /\
  (0 < freqLo /\ freqLo < freqHi /\ freqHi < sampleRate / 2 ->
   SetFreqRange freqLo freqHi sampleRate c
   = Ok (mkControl (mFFTSize c)
                   (ln (freqLo / (sampleRate / 2))) (ln (freqHi / (sampleRate / 2)))
                   (mLogYLo c) (mLogYHi c) freqLo freqHi (mXPoints c) (mYPoints c))) /\
  (0 <= freqLo /\ freqLo < freqHi /\ freqHi < sampleRate / 2 ->
   exists c',
     SetFreqRange freqLo freqHi sampleRate c = Ok c' /\
     mFreqLo c' = freqLo /\ mFreqHi c' = freqHi /\
     mLogXHi c' = ln (freqHi / (sampleRate / 2)) /\
     mFFTSize c' = mFFTSize c /\
     mLogYLo c' = mLogYLo c /\ mLogYHi c' = mLogYHi c /\
     mXPoints c' = mXPoints c /\ mYPoints c' = mYPoints c).
Proof.
  destruct (SetFreqRange_cases freqLo freqHi sampleRate c) as [Hbad Hok].
  split; [exact Hbad|]. split.
  - intros (Hlo & Hlt & Hny). apply Hok. repeat split; lra.
  - intros Hrange. eexists. split; [apply Hok; exact Hrange|].
    repeat split.
Qed.

Lemma ln_10_pos : 0 < ln 10.
Proof. rewrite <- ln_1. apply ln_increasing; lra. Qed.

(** X16.  After [SetFreqRange] with [0 < freqLo], [CalcXNorm] maps the
    frequency ratio [freqLo / nyquist] to 0 and [freqHi / nyquist] to 1, and
    it is strictly increasing on the positive ratios: the X axis is
    logarithmic between the two ends of the range. *)
Theorem Control_CalcXNorm_range (freqLo freqHi sampleRate : R)
    (c c' : IVSpectrumAnalyzerControl R) :
  0 < freqLo ->
  SetFreqRange freqLo freqHi sampleRate c = Ok c' ->
  CalcXNorm c' (freqLo / (sampleRate / 2)) = 0 /\
  CalcXNorm c' (freqHi / (sampleRate / 2)) = 1 /\
  forall x1 x2, 0 < x1 < x2 -> CalcXNorm c' x1 < CalcXNorm c' x2.
Proof.
  intros Hlo Hset.
  destruct (SetFreqRange_cases freqLo freqHi sampleRate c) as [Hbad Hok].
  assert (Hrange : 0 <= freqLo /\ freqLo < freqHi /\ freqHi < sampleRate / 2).
  { destruct (Rle_dec 0 freqLo), (Rlt_dec freqLo freqHi),
             (Rlt_dec freqHi (sampleRate / 2)); try tauto;
      (rewrite Hbad in Hset by tauto; discriminate). }
  rewrite (Hok Hrange) in Hset. injection Hset as <-.
  destruct Hrange as (_ & Hlt & Hny).
  unfold CalcXNorm. cbn [mLogXLo mLogXHi].
  change (@fdiv R R_Scalar) with Rdiv. change (@fsub R R_Scalar) with Rminus.
  change (@flog R R_ScalarLog) with ln.
  set (nyq := sampleRate / 2) in *.
  assert (Hn : 0 < nyq) by lra.
  assert (Hl : 0 < freqLo / nyq) by (apply Rdiv_lt_0_compat; lra).
  assert (Hlh : freqLo / nyq < freqHi / nyq).
  { unfold Rdiv. apply Rmult_lt_compat_r; [apply Rinv_0_lt_compat; lra|lra]. }
  pose proof (ln_increasing _ _ Hl Hlh) as HD.
  set (L := ln (freqLo / nyq)) in *. set (H := ln (freqHi / nyq)) in *.
  assert (HDinv : 0 < / (H - L)) by (apply Rinv_0_lt_compat; lra).
  split; [unfold Rdiv; ring|].
  split; [field; lra|].
  intros x1 x2 [Hx1 Hx12].
  pose proof (ln_increasing _ _ Hx1 Hx12).
  unfold Rdiv. apply Rmult_lt_compat_r; [assumption|lra].
Qed.

(** X17.  In exact arithmetic, after [SetDBRange(dbLo, dbHi)] with
    [dbLo < dbHi], [CalcYNorm] of a positive power is its level in decibels,
    [10 log10 y], placed linearly between [dbLo] (at 0) and [dbHi] (at 1);
    it is strictly increasing on the positive powers. *)
Theorem Control_CalcYNorm_decibels (dbLo dbHi : R) (c : IVSpectrumAnalyzerControl R) :
  dbLo < dbHi ->
  let c' := SetDBRange dbLo dbHi c in
  (forall y, 0 < y ->
     CalcYNorm c' y = (10 * (ln y / ln 10) - dbLo) / (dbHi - dbLo)) /\
  CalcYNorm c' (Rpower 10 (dbLo / 10)) = 0 /\
  CalcYNorm c' (Rpower 10 (dbHi / 10)) = 1 /\
  forall y1 y2, 0 < y1 < y2 -> CalcYNorm c' y1 < CalcYNorm c' y2.
Proof.
  intros Hdb. cbv zeta.
  pose proof ln_10_pos as H10.
  assert (Heq : forall y,
             CalcYNorm (SetDBRange dbLo dbHi c) y
             = (10 * (ln y / ln 10) - dbLo) / (dbHi - dbLo)).
  { intros y. unfold CalcYNorm, SetDBRange. cbn [mLogYLo mLogYHi].
    change (@fdiv R R_Scalar) with Rdiv. change (@fsub R R_Scalar) with Rminus.
    change (@flog R R_ScalarLog) with ln. change (@fpow R R_ScalarLog) with Rpower.
    replace (@lit R R_Scalar 10) with 10 by (cbn; lra).
    rewrite !ln_Rpower. field. repeat split; try lra; nra. }
  split; [intros y _; apply Heq|].
  split; [rewrite Heq, ln_Rpower; field; repeat split; lra|].
  split; [rewrite Heq, ln_Rpower; field; repeat split; lra|].
  intros y1 y2 [Hy1 Hy12]. rewrite !Heq.
  pose proof (ln_increasing _ _ Hy1 Hy12) as Hln.
  assert (HDinv : 0 < / (dbHi - dbLo)) by (apply Rinv_0_lt_compat; lra).
  assert (H10inv : 0 < / ln 10) by (apply Rinv_0_lt_compat; lra).
  unfold Rdiv. apply Rmult_lt_compat_r; [assumption|].
  assert (ln y1 * / ln 10 < ln y2 * / ln 10)
    by (apply Rmult_lt_compat_r; assumption).
  lra.
Qed.

(** ** The frequency markers *)

Lemma increasing_snoc (l : list R) (x : R) :
  increasing l -> Forall (fun a => a < x) l -> increasing (l ++ [x]).
Proof.
  induction l as [|a l IH]; intros Hinc Hlt.
  - cbn. split; [constructor|exact I].
  - cbn in *. destruct Hinc as [Ha Hl].
    apply Forall_cons_1 in Hlt as [Hax Hlx].
    split; [|apply IH; assumption].
    apply Forall_app. split; [assumption|]. repeat constructor. assumption.
Qed.

(** The loop over the candidate frequencies keeps the markers increasing
    and within the range. *)
Lemma select_loop_spec (freqLo freqHi : R) (candidates acc : list R) :
  increasing candidates ->
  increasing acc ->
  Forall (fun a => freqLo <= a < freqHi) acc ->
  Forall (fun a => Forall (fun f => freqLo < f -> a < f) candidates) acc ->
  let r := select_loop freqLo freqHi candidates acc in
  increasing r /\
  Forall (fun a => freqLo <= a < freqHi) r /\
  (length acc <= length r <= length acc + length candidates)%nat /\
  exists more, r = acc ++ more.
Proof.
  revert acc. induction candidates as [|f rest IH]; intros acc Hc Hacc Hin Hbelow; cbn zeta.
  - cbn [select_loop length]. repeat split; try assumption; try lia.
    exists []. symmetry. apply app_nil_r.
  - cbn [select_loop length]. cbn in Hc. destruct Hc as [Hf Hrest].
    assert (Hbelow' : Forall (fun a => Forall (fun f => freqLo < f -> a < f) rest) acc).
    { eapply Forall_impl; [exact Hbelow|]. intros a Ha.
      apply Forall_cons_1 in Ha as [_ Ha]. exact Ha. }
    destruct (fleb f freqLo) eqn:E1.
    + destruct (IH acc Hrest Hacc Hin Hbelow') as (H1 & H2 & H3 & H4).
      repeat split; try assumption; lia.
    + apply fleb_R_false in E1.
      destruct (fleb freqHi f) eqn:E2.
      * repeat split; try assumption; try lia.
        exists []. symmetry. apply app_nil_r.
      * apply fleb_R_false in E2.
        destruct (IH (acc ++ [f])) as (H1 & H2 & H3 & more & H4).
        -- exact Hrest.
        -- apply increasing_snoc; [assumption|].
           eapply Forall_impl; [exact Hbelow|]. intros a Ha.
           apply Forall_cons_1 in Ha as [Ha _]. apply Ha. lra.
        -- apply Forall_app. split; [assumption|]. repeat constructor; lra.
        -- apply Forall_app. split; [assumption|]. repeat constructor.
           eapply Forall_impl; [exact Hf|]. intros g Hg _. exact Hg.
        -- rewrite length_app in H3. cbn [length] in H3.
           repeat split; try assumption; try lia.
           exists ([f] ++ more). rewrite H4, <- app_assoc. reflexivity.
Qed.

Lemma candidateFreqs_increasing : increasing (candidateFreqs (F := R)).
Proof.
  unfold candidateFreqs. cbn [increasing].
  repeat split; repeat (apply Forall_cons_2 || apply Forall_nil_2); cbn; lra.
Qed.

(** X18.  For a frequency range with [mFreqLo < mFreqHi], the marker
    frequencies that [DrawFreqMarkers] selects are strictly increasing, all
    within the range, beginning with [mFreqLo] and ending with [mFreqHi];
    there are between 2 and 11 of them. *)
Theorem Control_selectedFreqs_increasing (c : IVSpectrumAnalyzerControl R) :
  mFreqLo c < mFreqHi c ->
  increasing (selectedFreqs c) /\
  Forall (fun f => mFreqLo c <= f <= mFreqHi c) (selectedFreqs c) /\
  head (selectedFreqs c) = Some (mFreqLo c) /\
  last (selectedFreqs c) = Some (mFreqHi c) /\
  (2 <= length (selectedFreqs c) <= 11)%nat.
Proof.
  intros Hrange. unfold selectedFreqs.
  destruct (select_loop_spec (mFreqLo c) (mFreqHi c) candidateFreqs [mFreqLo c])
    as (Hinc & Hin & Hlen & more & Heq).
  - apply candidateFreqs_increasing.
  - cbn. split; [constructor|exact I].
  - repeat constructor; lra.
  - apply Forall_cons_2; [|apply Forall_nil_2].
    apply Forall_true. intros f Hf. exact Hf.
  - cbv zeta in Hinc, Hin, Hlen, Heq.
    split; [apply increasing_snoc; [assumption|]|].
    { eapply Forall_impl; [exact Hin|]. intros a Ha. cbn beta in Ha. lra. }
    split.
    { apply Forall_app. split.
      - eapply Forall_impl; [exact Hin|]. intros a Ha. cbn beta in Ha. lra.
      - repeat constructor; lra. }
    split; [rewrite Heq; reflexivity|].
    split; [apply last_snoc|].
    rewrite length_app. cbn [length] in *.
    change (length (candidateFreqs (F := R))) with 9%nat in Hlen. lia.
Qed.

End ControlRanges.

(** ** The properties at the small control *)

Local Open Scope R_scope.



(** The range 20 Hz to 20 kHz at the sample rate 44100 Hz. *)
Lemma Control_CalcXNorm_range_witness :
  Control.CalcXNorm
    (Control.mkControl 2 (ln (20 / (44100 / 2))) (ln (20000 / (44100 / 2)))
                       0 1 20 20000 [[]] [[]])
    (20000 / (44100 / 2)) = 1.
Proof.
  refine (proj1 (proj2 (Control_CalcXNorm_range 20 20000 44100 small_control _ _ _))).
  - lra.
  - apply (proj2 (SetFreqRange_cases 20 20000 44100 small_control)). lra.
Defined.

(** The range -90 dB to 0 dB: the power 1 is at the top. *)
Lemma Control_CalcYNorm_decibels_witness :
  Control.CalcYNorm (Control.SetDBRange (-90) 0 small_control) (Rpower 10 (0 / 10)) = 1.
Proof.
  refine (proj1 (proj2 (proj2 (Control_CalcYNorm_decibels (-90) 0 small_control _)))).
  lra.
Defined.

(** The markers of the small control. *)
Lemma Control_selectedFreqs_increasing_witness :
  increasing (Control.selectedFreqs small_control).
Proof.
  refine (proj1 (Control_selectedFreqs_increasing small_control _)).
  cbn. lra.
Defined.
